(** * TileNet: a shallow embedding of the server-side core

    The development follows the layout of the repository:
    - [Objects]   : tilenet/objects.py  (the five object variants)
    - [Protocol]  : tilenet/protocol.py (object ids, message builders)
    - [WorldM]    : server/world.py     (object table, containment index)
    - [SessionM]  : server/session.py   (per-client replication)
    - [PairPanicking], [TimerTask], [Home] : server/games/...
    - [Server]    : server/server.py    (disconnect cleanup)

    Conventions.  Python [int] is [Z]; [str] is [string] (code points
    0..255), except for the string handed to [parse_objid], which comes
    from the client and is a list of code points; a [dict] that is only
    read and written by key is a [gmap]; the score table, whose
    iteration order is observable, is an insertion-ordered association
    list; a [set] is a [gset], iterated in the order of [elements].  A
    write to a websocket is recorded, in order, as an entry of the
    output trace; transport failures are not modelled.  Coroutines run
    to completion, with one exception: the resolution that the timer
    task runs after cancelling itself stops at the first send that
    suspends ([TimerTask]). *)

From Stdlib Require Import ZArith Ascii String List Lia.
From stdpp Require Import base option list gmap strings pretty fin_maps fin_sets sorting.

Local Open Scope string_scope.
Local Open Scope Z_scope.
Local Open Scope list_scope.

(* ===================================================================== *)
(** * tilenet/objects.py *)
(* ===================================================================== *)

Module Objects.

Definition DEFAULT_BGCOLOR : string := "ff333333".
Definition DEFAULT_FGCOLOR : string := "ffffffff".
Definition DEFAULT_ENERGY : Z := 1.

(** The attribute schema shared by all variants (the base dataclass). *)
Record TileNetObject := mkObj {
  objid : string;
  name : string;
  text : string;
  energy : Z;
  bgcolor : string;
  fgcolor : string;
  x : Z;
  y : Z;
  image : string
}.

(** The five dataclasses.  Agent, Token and Key carry the extra field
    [container_matrix]; Matrix and ImageObj have no such attribute. *)
Inductive WorldObject :=
| Matrix (o : TileNetObject)
| Agent (o : TileNetObject) (container_matrix : string)
| Token (o : TileNetObject) (container_matrix : string)
| Key (o : TileNetObject) (container_matrix : string)
| ImageObj (o : TileNetObject).

Definition base (w : WorldObject) : TileNetObject :=
  match w with
  | Matrix o | Agent o _ | Token o _ | Key o _ | ImageObj o => o
  end.

Definition map_base (f : TileNetObject → TileNetObject) (w : WorldObject)
  : WorldObject :=
  match w with
  | Matrix o => Matrix (f o)
  | Agent o c => Agent (f o) c
  | Token o c => Token (f o) c
  | Key o c => Key (f o) c
  | ImageObj o => ImageObj (f o)
  end.

(** [getattr(obj, "container_matrix")]; [None] is [hasattr = False]. *)
Definition container_matrix (w : WorldObject) : option string :=
  match w with
  | Agent _ c | Token _ c | Key _ c => Some c
  | Matrix _ | ImageObj _ => None
  end.

Definition set_container_matrix (c : string) (w : WorldObject) : WorldObject :=
  match w with
  | Agent o _ => Agent o c
  | Token o _ => Token o c
  | Key o _ => Key o c
  | Matrix _ | ImageObj _ => w
  end.

Definition is_matrix (w : WorldObject) : bool :=
  match w with Matrix _ => true | _ => false end.
Definition is_agent (w : WorldObject) : bool :=
  match w with Agent _ _ => true | _ => false end.
Definition is_token (w : WorldObject) : bool :=
  match w with Token _ _ => true | _ => false end.
Definition is_key (w : WorldObject) : bool :=
  match w with Key _ _ => true | _ => false end.
Definition is_image (w : WorldObject) : bool :=
  match w with ImageObj _ => true | _ => false end.

(** Attribute writes [obj.attr = v]. *)
Definition set_name (v : string) (o : TileNetObject) : TileNetObject :=
  mkObj (objid o) v (text o) (energy o) (bgcolor o) (fgcolor o) (x o) (y o) (image o).
Definition set_text (v : string) (o : TileNetObject) : TileNetObject :=
  mkObj (objid o) (name o) v (energy o) (bgcolor o) (fgcolor o) (x o) (y o) (image o).
Definition set_energy (v : Z) (o : TileNetObject) : TileNetObject :=
  mkObj (objid o) (name o) (text o) v (bgcolor o) (fgcolor o) (x o) (y o) (image o).
Definition set_bgcolor (v : string) (o : TileNetObject) : TileNetObject :=
  mkObj (objid o) (name o) (text o) (energy o) v (fgcolor o) (x o) (y o) (image o).
Definition set_fgcolor (v : string) (o : TileNetObject) : TileNetObject :=
  mkObj (objid o) (name o) (text o) (energy o) (bgcolor o) v (x o) (y o) (image o).
Definition set_x (v : Z) (o : TileNetObject) : TileNetObject :=
  mkObj (objid o) (name o) (text o) (energy o) (bgcolor o) (fgcolor o) v (y o) (image o).
Definition set_y (v : Z) (o : TileNetObject) : TileNetObject :=
  mkObj (objid o) (name o) (text o) (energy o) (bgcolor o) (fgcolor o) (x o) v (image o).
Definition set_image (v : string) (o : TileNetObject) : TileNetObject :=
  mkObj (objid o) (name o) (text o) (energy o) (bgcolor o) (fgcolor o) (x o) (y o) v.

(** A keyword dictionary over the eight attribute names: the [**attrs]
    of the constructors and of [make_set].  [None] is an absent key. *)
Record AttrDict := mkAttrs {
  a_name : option string;
  a_text : option string;
  a_energy : option Z;
  a_bgcolor : option string;
  a_fgcolor : option string;
  a_x : option Z;
  a_y : option Z;
  a_image : option string
}.

Definition no_attrs : AttrDict :=
  mkAttrs None None None None None None None None.

(** [to_full_set_attrs]: every attribute, present. *)
Definition to_full_set_attrs (o : TileNetObject) : AttrDict :=
  mkAttrs (Some (name o)) (Some (text o)) (Some (energy o))
          (Some (bgcolor o)) (Some (fgcolor o))
          (Some (x o)) (Some (y o)) (Some (image o)).

(** The dataclass constructor with defaults, overridden by keywords. *)
Definition construct (oid : string) (kw : AttrDict) : TileNetObject :=
  mkObj oid
        (default "" (a_name kw))
        (default "" (a_text kw))
        (default DEFAULT_ENERGY (a_energy kw))
        (default DEFAULT_BGCOLOR (a_bgcolor kw))
        (default DEFAULT_FGCOLOR (a_fgcolor kw))
        (default 0 (a_x kw))
        (default 0 (a_y kw))
        (default "" (a_image kw)).

(** [Matrix.__post_init__]: dimensions below 2 are raised to 2. *)
Definition matrix_post_init (o : TileNetObject) : TileNetObject :=
  let o1 := if bool_decide (x o < 2) then set_x 2 o else o in
  if bool_decide (y o1 < 2) then set_y 2 o1 else o1.

End Objects.

(* ===================================================================== *)
(** * tilenet/protocol.py *)
(* ===================================================================== *)

Module Protocol.
Import Objects.

Inductive ObjType := OBJ_MATRIX | OBJ_AGENT | OBJ_TOKEN | OBJ_KEY | OBJ_IMAGE.

#[global] Instance ObjType_eq_dec : EqDecision ObjType.
Proof. solve_decision. Defined.

Definition type_char (t : ObjType) : ascii :=
  match t with
  | OBJ_MATRIX => "m" | OBJ_AGENT => "a" | OBJ_TOKEN => "t"
  | OBJ_KEY => "k" | OBJ_IMAGE => "i"
  end%char.

Definition VALID_OBJ_TYPES : list ascii :=
  map type_char [OBJ_MATRIX; OBJ_AGENT; OBJ_TOKEN; OBJ_KEY; OBJ_IMAGE].


(** ** The builtin [int(str)] in base ten

    [int] first turns the string into an ASCII buffer
    ([_PyUnicode_TransformDecimalAndSpaceToASCII]): every Unicode blank
    becomes a space and every Unicode decimal digit its ASCII digit.
    The buffer is then read by [PyLong_FromString]: leading ASCII
    blanks, one optional sign, a non-empty run of digits in which single
    underscores may separate digits, trailing ASCII blanks, and nothing
    else.  Leading zeros are accepted.  A number of more digits than the
    interpreter allows is refused. *)

(** A [str], by its code points. *)
Definition pystr : Type := list N.

Definition code_points (s : string) : pystr :=
  N_of_ascii <$> list_ascii_of_string s.

(** What [int] takes from the interpreter it runs in: the decimal digit
    values of its Unicode database, and
    [sys.get_int_max_str_digits()], which is 4300 unless configured
    otherwise and 0 when the limit is switched off. *)
Record Interpreter := mkInterpreter {
  Py_UNICODE_TODECIMAL : N → option N;
  max_str_digits : nat
}.

(** [Py_ISSPACE]: the blanks of the C locale. *)
Definition Py_ISSPACE (c : N) : bool :=
  ((9 <=? c) && (c <=? 13) || (c =? 32))%N.

(** [Py_UNICODE_ISSPACE]: bidirectional type WS, B or S, or category Zs. *)
Definition Py_UNICODE_ISSPACE (c : N) : bool :=
  ((9 <=? c) && (c <=? 13) || (28 <=? c) && (c <=? 32)
   || (c =? 0x85) || (c =? 0xA0) || (c =? 0x1680)
   || (0x2000 <=? c) && (c <=? 0x200A)
   || (c =? 0x2028) || (c =? 0x2029) || (c =? 0x202F) || (c =? 0x205F)
   || (c =? 0x3000))%N.

(** The loop of the transformation: code points below 127 are copied;
    a character that is neither a blank nor a decimal digit becomes "?"
    and ends the buffer. *)
Fixpoint transform_loop (I : Interpreter) (s : pystr) : pystr :=
  match s with
  | [] => []
  | ch :: s' =>
      if (ch <? 127)%N then ch :: transform_loop I s'
      else if Py_UNICODE_ISSPACE ch then 32%N :: transform_loop I s'
      else match Py_UNICODE_TODECIMAL I ch with
           | Some decimal => (48 + decimal)%N :: transform_loop I s'
           | None => [63%N]
           end
  end.

(** An ASCII string is returned as it is. *)
Definition transform (I : Interpreter) (s : pystr) : pystr :=
  if forallb (λ ch, ch <? 128)%N s then s else transform_loop I s.

Definition is_digit (c : N) : bool := ((48 <=? c) && (c <=? 57))%N.

Definition digit_value (c : N) : Z := Z.of_N c - 48.

Fixpoint lstrip (s : pystr) : pystr :=
  match s with
  | c :: s' => if Py_ISSPACE c then lstrip s' else s
  | [] => s
  end.

(** The scan over digits and underscores, from the first digit on:
    the value read, the number of digits, and what follows the run.
    [prev_us] records that the previous character was an underscore. *)
Fixpoint scan (acc : Z) (digits : nat) (prev_us : bool) (s : pystr)
  : option (Z * nat * pystr) :=
  match s with
  | [] => if prev_us then None else Some (acc, digits, s)
  | c :: s' =>
      if is_digit c then scan (10 * acc + digit_value c) (S digits) false s'
      else if (c =? 95)%N then
             (if prev_us then None else scan acc digits true s')
      else if prev_us then None else Some (acc, digits, s)
  end.

Definition _PY_LONG_MAX_STR_DIGITS_THRESHOLD : nat := 640.

(** [digits > threshold and max_str_digits > 0 and digits > max_str_digits] *)
Definition exceeds_limit (I : Interpreter) (digits : nat) : bool :=
  ((_PY_LONG_MAX_STR_DIGITS_THRESHOLD <? digits)
   && (0 <? max_str_digits I) && (max_str_digits I <? digits))%nat.

(** The unsigned part and the rest of the buffer. *)
Definition int_body (I : Interpreter) (s : pystr) : option Z :=
  match s with
  | c :: _ =>
      if is_digit c then
        '(value, digits, rest) ← scan 0 0 false s;
        if exceeds_limit I digits then None
        else if forallb Py_ISSPACE rest then Some value
        else None
      else None
  | [] => None
  end.

(** [int(s)]; [None] is [ValueError]. *)
Definition py_int (I : Interpreter) (s : pystr) : option Z :=
  match lstrip (transform I s) with
  | 45%N :: s' => Z.opp <$> int_body I s'
  | 43%N :: s' => int_body I s'
  | s' => int_body I s'
  end.

Inductive ValueError :=
| InvalidObjid (objid : pystr)
| UnknownObjectType (objid : pystr)
| NonNumericId (objid : pystr).

Definition valid_type_code (c : N) : bool :=
  bool_decide (c ∈ N_of_ascii <$> VALID_OBJ_TYPES).

(** [parse_objid]: [inl] is the raised [ValueError]. *)
Definition parse_objid (I : Interpreter) (objid : pystr)
  : ValueError + (pystr * Z) :=
  if bool_decide (objid = []) || (length objid <? 2)%nat
  then inl (InvalidObjid objid)
  else match objid with
       | [] => inl (InvalidObjid objid)
       | type_char :: rest =>
           if negb (valid_type_code type_char)
           then inl (UnknownObjectType objid)
           else match py_int I rest with
                | None => inl (NonNumericId objid)
                | Some num => inr ([type_char], num)
                end
       end.

(** [obj_type]: the first character, or the empty string. *)
Definition obj_type (objid : string) : string :=
  match objid with
  | String c _ => String c ""
  | EmptyString => ""
  end.

(** ** Server -> client messages *)

Inductive Msg :=
| MsgServer (version group name status : string)
| MsgLoggedIn (message : string) (objid : option string)
| MsgSet (objid : string) (attrs : AttrDict)
| MsgHear (from_id to_id message : string)
| MsgLoggedOut (message : string).

Definition VERSION : string := "1.0".

Definition make_server_hello (group name status : string) : Msg :=
  MsgServer VERSION group name status.
Definition make_logged_in (message : string) (objid : option string) : Msg :=
  MsgLoggedIn message objid.
(** [make_set] copies exactly the keys that are present. *)
Definition make_set (objid : string) (attrs : AttrDict) : Msg :=
  MsgSet objid attrs.
Definition make_hear (from_id to_id message : string) : Msg :=
  MsgHear from_id to_id message.
Definition make_logged_out (message : string) : Msg :=
  MsgLoggedOut message.

End Protocol.

(* ===================================================================== *)
(** * server/world.py *)
(* ===================================================================== *)

Module WorldM.
Import Objects Protocol.

(** [next_ids]: a dict initialised with the five type codes and only ever
    indexed by them. *)
Record NextIds := mkNext {
  next_m : Z; next_a : Z; next_t : Z; next_k : Z; next_i : Z
}.

Definition next_get (t : ObjType) (n : NextIds) : Z :=
  match t with
  | OBJ_MATRIX => next_m n | OBJ_AGENT => next_a n | OBJ_TOKEN => next_t n
  | OBJ_KEY => next_k n | OBJ_IMAGE => next_i n
  end.

Definition next_set (t : ObjType) (v : Z) (n : NextIds) : NextIds :=
  match t with
  | OBJ_MATRIX => mkNext v (next_a n) (next_t n) (next_k n) (next_i n)
  | OBJ_AGENT => mkNext (next_m n) v (next_t n) (next_k n) (next_i n)
  | OBJ_TOKEN => mkNext (next_m n) (next_a n) v (next_k n) (next_i n)
  | OBJ_KEY => mkNext (next_m n) (next_a n) (next_t n) v (next_i n)
  | OBJ_IMAGE => mkNext (next_m n) (next_a n) (next_t n) (next_k n) v
  end.

Section World.
  (** The type of game plugins attached to matrices. *)
Context {P : Type}.

Record World := mkWorld {
    objects : gmap string WorldObject;
    next_ids : NextIds;
    matrix_contents : gmap string (gset string);
    game_plugins : gmap string P
  }.

Definition with_objects (v : gmap string WorldObject) (w : World) : World :=
    mkWorld v (next_ids w) (matrix_contents w) (game_plugins w).
Definition with_next_ids (v : NextIds) (w : World) : World :=
    mkWorld (objects w) v (matrix_contents w) (game_plugins w).
Definition with_matrix_contents (v : gmap string (gset string)) (w : World)
    : World :=
    mkWorld (objects w) (next_ids w) v (game_plugins w).
Definition with_game_plugins (v : gmap string P) (w : World) : World :=
    mkWorld (objects w) (next_ids w) (matrix_contents w) v.

  (** [World()] *)
Definition init : World := mkWorld ∅ (mkNext 1 1 1 1 1) ∅ ∅.

Definition format_objid (type_code : ObjType) (num : Z) : string :=
    String (type_char type_code) (pretty num).

Definition new_objid (type_code : ObjType) (w : World) : string * World :=
    let num := next_get type_code (next_ids w) in
    (format_objid type_code num,
     with_next_ids (next_set type_code (num + 1) (next_ids w)) w).

  (** ** Object creation.  Each returns the new object and the world.

      [attrs] stands for the extra keywords of a call that reach the
      dataclass constructor.  Python binds a keyword that names a
      parameter of the factory to that parameter, so it never arrives
      in [attrs]; an [x] or [y] passed to [create_matrix], or an
      [objid] passed to any factory, makes the constructor call raise
      [TypeError] after the counter has advanced.  Such calls, and a
      [container_matrix] keyword (which no caller in the repository
      passes), are outside these definitions: where [attrs] carries a
      field that the positional parameters also set, the positional
      value is the one stored. *)

Definition create_matrix (name : string) (cols rows : Z) (attrs : AttrDict)
             (w : World) : TileNetObject * World :=
    let '(oid, w1) := new_objid OBJ_MATRIX w in
    let m := matrix_post_init
               (set_y rows (set_x cols (set_name name (construct oid attrs)))) in
    (m, with_matrix_contents (<[oid := ∅]> (matrix_contents w1))
          (with_objects (<[oid := Matrix m]> (objects w1)) w1)).

Definition create_agent (name text : string) (energy : Z) (w : World)
    : TileNetObject * World :=
    let '(oid, w1) := new_objid OBJ_AGENT w in
    let a := set_energy energy (set_text text (set_name name (construct oid no_attrs))) in
    (a, with_objects (<[oid := Agent a ""]> (objects w1)) w1).

Definition create_token (name : string) (x y energy : Z) (attrs : AttrDict)
             (w : World) : TileNetObject * World :=
    let '(oid, w1) := new_objid OBJ_TOKEN w in
    let t := set_energy energy
               (set_y y (set_x x (set_name name (construct oid attrs)))) in
    (t, with_objects (<[oid := Token t ""]> (objects w1)) w1).

Definition create_key (name : string) (attrs : AttrDict) (w : World)
    : TileNetObject * World :=
    let '(oid, w1) := new_objid OBJ_KEY w in
    let k := set_name name (construct oid attrs) in
    (k, with_objects (<[oid := Key k ""]> (objects w1)) w1).

Definition create_image (hex_data : string) (width height : Z) (w : World)
    : TileNetObject * World :=
    let '(oid, w1) := new_objid OBJ_IMAGE w in
    let img := set_y height (set_x width (set_text hex_data (construct oid no_attrs))) in
    (img, with_objects (<[oid := ImageObj img]> (objects w1)) w1).

  (** ** Lookup *)

Definition get (w : World) (objid : string) : option WorldObject :=
    objects w !! objid.

Definition get_matrix (w : World) (objid : string) : option TileNetObject :=
    match objects w !! objid with Some (Matrix o) => Some o | _ => None end.
Definition get_agent (w : World) (objid : string) : option TileNetObject :=
    match objects w !! objid with Some (Agent o _) => Some o | _ => None end.
Definition get_token (w : World) (objid : string) : option TileNetObject :=
    match objects w !! objid with Some (Token o _) => Some o | _ => None end.

  (** An attribute write through a reference obtained from [get_agent]
      or [get_token] ([if agent: agent.energy = ...]). *)
Definition update_agent (objid : string) (f : TileNetObject → TileNetObject)
             (w : World) : World :=
    match objects w !! objid with
    | Some (Agent o c) => with_objects (<[objid := Agent (f o) c]> (objects w)) w
    | _ => w
    end.
Definition update_token (objid : string) (f : TileNetObject → TileNetObject)
             (w : World) : World :=
    match objects w !! objid with
    | Some (Token o c) => with_objects (<[objid := Token (f o) c]> (objects w)) w
    | _ => w
    end.

  (** ** Matrix contents *)

Definition get_contents (w : World) (matrix_id : string) : gset string :=
    default ∅ (matrix_contents w !! matrix_id).

  (** The four type-filtered views share one loop. *)
Definition objects_in_matrix (keep : WorldObject → bool) (w : World)
             (matrix_id : string) : list WorldObject :=
    omap (λ oid, match objects w !! oid with
                 | Some obj => if keep obj then Some obj else None
                 | None => None
                 end)
         (elements (get_contents w matrix_id)).

Definition get_agents_in_matrix := objects_in_matrix is_agent.
Definition get_tokens_in_matrix := objects_in_matrix is_token.
Definition get_images_in_matrix := objects_in_matrix is_image.
Definition get_keys_in_matrix := objects_in_matrix is_key.

  (** ** Placement and removal *)

  (** [self.matrix_contents.get(old, set()).discard(objid)] *)
Definition discard_from (old objid : string) (w : World) : World :=
    with_matrix_contents (alter (λ s, s ∖ {[objid]}) old (matrix_contents w)) w.

Definition place_in_matrix (objid matrix_id : string) (w : World) : World :=
    let obj := objects w !! objid in
    (* Remove from any current matrix first *)
    let w1 := match obj ≫= container_matrix with
              | Some old => if bool_decide (old ≠ "") then discard_from old objid w
                            else w
              | None => w
              end in
    (* Add to new matrix *)
    let w2 := match matrix_contents w1 !! matrix_id with
              | Some s => with_matrix_contents
                            (<[matrix_id := s ∪ {[objid]}]> (matrix_contents w1)) w1
              | None => w1
              end in
    match obj with
    | Some o => match container_matrix o with
                | Some _ => with_objects
                              (<[objid := set_container_matrix matrix_id o]> (objects w2)) w2
                | None => w2
                end
    | None => w2
    end.

Definition remove_from_matrix (objid : string) (w : World)
    : option string * World :=
    match objects w !! objid with
    | Some o =>
        match container_matrix o with
        | Some old =>
            if bool_decide (old ≠ "") then
              let w1 := discard_from old objid w in
              (Some old,
               with_objects (<[objid := set_container_matrix "" o]> (objects w1)) w1)
            else (None, w)
        | None => (None, w)
        end
    | None => (None, w)
    end.

  (** ** Plugin registry *)

Definition register_plugin (matrix_id : string) (plugin : P) (w : World) : World :=
    with_game_plugins (<[matrix_id := plugin]> (game_plugins w)) w.
Definition get_plugin (w : World) (matrix_id : string) : option P :=
    game_plugins w !! matrix_id.

  (** ** Sequences of World operations *)

Inductive WorldOp :=
  | OpCreateMatrix (name : string) (cols rows : Z) (attrs : AttrDict)
  | OpCreateAgent (name text : string) (energy : Z)
  | OpCreateToken (name : string) (x y energy : Z) (attrs : AttrDict)
  | OpCreateKey (name : string) (attrs : AttrDict)
  | OpCreateImage (hex_data : string) (width height : Z)
  | OpPlace (objid matrix_id : string)
  | OpRemove (objid : string)
  | OpRegisterPlugin (matrix_id : string) (plugin : P).

Definition apply_op (op : WorldOp) (w : World) : World :=
    match op with
    | OpCreateMatrix n c r a => (create_matrix n c r a w).2
    | OpCreateAgent n t e => (create_agent n t e w).2
    | OpCreateToken n x y e a => (create_token n x y e a w).2
    | OpCreateKey n a => (create_key n a w).2
    | OpCreateImage h wd ht => (create_image h wd ht w).2
    | OpPlace o m => place_in_matrix o m w
    | OpRemove o => (remove_from_matrix o w).2
    | OpRegisterPlugin m p => register_plugin m p w
    end.

  (** Left-to-right execution. *)
Definition run (ops : list WorldOp) (w : World) : World :=
    foldl (λ w op, apply_op op w) w ops.

  (** [objid] is listed in the reverse index of [matrix_id]. *)
Definition listed_in (w : World) (objid matrix_id : string) : Prop :=
    ∃ s, matrix_contents w !! matrix_id = Some s ∧ objid ∈ s.

End World.
Arguments World : clear implicits.

End WorldM.

(* ===================================================================== *)
(** * server/session.py *)
(* ===================================================================== *)

Module SessionM.
Import Objects Protocol WorldM.

(** One connected client.  The websocket is identified with the key under
    which the session is stored; [_server] records whether the
    back-reference to the server is set. *)
Record Session := mkSession {
  agent_id : string;
  object_cache : gset string;
  current_matrix_id : option string;
  logged_in : bool;
  _server : bool
}.

Definition cache_add (objid : string) (s : Session) : Session :=
  mkSession (agent_id s) (object_cache s ∪ {[objid]}) (current_matrix_id s)
            (logged_in s) (_server s).
Definition set_current_matrix_id (m : string) (s : Session) : Session :=
  mkSession (agent_id s) (object_cache s) (Some m) (logged_in s) (_server s).

(** The event loop's view of a timer task. *)
Inductive TaskStatus := Pending | Cancelled | Finished.

(** [task.done()] *)
Definition task_done (t : TaskStatus) : bool :=
  match t with Pending => false | _ => true end.

Section Env.
Context {P : Type}.

  (** Everything the handlers share: the world, the server's session
      table, the timer tasks created so far, and what has been written
      to each websocket, oldest first. *)
Record Env := mkEnv {
    world : World P;
    sessions : gmap string Session;
    tasks : list TaskStatus;
    out : list (string * Msg)
  }.

Definition with_world (v : World P) (e : Env) : Env :=
    mkEnv v (sessions e) (tasks e) (out e).
Definition with_sessions (v : gmap string Session) (e : Env) : Env :=
    mkEnv (world e) v (tasks e) (out e).
Definition with_tasks (v : list TaskStatus) (e : Env) : Env :=
    mkEnv (world e) (sessions e) v (out e).
Definition with_out (v : list (string * Msg)) (e : Env) : Env :=
    mkEnv (world e) (sessions e) (tasks e) v.

Definition on_world (f : World P → World P) (e : Env) : Env :=
    with_world (f (world e)) e.

  (** [Session.send] *)
Definition send (sid : string) (msg : Msg) (e : Env) : Env :=
    with_out (out e ++ [(sid, msg)]) e.

Definition send_set (sid objid : string) (attrs : AttrDict) (e : Env) : Env :=
    let msg := make_set objid attrs in
    send sid msg (with_sessions (alter (cache_add objid) sid (sessions e)) e).

Definition send_hear (sid from_id to_id message : string) (e : Env) : Env :=
    send sid (make_hear from_id to_id message) e.

Definition send_logged_in (sid message : string) (objid : option string)
             (e : Env) : Env :=
    send sid (make_logged_in message objid) e.

Definition send_logged_out (sid message : string) (e : Env) : Env :=
    send sid (make_logged_out message) e.

Definition send_full_object (sid : string) (obj : TileNetObject) (e : Env) : Env :=
    send_set sid (objid obj) (to_full_set_attrs obj) e.

Definition send_all (sid : string) (objs : list WorldObject) (e : Env) : Env :=
    foldl (λ e obj, send_full_object sid (base obj) e) e objs.

Definition send_matrix_state (sid matrix_id : string) (e : Env) : Env :=
    match get_matrix (world e) matrix_id with
    | None => e
    | Some matrix =>
        let e := with_sessions
                   (alter (set_current_matrix_id matrix_id) sid (sessions e)) e in
        (* 1. matrix definition *)
        let e := send_full_object sid matrix e in
        (* 2. images *)
        let e := send_all sid (get_images_in_matrix (world e) matrix_id) e in
        (* 3. tokens *)
        let e := send_all sid (get_tokens_in_matrix (world e) matrix_id) e in
        (* 4. keys *)
        let e := send_all sid (get_keys_in_matrix (world e) matrix_id) e in
        (* 5. agents *)
        send_all sid (get_agents_in_matrix (world e) matrix_id) e
    end.

End Env.
Arguments Env : clear implicits.

End SessionM.

(* ===================================================================== *)
(** * Insertion-ordered dictionaries (the score table) *)
(* ===================================================================== *)

Module Dict.

Definition t := list (string * Z).

Fixpoint get (k : string) (d : t) : option Z :=
  match d with
  | [] => None
  | (k', v) :: d' => if String.eqb k k' then Some v else get k d'
  end.

(** [d[k] = v]: an existing key keeps its position, a new one goes last. *)
Fixpoint set (k : string) (v : Z) (d : t) : t :=
  match d with
  | [] => [(k, v)]
  | (k', v') :: d' =>
      if String.eqb k k' then (k', v) :: d' else (k', v') :: set k v d'
  end.

(** [d.pop(k, None)] *)
Fixpoint pop (k : string) (d : t) : t :=
  match d with
  | [] => []
  | (k', v') :: d' => if String.eqb k k' then d' else (k', v') :: pop k d'
  end.

Definition keys (d : t) : list string := map fst d.

(** [max(d, key=d.get, default=None)]: the first key of maximal value. *)
Fixpoint max_from (best : string * Z) (d : t) : string :=
  match d with
  | [] => best.1
  | (k, v) :: d' => max_from (if bool_decide (best.2 < v) then (k, v) else best) d'
  end.

Definition max_key (d : t) : option string :=
  match d with
  | [] => None
  | kv :: d' => Some (max_from kv d')
  end.

End Dict.

(** A loop whose body may raise: [None] is an uncaught exception. *)
Fixpoint for_each {A S : Type} (body : A → S → option S) (l : list A) (s : S)
  : option S :=
  match l with
  | [] => Some s
  | a :: l' => match body a s with
               | Some s' => for_each body l' s'
               | None => None
               end
  end.

(** [g[r][c]] and [g[r][c] = v] on a list of rows; [None] is IndexError. *)
Definition grid_get {A : Type} (g : list (list A)) (r c : nat) : option A :=
  match g !! r with
  | Some row => row !! c
  | None => None
  end.

Definition grid_set {A : Type} (g : list (list A)) (r c : nat) (v : A)
  : option (list (list A)) :=
  match g !! r with
  | Some row => match row !! c with
                | Some _ => Some (<[r := <[c := v]> row]> g)
                | None => None
                end
  | None => None
  end.

(* ===================================================================== *)
(** * server/games/pair_panicking/game.py *)
(* ===================================================================== *)

Module PairPanicking.
Import Objects Protocol WorldM SessionM.

Definition SYMBOLS : list string :=
  ["beer"; "duck"; "fairy"; "flowers"; "hobbiton"; "hydrant";
   "lady"; "panda"; "robot"; "rose"; "saturn"; "skull";
   "tardis"; "toilet"; "turtle"; "woman"].

Definition GRID_ROWS : nat := 8.
Definition GRID_COLS : nat := 8.
Definition TOTAL_SQUARES : Z := 64.
Definition COPIES_PER_SYMBOL : nat := 4.

Definition HIDDEN_NAME : string := "???".
Definition SOLVED_NAME : string := "".
Definition START_ENERGY : Z := 10.

Definition HIDDEN_BGCOLOR : string := "ff334455".
Definition HIDDEN_FGCOLOR : string := "ffaabbcc".
Definition SHOWING_BGCOLOR : string := "ff225588".
Definition SHOWING_FGCOLOR : string := "ffffffff".
Definition SOLVED_BGCOLOR : string := "33222222".
Definition SOLVED_FGCOLOR : string := "33666666".
Definition CONTROL_BGCOLOR : string := "ff11aa44".
Definition CONTROL_FGCOLOR : string := "ffffffff".
Definition HOME_BGCOLOR : string := "ffcc6600".
Definition HOME_FGCOLOR : string := "ffffffff".

(** The per-cell visibility: "hidden" / "showing" / "solved". *)
Inductive CellState := Hidden | Showing | Solved.

Definition is_hidden (c : CellState) : bool :=
  match c with Hidden => true | _ => false end.

Record PairPanickingPlugin := mkPP {
  matrix_id : string;
  board : list (list string);
  state : list (list CellState);
  token_grid : list (list string);
  token_positions : gmap string (nat * nat);
  showing : list (nat * nat);
  trigger_agent : option string;
  timer_task : option nat;
  scores : Dict.t;
  game_in_progress : bool;
  solved_count : Z;
  home_token_id : string;
  help_token_id : string;
  restart_token_id : string;
  symbol_images : gmap string string;
  hidden_image_id : string
}.

(** [PairPanickingPlugin(world, matrix_id)] *)
Definition new (matrix_id : string) : PairPanickingPlugin :=
  mkPP matrix_id [] [] [] ∅ [] None None [] false 0 "" "" "" ∅ "".

Definition with_board v (p : PairPanickingPlugin) :=
  mkPP (matrix_id p) v (state p) (token_grid p) (token_positions p) (showing p)
       (trigger_agent p) (timer_task p) (scores p) (game_in_progress p)
       (solved_count p) (home_token_id p) (help_token_id p) (restart_token_id p)
       (symbol_images p) (hidden_image_id p).
Definition with_state v (p : PairPanickingPlugin) :=
  mkPP (matrix_id p) (board p) v (token_grid p) (token_positions p) (showing p)
       (trigger_agent p) (timer_task p) (scores p) (game_in_progress p)
       (solved_count p) (home_token_id p) (help_token_id p) (restart_token_id p)
       (symbol_images p) (hidden_image_id p).
Definition with_token_grid v (p : PairPanickingPlugin) :=
  mkPP (matrix_id p) (board p) (state p) v (token_positions p) (showing p)
       (trigger_agent p) (timer_task p) (scores p) (game_in_progress p)
       (solved_count p) (home_token_id p) (help_token_id p) (restart_token_id p)
       (symbol_images p) (hidden_image_id p).
Definition with_token_positions v (p : PairPanickingPlugin) :=
  mkPP (matrix_id p) (board p) (state p) (token_grid p) v (showing p)
       (trigger_agent p) (timer_task p) (scores p) (game_in_progress p)
       (solved_count p) (home_token_id p) (help_token_id p) (restart_token_id p)
       (symbol_images p) (hidden_image_id p).
Definition with_showing v (p : PairPanickingPlugin) :=
  mkPP (matrix_id p) (board p) (state p) (token_grid p) (token_positions p) v
       (trigger_agent p) (timer_task p) (scores p) (game_in_progress p)
       (solved_count p) (home_token_id p) (help_token_id p) (restart_token_id p)
       (symbol_images p) (hidden_image_id p).
Definition with_trigger_agent v (p : PairPanickingPlugin) :=
  mkPP (matrix_id p) (board p) (state p) (token_grid p) (token_positions p) (showing p)
       v (timer_task p) (scores p) (game_in_progress p)
       (solved_count p) (home_token_id p) (help_token_id p) (restart_token_id p)
       (symbol_images p) (hidden_image_id p).
Definition with_timer_task v (p : PairPanickingPlugin) :=
  mkPP (matrix_id p) (board p) (state p) (token_grid p) (token_positions p) (showing p)
       (trigger_agent p) v (scores p) (game_in_progress p)
       (solved_count p) (home_token_id p) (help_token_id p) (restart_token_id p)
       (symbol_images p) (hidden_image_id p).
Definition with_scores v (p : PairPanickingPlugin) :=
  mkPP (matrix_id p) (board p) (state p) (token_grid p) (token_positions p) (showing p)
       (trigger_agent p) (timer_task p) v (game_in_progress p)
       (solved_count p) (home_token_id p) (help_token_id p) (restart_token_id p)
       (symbol_images p) (hidden_image_id p).
Definition with_game_in_progress v (p : PairPanickingPlugin) :=
  mkPP (matrix_id p) (board p) (state p) (token_grid p) (token_positions p) (showing p)
       (trigger_agent p) (timer_task p) (scores p) v
       (solved_count p) (home_token_id p) (help_token_id p) (restart_token_id p)
       (symbol_images p) (hidden_image_id p).
Definition with_solved_count v (p : PairPanickingPlugin) :=
  mkPP (matrix_id p) (board p) (state p) (token_grid p) (token_positions p) (showing p)
       (trigger_agent p) (timer_task p) (scores p) (game_in_progress p)
       v (home_token_id p) (help_token_id p) (restart_token_id p)
       (symbol_images p) (hidden_image_id p).
Definition with_home_token_id v (p : PairPanickingPlugin) :=
  mkPP (matrix_id p) (board p) (state p) (token_grid p) (token_positions p) (showing p)
       (trigger_agent p) (timer_task p) (scores p) (game_in_progress p)
       (solved_count p) v (help_token_id p) (restart_token_id p)
       (symbol_images p) (hidden_image_id p).
Definition with_help_token_id v (p : PairPanickingPlugin) :=
  mkPP (matrix_id p) (board p) (state p) (token_grid p) (token_positions p) (showing p)
       (trigger_agent p) (timer_task p) (scores p) (game_in_progress p)
       (solved_count p) (home_token_id p) v (restart_token_id p)
       (symbol_images p) (hidden_image_id p).
Definition with_restart_token_id v (p : PairPanickingPlugin) :=
  mkPP (matrix_id p) (board p) (state p) (token_grid p) (token_positions p) (showing p)
       (trigger_agent p) (timer_task p) (scores p) (game_in_progress p)
       (solved_count p) (home_token_id p) (help_token_id p) v
       (symbol_images p) (hidden_image_id p).
Definition with_symbol_images v (p : PairPanickingPlugin) :=
  mkPP (matrix_id p) (board p) (state p) (token_grid p) (token_positions p) (showing p)
       (trigger_agent p) (timer_task p) (scores p) (game_in_progress p)
       (solved_count p) (home_token_id p) (help_token_id p) (restart_token_id p)
       v (hidden_image_id p).
Definition with_hidden_image_id v (p : PairPanickingPlugin) :=
  mkPP (matrix_id p) (board p) (state p) (token_grid p) (token_positions p) (showing p)
       (trigger_agent p) (timer_task p) (scores p) (game_in_progress p)
       (solved_count p) (home_token_id p) (help_token_id p) (restart_token_id p)
       (symbol_images p) v.

Section Plugin.
Context {P : Type}.

  (** The plugin object together with everything it shares. *)
Abbreviation St := (PairPanickingPlugin * Env P)%type.

  (** ** Broadcast helpers *)

Definition _broadcast_set (self : PairPanickingPlugin) (objid : string)
             (attrs : AttrDict) (e : Env P) : Env P :=
    foldl (λ e agent,
             match sessions e !! Objects.objid (base agent) with
             | Some _ => send_set (Objects.objid (base agent)) objid attrs e
             | None => e
             end)
          e (get_agents_in_matrix (world e) (matrix_id self)).

Definition _broadcast_hear (self : PairPanickingPlugin)
             (from_id to_id message : string) (e : Env P) : Env P :=
    foldl (λ e agent,
             match sessions e !! Objects.objid (base agent) with
             | Some _ => send_hear (Objects.objid (base agent)) from_id to_id message e
             | None => e
             end)
          e (get_agents_in_matrix (world e) (matrix_id self)).

  (** [a.name if a else agent_id] *)
Definition name_or_id (e : Env P) (agent_id : string) : string :=
    match get_agent (world e) agent_id with
    | Some a => name a
    | None => agent_id
    end.

  (** ** Set-up *)

  (** [files symbol] is the hexadecimal content of the symbol's image
      file when that file exists. *)
Definition _load_images (files : string → option string) (st : St) : St :=
    let st :=
      foldl (λ '(self, e) symbol,
               match files symbol with
               | Some hex_data =>
                   let '(img_obj, w) := create_image hex_data 64 64 (world e) in
                   let self := with_symbol_images
                                 (<[symbol := objid img_obj]> (symbol_images self)) self in
                   (self, with_world
                            (place_in_matrix (objid img_obj) (matrix_id self) w) e)
               | None => (self, e)
               end)
            st SYMBOLS in
    (with_hidden_image_id "" st.1, st.2).

Definition _create_grid_tokens (st : St) : St :=
    let '(self, e) := st in
    let self := with_token_positions ∅ (with_token_grid [] self) in
    foldl (λ '(self, e) row,
             let '(row_tokens, self, e) :=
               foldl (λ '(row_tokens, self, e) col,
                        let '(token, w) :=
                          create_token HIDDEN_NAME (Z.of_nat col) (Z.of_nat row) 1
                            (mkAttrs None None None (Some HIDDEN_BGCOLOR)
                                     (Some HIDDEN_FGCOLOR) None None None)
                            (world e) in
                        let w := place_in_matrix (objid token) (matrix_id self) w in
                        (row_tokens ++ [objid token],
                         with_token_positions
                           (<[objid token := (row, col)]> (token_positions self)) self,
                         with_world w e))
                     ([], self, e) (seq 0 GRID_COLS) in
             (with_token_grid (token_grid self ++ [row_tokens]) self, e))
          (self, e) (seq 0 GRID_ROWS).

Definition control_token (name : string) (y : Z) (bg fg text : string)
             (self : PairPanickingPlugin) (e : Env P) : string * Env P :=
    let '(tok, w) :=
      create_token name 8 y 1
        (mkAttrs None (Some text) None (Some bg) (Some fg) None None None)
        (world e) in
    (objid tok, with_world (place_in_matrix (objid tok) (matrix_id self) w) e).

Definition _create_control_tokens (st : St) : St :=
    let '(self, e) := st in
    let '(home, e) := control_token "< Home" 0 HOME_BGCOLOR HOME_FGCOLOR
                        "Return to lobby" self e in
    let self := with_home_token_id home self in
    let '(help_tok, e) := control_token "? Help" 2 CONTROL_BGCOLOR CONTROL_FGCOLOR
                            "Click for instructions" self e in
    let self := with_help_token_id help_tok self in
    let '(restart, e) := control_token "New Game" 4 CONTROL_BGCOLOR CONTROL_FGCOLOR
                           "Start a new game" self e in
    (with_restart_token_id restart self, e).

  (** [task.cancel()] on a task that is not done. *)
Definition cancel_task (h : nat) (e : Env P) : Env P :=
    with_tasks (<[h := Cancelled]> (tasks e)) e.

  (** [self.timer_task and not self.timer_task.done()] *)
Definition timer_running (self : PairPanickingPlugin) (e : Env P) : option nat :=
    match timer_task self with
    | Some h => match tasks e !! h with
                | Some t => if task_done t then None else Some h
                | None => None
                end
    | None => None
    end.

  (** [if self.timer_task and not self.timer_task.done(): cancel; None] *)
Definition cancel_timer (st : St) : St :=
    let '(self, e) := st in
    match timer_running self e with
    | Some h => (with_timer_task None self, cancel_task h e)
    | None => (self, e)
    end.

  (** [symbols] is the list [SYMBOLS * COPIES_PER_SYMBOL] as left by
      [random.shuffle]. *)
Definition _setup_new_game (symbols : list string) (st : St) : option St :=
    let '(self, e) := st in
    board ← mapM (λ row, mapM (λ col, symbols !! (row * GRID_COLS + col)%nat)
                              (seq 0 GRID_COLS))
                 (seq 0 GRID_ROWS);
    let state := map (λ _, map (λ _, Hidden) (seq 0 GRID_COLS)) (seq 0 GRID_ROWS) in
    let self := with_state state (with_board board self) in
    let self := with_game_in_progress true
                  (with_solved_count 0
                     (with_trigger_agent None (with_showing [] self))) in
    Some (cancel_timer (self, e)).

  (** ** End of game *)

Definition _reveal_all (st : St) : option St :=
    for_each
      (λ row,
         for_each
           (λ col '(self, e),
              cell ← grid_get (state self) row col;
              if is_hidden cell then
                token_id ← grid_get (token_grid self) row col;
                symbol ← grid_get (board self) row col;
                let image_id := default "" (symbol_images self !! symbol) in
                let e := on_world
                           (update_token token_id
                              (λ t, set_image image_id (set_name symbol t))) e in
                Some (self,
                      _broadcast_set self token_id
                        (mkAttrs (Some symbol) None None None None None None
                                 (Some image_id)) e)
              else Some (self, e))
           (seq 0 GRID_COLS))
      (seq 0 GRID_ROWS) st.

Definition energy_only (v : Z) : AttrDict :=
    mkAttrs None None (Some v) None None None None None.

Definition _game_over (has_winner : bool) (st : St) : option St :=
    let '(self, e) := st in
    let self := with_game_in_progress false self in
    let mid := matrix_id self in
    '(self, e) ←
      (if has_winner then
         match Dict.max_key (scores self) with
         | Some winner_id =>
             if bool_decide (winner_id ≠ "") then
               let name := name_or_id e winner_id in
               score ← Dict.get winner_id (scores self);
               Some (self,
                     _broadcast_hear self mid mid
                       ("Game Over! " +:+ name +:+ " wins with "
                          +:+ pretty score +:+ " points!") e)
             else Some (self, _broadcast_hear self mid mid "Game Over!" e)
         | None => Some (self, _broadcast_hear self mid mid "Game Over!" e)
         end
       else
         _reveal_all
           (self, _broadcast_hear self mid mid
                    "Game Over! No active players remain." e));
    (* Enable restart button *)
    let e := on_world (update_token (restart_token_id self) (set_energy 1)) e in
    Some (self, _broadcast_set self (restart_token_id self) (energy_only 1) e).

  (** ** Resolution of a showing pair *)

Definition solved_attrs : AttrDict :=
    mkAttrs (Some SOLVED_NAME) None (Some 0) (Some SOLVED_BGCOLOR)
            (Some SOLVED_FGCOLOR) None None (Some "").

Definition mark_solved (rc : nat * nat) (st : St) : option St :=
    let '(self, e) := st in
    let '(r, c) := rc in
    state' ← grid_set (state self) r c Solved;
    let self := with_solved_count (solved_count self + 1) (with_state state' self) in
    token_id ← grid_get (token_grid self) r c;
    let e := on_world
               (update_token token_id
                  (λ t, set_image ""
                          (set_energy 0
                             (set_fgcolor SOLVED_FGCOLOR
                                (set_bgcolor SOLVED_BGCOLOR
                                   (set_name SOLVED_NAME t)))))) e in
    Some (self, _broadcast_set self token_id solved_attrs e).

  (** One iteration of the award loop. *)
Definition award (agent_id : string) (st : St) : option St :=
    let '(self, e) := st in
    s ← Dict.get agent_id (scores self);
    let bonus := if bool_decide (trigger_agent self = Some agent_id) then 4 else 0 in
    let s' := s + 2 + bonus in
    let self := with_scores (Dict.set agent_id s' (scores self)) self in
    let e := on_world (update_agent agent_id (set_energy s')) e in
    Some (self, _broadcast_set self agent_id (energy_only s') e).

Definition trigger_name (self : PairPanickingPlugin) (e : Env P) : string :=
    match trigger_agent self with
    | Some t => if bool_decide (t ≠ "") then name_or_id e t else ""
    | None => ""
    end.

Definition _handle_match (r1 c1 r2 c2 : nat) (st : St) : option St :=
    (* Mark solved *)
    st ← for_each mark_solved [(r1, c1); (r2, c2)] st;
    (* Award points: +2 all, +4 additional for trigger *)
    '(self, e) ← for_each award (Dict.keys (scores st.1)) st;
    let e := _broadcast_hear self (matrix_id self) (matrix_id self)
               (trigger_name self e +:+ " found a match!") e in
    (* Check win condition *)
    if bool_decide (TOTAL_SQUARES ≤ solved_count self)
    then _game_over true (self, e)
    else Some (self, e).

Definition hidden_attrs (self : PairPanickingPlugin) : AttrDict :=
    mkAttrs (Some HIDDEN_NAME) None None (Some HIDDEN_BGCOLOR)
            (Some HIDDEN_FGCOLOR) None None (Some (hidden_image_id self)).

Definition mark_hidden (rc : nat * nat) (st : St) : option St :=
    let '(self, e) := st in
    let '(r, c) := rc in
    state' ← grid_set (state self) r c Hidden;
    let self := with_state state' self in
    token_id ← grid_get (token_grid self) r c;
    let e := on_world
               (update_token token_id
                  (λ t, set_image (hidden_image_id self)
                          (set_fgcolor HIDDEN_FGCOLOR
                             (set_bgcolor HIDDEN_BGCOLOR
                                (set_name HIDDEN_NAME t))))) e in
    Some (self, _broadcast_set self token_id (hidden_attrs self) e).

  (** One iteration of the deduction loop; the first component collects
      [newly_inactive]. *)
Definition deduct (agent_id : string) (acc : list string * St)
    : option (list string * St) :=
    let '(newly_inactive, (self, e)) := acc in
    s ← Dict.get agent_id (scores self);
    if bool_decide (s ≤ 0) then Some acc  (* already inactive *)
    else
      let penalty := if bool_decide (trigger_agent self = Some agent_id) then 2 else 1 in
      let s' := s - penalty in
      let self := with_scores (Dict.set agent_id s' (scores self)) self in
      let e := on_world (update_agent agent_id (set_energy s')) e in
      let e := _broadcast_set self agent_id (energy_only s') e in
      Some (if bool_decide (s' ≤ 0) then newly_inactive ++ [agent_id]
            else newly_inactive,
            (self, e)).

  (** [[aid for aid, s in self.scores.items() if s > 0]] *)
Definition active (self : PairPanickingPlugin) : list string :=
    map fst (filter (λ kv, 0 < kv.2) (scores self)).

Definition _handle_mismatch (r1 c1 r2 c2 : nat) (st : St) : option St :=
    st ← for_each mark_hidden [(r1, c1); (r2, c2)] st;
    (* Deduct points: -1 all active, -1 additional for trigger *)
    '(newly_inactive, (self, e)) ←
      for_each deduct (Dict.keys (scores st.1)) ([], st);
    let e := foldl (λ e agent_id,
                      _broadcast_hear self (matrix_id self) (matrix_id self)
                        (name_or_id e agent_id +:+ " has been eliminated!") e)
                   e newly_inactive in
    (* Check if all active players eliminated *)
    if bool_decide (active self = []) && game_in_progress self
    then _game_over false (self, e)
    else Some (self, e).

  (** [_resolve] as [on_click] calls it: the timer it cancels is another
      task, asleep.  The call from the timer's own task is the subject
      of [TimerTask] below. *)
Definition _resolve (st : St) : option St :=
    (* Cancel timer if running *)
    let '(self, e) := cancel_timer st in
    match showing self with
    | (r1, c1) :: (r2, c2) :: _ =>
        let self := with_showing [] self in
        sym1 ← grid_get (board self) r1 c1;
        sym2 ← grid_get (board self) r2 c2;
        if bool_decide (sym1 = sym2)
        then _handle_match r1 c1 r2 c2 (self, e)
        else _handle_mismatch r1 c1 r2 c2 (self, e)
    | _ => Some (self, e)
    end.

  (** [asyncio.create_task(self._timer_coro(...))] *)
Definition create_task (e : Env P) : nat * Env P :=
    (length (tasks e), with_tasks (tasks e ++ [Pending]) e).

  (** ** Plugin hooks *)

Definition on_agent_enter (session agent_id : string) (st : St) : St :=
    let '(self, e) := st in
    (* Set starting score (minus 1 for entering) *)
    let score := START_ENERGY - 1 in
    let self := with_scores (Dict.set agent_id score (scores self)) self in
    let agent_name := name_or_id e agent_id in
    let e := on_world (update_agent agent_id (set_energy score)) e in
    (* Notify the entering agent of their energy *)
    let e := send_set session agent_id (energy_only score) e in
    (* Announce to all *)
    let e := _broadcast_hear self (matrix_id self) (matrix_id self)
               (agent_name +:+ " joined PairPanicking! (Score: "
                  +:+ pretty score +:+ ")") e in
    (* If no game in progress, enable restart *)
    if game_in_progress self then (self, e)
    else
      let e := on_world (update_token (restart_token_id self) (set_energy 1)) e in
      (self, _broadcast_set self (restart_token_id self) (energy_only 1) e).

Definition on_agent_leave (session agent_id : string) (st : St) : option St :=
    let '(self, e) := st in
    let self := with_scores (Dict.pop agent_id (scores self)) self in
    let agent_name := name_or_id e agent_id in
    let e := _broadcast_hear self (matrix_id self) (matrix_id self)
               (agent_name +:+ " left PairPanicking.") e in
    (* Check if game over (no active players left) *)
    if game_in_progress self && bool_decide (active self = [])
    then _game_over false (self, e)
    else Some (self, e).

  (** ** Control tokens *)

Definition reset_token (self : PairPanickingPlugin) (rc : nat * nat)
             (e : Env P) : option (Env P) :=
    token_id ← grid_get (token_grid self) rc.1 rc.2;
    let e := on_world
               (update_token token_id
                  (λ t, set_image (hidden_image_id self)
                          (set_energy 1
                             (set_fgcolor HIDDEN_FGCOLOR
                                (set_bgcolor HIDDEN_BGCOLOR
                                   (set_name HIDDEN_NAME t)))))) e in
    Some (_broadcast_set self token_id
            (mkAttrs (Some HIDDEN_NAME) None (Some 1) (Some HIDDEN_BGCOLOR)
                     (Some HIDDEN_FGCOLOR) None None
                     (Some (hidden_image_id self))) e).

Definition _reset_game (symbols : list string) (st : St) : option St :=
    '(self, e) ← _setup_new_game symbols st;
    (* Reset all grid tokens to hidden *)
    e ← for_each (λ row, for_each (λ col, reset_token self (row, col))
                                  (seq 0 GRID_COLS))
                 (seq 0 GRID_ROWS) e;
    (* Reset scores for all agents in matrix *)
    let '(self, e) :=
      foldl (λ '(self, e) agent_id,
               let self := with_scores
                             (Dict.set agent_id START_ENERGY (scores self)) self in
               let e := on_world (update_agent agent_id (set_energy START_ENERGY)) e in
               (self, _broadcast_set self agent_id (energy_only START_ENERGY) e))
            (self, e) (Dict.keys (scores self)) in
    (* Disable restart button during game *)
    let e := on_world (update_token (restart_token_id self) (set_energy (-1))) e in
    Some (self, _broadcast_set self (restart_token_id self) (energy_only (-1)) e).

Definition help_text : string :=
    "PairPanicking: A multiplayer memory game! "
    +:+ "Click hidden tiles (???) to reveal symbols. "
    +:+ "Match pairs to score points! "
    +:+ "Match: +2 all players, +4 bonus for you. "
    +:+ "Mismatch: -1 all active players, -1 extra for you. "
    +:+ "Game ends when all tiles are matched or all players are eliminated. "
    +:+ "Good luck!".

Definition _handle_help (session agent_id : string) (st : St) : St :=
    (st.1, send_hear session (matrix_id st.1) agent_id help_text st.2).

Definition _handle_restart (symbols : list string) (session agent_id : string)
             (st : St) : option St :=
    let '(self, e) := st in
    if game_in_progress self then
      Some (self, send_hear session (matrix_id self) agent_id
                    "A game is already in progress!" e)
    else
      (* Deduct 1 point from restarting player *)
      let '(self, e) :=
        match Dict.get agent_id (scores self) with
        | Some s =>
            let self := with_scores (Dict.set agent_id (s - 1) (scores self)) self in
            let e := on_world (update_agent agent_id (set_energy (s - 1))) e in
            (self, _broadcast_set self agent_id (energy_only (s - 1)) e)
        | None => (self, e)
        end in
      let e := _broadcast_hear self (matrix_id self) (matrix_id self)
                 (name_or_id e agent_id +:+ " started a new game!") e in
      _reset_game symbols (self, e).

  (** The server behind [session._server]: its transfer routine and its
      home matrix.  The plugin only calls it; it is defined elsewhere. *)
Variable move_agent_to_matrix : string → string → string → St → option St.
Variable home_matrix_id : string.

Definition _handle_home (session agent_id : string) (st : St) : option St :=
    match sessions st.2 !! session with
    | Some s => if _server s
                then move_agent_to_matrix session agent_id home_matrix_id st
                else Some st
    | None => Some st
    end.

Definition showing_attrs (symbol image_id : string) : AttrDict :=
    mkAttrs (Some symbol) None None (Some SHOWING_BGCOLOR)
            (Some SHOWING_FGCOLOR) None None (Some image_id).

  (** Reveal the clicked square and, on the second reveal, start the
      timer (the tail of [on_click]). *)
Definition reveal (agent_id token_id : string) (row col : nat) (st : St)
    : option St :=
    let '(self, e) := st in
    state' ← grid_set (state self) row col Showing;
    let self := with_showing (showing self ++ [(row, col)])
                  (with_state state' self) in
    symbol ← grid_get (board self) row col;
    let image_id := default "" (symbol_images self !! symbol) in
    let e := on_world
               (update_token token_id
                  (λ t, set_image image_id
                          (set_fgcolor SHOWING_FGCOLOR
                             (set_bgcolor SHOWING_BGCOLOR
                                (set_name symbol t))))) e in
    let e := _broadcast_set self token_id (showing_attrs symbol image_id) e in
    (* If this is the 2nd reveal, start the timer *)
    if bool_decide (length (showing self) = 2%nat) then
      let '(h, e) := create_task e in
      Some (with_timer_task (Some h) (with_trigger_agent (Some agent_id) self), e)
    else Some (self, e).

  (** [symbols] is consumed only if the click restarts the game. *)
Definition on_click (symbols : list string) (session agent_id token_id : string)
             (st : St) : option St :=
    let '(self, e) := st in
    (* Control tokens *)
    if bool_decide (token_id = home_token_id self)
    then _handle_home session agent_id st
    else if bool_decide (token_id = help_token_id self)
    then Some (_handle_help session agent_id st)
    else if bool_decide (token_id = restart_token_id self)
    then _handle_restart symbols session agent_id st
    else
      (* Game grid click *)
      match token_positions self !! token_id with
      | None => Some st
      | Some (row, col) =>
          if negb (game_in_progress self) then Some st
          else
            (* Check agent is active *)
            let agent_score := default 0 (Dict.get agent_id (scores self)) in
            if bool_decide (agent_score ≤ 0) then Some st
            else
              (* Only hidden squares can be clicked *)
              cell ← grid_get (state self) row col;
              if negb (is_hidden cell) then Some st
              else
                (* 3rd click ends the timer early *)
                st ← (if bool_decide (2 ≤ length (showing self))%nat
                      then _resolve st else Some st);
                reveal agent_id token_id row col st
      end.

Definition initialize (files : string → option string) (symbols : list string)
             (st : St) : option St :=
    _setup_new_game symbols
      (_create_control_tokens (_create_grid_tokens (_load_images files st))).

End Plugin.
End PairPanicking.

(* ===================================================================== *)
(** * The resolution as the timer's own task runs it *)
(* ===================================================================== *)

(** [_timer_coro] calls [_resolve] from inside the timer task, and
    [_resolve] begins by cancelling [self.timer_task]: the task it is
    running in.  Cancelling the running task only marks it; the
    [CancelledError] is raised at the next [await] that suspends.  The
    only awaits below [_resolve] that can suspend are the writes to a
    websocket.  [_broadcast_set] and [_broadcast_hear] catch
    [Exception], which [CancelledError] is not, so it leaves every loop
    and handler on its way up to [_timer_coro], which swallows it: the
    resolution stops where the first send suspended, and the state is
    what had been written until then.

    This module embeds the functions below [_resolve] a second time, as
    they run in such a task.  How far the sends get is not decided by
    the program; it is a parameter. *)

Module TimerTask.
Import Objects Protocol WorldM SessionM PairPanicking.

(** [None]: every send returns without suspending.  [Some k]: the next
    [k] sends do, and the one after suspends. *)
Definition Budget : Type := option nat.

(** How a coroutine ends: by returning, by the [CancelledError] (with
    the state at that point), or by another exception. *)
Inductive Outcome (C A : Type) :=
| Returned (a : A)
| CancelledError (c : C)
| Raised.
Arguments Returned {C A} a.
Arguments CancelledError {C A} c.
Arguments Raised {C A}.

Definition bind {C A B : Type} (o : Outcome C A) (k : A → Outcome C B)
  : Outcome C B :=
  match o with
  | Returned a => k a
  | CancelledError c => CancelledError c
  | Raised => Raised
  end.

(** A lookup that may raise [IndexError] or [KeyError]. *)
Definition lookup {C A : Type} (o : option A) : Outcome C A :=
  match o with Some a => Returned a | None => Raised end.

Fixpoint for_each {A X C : Type} (body : A → X → Outcome C X) (l : list A)
         (x : X) : Outcome C X :=
  match l with
  | [] => Returned x
  | a :: l' => bind (body a x) (for_each body l')
  end.

Section Task.
Context {P : Type}.

(** Whether the frame of the send that suspended had been written when
    it suspended. *)
Variable written : bool.

Abbreviation St := (PairPanickingPlugin * Env P)%type.

(** [await self.websocket.send(raw)] *)
Definition send (sid : string) (msg : Msg) (be : Budget * Env P)
  : Outcome (Env P) (Budget * Env P) :=
  let '(b, e) := be in
  match b with
  | None => Returned (None, SessionM.send sid msg e)
  | Some (S k) => Returned (Some k, SessionM.send sid msg e)
  | Some O => CancelledError (if written then SessionM.send sid msg e else e)
  end.

(** The cache is updated before the send is awaited. *)
Definition send_set (sid objid : string) (attrs : AttrDict)
           (be : Budget * Env P) : Outcome (Env P) (Budget * Env P) :=
  let '(b, e) := be in
  send sid (make_set objid attrs)
       (b, with_sessions (alter (cache_add objid) sid (sessions e)) e).

Definition send_hear (sid from_id to_id message : string)
           (be : Budget * Env P) : Outcome (Env P) (Budget * Env P) :=
  send sid (make_hear from_id to_id message) be.

Definition _broadcast_set (self : PairPanickingPlugin) (objid : string)
           (attrs : AttrDict) (be : Budget * Env P)
  : Outcome (Env P) (Budget * Env P) :=
  for_each (λ agent '(b, e),
              match sessions e !! Objects.objid (base agent) with
              | Some _ => send_set (Objects.objid (base agent)) objid attrs (b, e)
              | None => Returned (b, e)
              end)
           (get_agents_in_matrix (world be.2) (matrix_id self)) be.

Definition _broadcast_hear (self : PairPanickingPlugin)
           (from_id to_id message : string) (be : Budget * Env P)
  : Outcome (Env P) (Budget * Env P) :=
  for_each (λ agent '(b, e),
              match sessions e !! Objects.objid (base agent) with
              | Some _ =>
                  send_hear (Objects.objid (base agent)) from_id to_id message (b, e)
              | None => Returned (b, e)
              end)
           (get_agents_in_matrix (world be.2) (matrix_id self)) be.

(** A broadcast made by the plugin object [self]. *)
Definition of_plugin (self : PairPanickingPlugin)
           (o : Outcome (Env P) (Budget * Env P)) : Outcome St (Budget * St) :=
  match o with
  | Returned (b, e) => Returned (b, (self, e))
  | CancelledError e => CancelledError (self, e)
  | Raised => Raised
  end.

Definition _reveal_all (bst : Budget * St) : Outcome St (Budget * St) :=
  for_each
    (λ row,
       for_each
         (λ col '(b, (self, e)),
            bind (lookup (grid_get (state self) row col)) (λ cell,
            if is_hidden cell then
              bind (lookup (grid_get (token_grid self) row col)) (λ token_id,
              bind (lookup (grid_get (board self) row col)) (λ symbol,
              let image_id := default "" (symbol_images self !! symbol) in
              let e := on_world
                         (update_token token_id
                            (λ t, set_image image_id (set_name symbol t))) e in
              of_plugin self
                (_broadcast_set self token_id
                   (mkAttrs (Some symbol) None None None None None None
                            (Some image_id)) (b, e))))
            else Returned (b, (self, e))))
         (seq 0 GRID_COLS))
    (seq 0 GRID_ROWS) bst.

Definition _game_over (has_winner : bool) (bst : Budget * St)
  : Outcome St (Budget * St) :=
  let '(b, (self, e)) := bst in
  let self := with_game_in_progress false self in
  let mid := matrix_id self in
  bind
    (if has_winner then
       match Dict.max_key (scores self) with
       | Some winner_id =>
           if bool_decide (winner_id ≠ "") then
             let name := name_or_id e winner_id in
             bind (lookup (Dict.get winner_id (scores self))) (λ score,
             of_plugin self
               (_broadcast_hear self mid mid
                  ("Game Over! " +:+ name +:+ " wins with "
                     +:+ pretty score +:+ " points!") (b, e)))
           else of_plugin self (_broadcast_hear self mid mid "Game Over!" (b, e))
       | None => of_plugin self (_broadcast_hear self mid mid "Game Over!" (b, e))
       end
     else
       bind (of_plugin self
               (_broadcast_hear self mid mid
                  "Game Over! No active players remain." (b, e)))
            _reveal_all)
    (λ '(b, (self, e)),
       (* Enable restart button *)
       let e := on_world (update_token (restart_token_id self) (set_energy 1)) e in
       of_plugin self
         (_broadcast_set self (restart_token_id self) (energy_only 1) (b, e))).

Definition mark_solved (rc : nat * nat) (bst : Budget * St)
  : Outcome St (Budget * St) :=
  let '(b, (self, e)) := bst in
  let '(r, c) := rc in
  bind (lookup (grid_set (state self) r c Solved)) (λ state',
  let self := with_solved_count (solved_count self + 1) (with_state state' self) in
  bind (lookup (grid_get (token_grid self) r c)) (λ token_id,
  let e := on_world
             (update_token token_id
                (λ t, set_image ""
                        (set_energy 0
                           (set_fgcolor SOLVED_FGCOLOR
                              (set_bgcolor SOLVED_BGCOLOR
                                 (set_name SOLVED_NAME t)))))) e in
  of_plugin self (_broadcast_set self token_id solved_attrs (b, e)))).

Definition award (agent_id : string) (bst : Budget * St)
  : Outcome St (Budget * St) :=
  let '(b, (self, e)) := bst in
  bind (lookup (Dict.get agent_id (scores self))) (λ s,
  let bonus := if bool_decide (trigger_agent self = Some agent_id) then 4 else 0 in
  let s' := s + 2 + bonus in
  let self := with_scores (Dict.set agent_id s' (scores self)) self in
  let e := on_world (update_agent agent_id (set_energy s')) e in
  of_plugin self (_broadcast_set self agent_id (energy_only s') (b, e))).

Definition _handle_match (r1 c1 r2 c2 : nat) (bst : Budget * St)
  : Outcome St (Budget * St) :=
  (* Mark solved *)
  bind (for_each mark_solved [(r1, c1); (r2, c2)] bst) (λ bst,
  (* Award points: +2 all, +4 additional for trigger *)
  bind (for_each award (Dict.keys (scores bst.2.1)) bst) (λ '(b, (self, e)),
  bind (of_plugin self
          (_broadcast_hear self (matrix_id self) (matrix_id self)
             (trigger_name self e +:+ " found a match!") (b, e)))
       (λ '(b, (self, e)),
  (* Check win condition *)
  if bool_decide (TOTAL_SQUARES ≤ solved_count self)
  then _game_over true (b, (self, e))
  else Returned (b, (self, e))))).

Definition mark_hidden (rc : nat * nat) (bst : Budget * St)
  : Outcome St (Budget * St) :=
  let '(b, (self, e)) := bst in
  let '(r, c) := rc in
  bind (lookup (grid_set (state self) r c Hidden)) (λ state',
  let self := with_state state' self in
  bind (lookup (grid_get (token_grid self) r c)) (λ token_id,
  let e := on_world
             (update_token token_id
                (λ t, set_image (hidden_image_id self)
                        (set_fgcolor HIDDEN_FGCOLOR
                           (set_bgcolor HIDDEN_BGCOLOR
                              (set_name HIDDEN_NAME t))))) e in
  of_plugin self (_broadcast_set self token_id (hidden_attrs self) (b, e)))).

(** One iteration of the deduction loop; the first component collects
    [newly_inactive]. *)
Definition deduct (agent_id : string) (acc : list string * (Budget * St))
  : Outcome St (list string * (Budget * St)) :=
  let '(newly_inactive, (b, (self, e))) := acc in
  bind (lookup (Dict.get agent_id (scores self))) (λ s,
  if bool_decide (s ≤ 0) then Returned acc  (* already inactive *)
  else
    let penalty := if bool_decide (trigger_agent self = Some agent_id) then 2 else 1 in
    let s' := s - penalty in
    let self := with_scores (Dict.set agent_id s' (scores self)) self in
    let e := on_world (update_agent agent_id (set_energy s')) e in
    bind (of_plugin self (_broadcast_set self agent_id (energy_only s') (b, e)))
         (λ bst,
            Returned (if bool_decide (s' ≤ 0) then newly_inactive ++ [agent_id]
                      else newly_inactive, bst))).

Definition _handle_mismatch (r1 c1 r2 c2 : nat) (bst : Budget * St)
  : Outcome St (Budget * St) :=
  bind (for_each mark_hidden [(r1, c1); (r2, c2)] bst) (λ bst,
  (* Deduct points: -1 all active, -1 additional for trigger *)
  bind (for_each deduct (Dict.keys (scores bst.2.1)) ([], bst))
       (λ '(newly_inactive, (b, (self, e))),
  bind (of_plugin self
          (for_each
             (λ agent_id '(b, e),
                _broadcast_hear self (matrix_id self) (matrix_id self)
                  (name_or_id e agent_id +:+ " has been eliminated!") (b, e))
             newly_inactive (b, e)))
       (λ '(b, (self, e)),
  (* Check if all active players eliminated *)
  if bool_decide (active self = []) && game_in_progress self
  then _game_over false (b, (self, e))
  else Returned (b, (self, e))))).

(** [_resolve], running in the task that [self.timer_task] names when
    that timer is running. *)
Definition _resolve (bst : Budget * St) : Outcome St (Budget * St) :=
  let '(b, st) := bst in
  (* Cancel timer if running *)
  let '(self, e) := cancel_timer st in
  match showing self with
  | (r1, c1) :: (r2, c2) :: _ =>
      let self := with_showing [] self in
      bind (lookup (grid_get (board self) r1 c1)) (λ sym1,
      bind (lookup (grid_get (board self) r2 c2)) (λ sym2,
      if bool_decide (sym1 = sym2)
      then _handle_match r1 c1 r2 c2 (b, (self, e))
      else _handle_mismatch r1 c1 r2 c2 (b, (self, e))))
  | _ => Returned (b, (self, e))
  end.

(** The end of a task that was not cancelled. *)
Definition finish_task (h : nat) (e : Env P) : Env P :=
  match tasks e !! h with
  | Some Pending => with_tasks (<[h := Finished]> (tasks e)) e
  | _ => e
  end.

(** The timer coroutine, entered when the event loop wakes task [h].
    A task cancelled during its sleep receives [CancelledError] there,
    which is swallowed.  Otherwise the sleep returns and [_resolve]
    runs.  If [self.timer_task] is this very task and not done,
    [_resolve] cancels the task it runs in: the resolution goes as far
    as the first send that suspends, the [CancelledError] raised there
    is swallowed here and the task ends normally; if no send suspends
    the resolution runs to its end and the task ends cancelled.  If
    [self.timer_task] is not this task, nothing cancels it. *)
Definition _timer_coro (h : nat) (b : Budget) (st : St) : option St :=
  match tasks st.2 !! h with
  | Some Pending =>
      if bool_decide (timer_running st.1 st.2 = Some h) then
        match _resolve (b, st) with
        | Returned (_, st') => Some st'
        | CancelledError (self, e) =>
            Some (self, with_tasks (<[h := Finished]> (tasks e)) e)
        | Raised => None
        end
      else
        '(self, e) ← PairPanicking._resolve st;
        Some (self, finish_task h e)
  | _ => Some st
  end.

End Task.
End TimerTask.


(* ===================================================================== *)
(** * server/games/home.py *)
(* ===================================================================== *)

Module Home.
Import Objects Protocol WorldM SessionM.

Record HomePlugin := mkHome {
  matrix_id : string;
  pp_token_id : string;
  nav_tokens : gmap string string
}.

Definition new (matrix_id : string) : HomePlugin := mkHome matrix_id "" ∅.

Section Plugin.
Context {P : Type}.

Definition initialize (self : HomePlugin) (e : Env P) : HomePlugin * Env P :=
    match get_matrix (world e) (matrix_id self) with
    | None => (self, e)
    | Some _ =>
        let '(pp_token, w) :=
          create_token "PairPanicking" 1 1 1
            (mkAttrs None (Some "Click to play PairPanicking!") None
                     (Some "ff2255aa") (Some "ffffffff") None None None)
            (world e) in
        let w := place_in_matrix (objid pp_token) (matrix_id self) w in
        (mkHome (matrix_id self) (objid pp_token) (nav_tokens self),
         with_world w e)
    end.

Definition register_nav_token (token_id target_matrix_id : string)
             (self : HomePlugin) : HomePlugin :=
    mkHome (matrix_id self) (pp_token_id self)
           (<[token_id := target_matrix_id]> (nav_tokens self)).

  (** Enter and leave share one loop, differing in the announcement. *)
Definition announce (self : HomePlugin) (agent_id suffix : string) (e : Env P)
    : Env P :=
    match get_agent (world e) agent_id with
    | None => e
    | Some agent =>
        foldl (λ e other,
                 let oid := objid (base other) in
                 if bool_decide (oid ≠ agent_id) then
                   match sessions e !! oid with
                   | Some _ => send_hear oid (matrix_id self) oid
                                 (name agent +:+ suffix) e
                   | None => e
                   end
                 else e)
              e (get_agents_in_matrix (world e) (matrix_id self))
    end.

Definition on_agent_enter (self : HomePlugin) (session agent_id : string)
             (e : Env P) : Env P :=
    announce self agent_id " has entered the lobby." e.

Definition on_agent_leave (self : HomePlugin) (session agent_id : string)
             (e : Env P) : Env P :=
    announce self agent_id " has left the lobby." e.

(** The server behind [session._server]. *)
Variable move_agent_to_matrix : string → string → string → Env P → option (Env P).

(** A click on a registered navigation token transfers the agent.  The
    attribute [_server] always exists; calling through an unset one
    raises. *)
Definition on_click (self : HomePlugin) (session agent_id token_id : string)
  (e : Env P) : option (Env P) :=
  match nav_tokens self !! token_id with
  | Some target =>
      if bool_decide (target ≠ "") then
        match sessions e !! session with
        | Some s => if _server s
                    then move_agent_to_matrix session agent_id target e
                    else None
        | None => None
        end
      else Some e
  | None => Some e
  end.

End Plugin.
End Home.

(* ===================================================================== *)
(** * server/server.py *)
(* ===================================================================== *)

Module Server.
Import Objects Protocol WorldM SessionM.

(** The plugins of this repository.  A registered plugin is a mutable
    object: a hook reads it from the registry and its new state is
    written back under the same matrix id. *)
Inductive Plugin :=
| HomeP (h : Home.HomePlugin)
| PairP (p : PairPanicking.PairPanickingPlugin).

Abbreviation State := (Env Plugin).

Definition store_plugin (matrix_id : string) (p : Plugin) (e : State) : State :=
  on_world (with_game_plugins (<[matrix_id := p]> (game_plugins (world e)))) e.

(** [plugin = self.world.get_plugin(m); if plugin: await plugin.on_agent_leave(...)] *)
Definition plugin_on_agent_leave (matrix_id session agent_id : string)
           (e : State) : option State :=
  match get_plugin (world e) matrix_id with
  | None => Some e
  | Some (HomeP h) => Some (Home.on_agent_leave h session agent_id e)
  | Some (PairP p) =>
      '(p', e') ← PairPanicking.on_agent_leave session agent_id (p, e);
      Some (store_plugin matrix_id (PairP p') e')
  end.

Definition plugin_on_agent_enter (matrix_id session agent_id : string)
           (e : State) : State :=
  match get_plugin (world e) matrix_id with
  | None => e
  | Some (HomeP h) => Home.on_agent_enter h session agent_id e
  | Some (PairP p) =>
      let '(p', e') := PairPanicking.on_agent_enter session agent_id (p, e) in
      store_plugin matrix_id (PairP p') e'
  end.

(** [agent.container_matrix] of the Agent named [agent_id], if any. *)
Definition agent_container (e : State) (agent_id : string) : option string :=
  match objects (world e) !! agent_id with
  | Some (Agent _ c) => Some c
  | _ => None
  end.

Definition exit_attrs : AttrDict :=
  mkAttrs None None None None None (Some (-1)) None None.

(** [for other in get_agents_in_matrix(m): s = sessions.get(other.objid);
     if s: await s.send_set(agent_id, x=-1)] *)
Definition notify_exit (matrix_id agent_id : string) (e : State) : State :=
  foldl (λ e other,
           match sessions e !! objid (base other) with
           | Some _ => send_set (objid (base other)) agent_id exit_attrs e
           | None => e
           end)
        e (get_agents_in_matrix (world e) matrix_id).

Definition _place_agent_in_matrix (session agent_id matrix_id : string)
           (e : State) : option State :=
  match get_agent (world e) agent_id, agent_container e agent_id with
  | Some agent, Some old_matrix =>
      (* Remove from old matrix if any *)
      e ← (if bool_decide (old_matrix ≠ "") then
             let e := on_world (λ w, (remove_from_matrix agent_id w).2) e in
             let e := notify_exit old_matrix agent_id e in
             plugin_on_agent_leave old_matrix session agent_id e
           else Some e);
      (* Place in new matrix *)
      let e := on_world (place_in_matrix agent_id matrix_id) e in
      (* Send full matrix state to the moving agent *)
      let e := send_matrix_state session matrix_id e in
      (* Notify agents already in the new matrix about the new arrival *)
      let e := foldl (λ e other,
                        let oid := objid (base other) in
                        if bool_decide (oid ≠ agent_id) then
                          match sessions e !! oid with
                          | Some _ => send_full_object oid agent e
                          | None => e
                          end
                        else e)
                     e (get_agents_in_matrix (world e) matrix_id) in
      (* Notify game plugin *)
      Some (plugin_on_agent_enter matrix_id session agent_id e)
  | _, _ => Some e
  end.

Definition _remove_agent (session agent_id : string) (e : State) : option State :=
  match agent_container e agent_id with
  | None => Some e
  | Some matrix_id =>
      (* Notify plugin *)
      e ← (if bool_decide (matrix_id ≠ "")
           then plugin_on_agent_leave matrix_id session agent_id e
           else Some e);
      (* Remove from matrix, notify peers *)
      let e := if bool_decide (matrix_id ≠ "") then
                 notify_exit matrix_id agent_id
                   (on_world (λ w, (remove_from_matrix agent_id w).2) e)
               else e in
      (* Send logged-out if possible *)
      let e := send_logged_out session "Goodbye!" e in
      (* Remove from sessions *)
      Some (with_sessions (delete agent_id (sessions e)) e)
  end.

(** [move_agent_to_matrix], as reached from a hook of the plugin object
    [self]: the object is the one registered under its matrix id. *)
Definition move_agent_to_matrix_from
  (session agent_id target_matrix_id : string)
  (st : PairPanicking.PairPanickingPlugin * State)
  : option (PairPanicking.PairPanickingPlugin * State) :=
  let '(self, e) := st in
  let mid := PairPanicking.matrix_id self in
  e ← _place_agent_in_matrix session agent_id target_matrix_id
        (store_plugin mid (PairP self) e);
  match get_plugin (world e) mid with
  | Some (PairP self') => Some (self', e)
  | _ => Some (self, e)
  end.

(** [symbols] is the outcome of [random.shuffle], should the click
    restart a game. *)
Definition _handle_click (home_matrix_id : string) (symbols : list string)
  (session agent_id token_id matrix_id : string) (e : State) : option State :=
  (* Validate: must be a token type *)
  if bool_decide (token_id = "") || negb (String.eqb (obj_type token_id) "t")
  then Some e
  else
    (* Check token exists and is in same matrix *)
    match objects (world e) !! token_id with
    | Some (Token token c) =>
        if bool_decide (c ≠ matrix_id) then Some e
        else if bool_decide (energy token ≤ 0) then Some e
        else
          match get_plugin (world e) matrix_id with
          | Some (PairP p) =>
              '(p', e') ← PairPanicking.on_click move_agent_to_matrix_from
                            home_matrix_id symbols session agent_id token_id (p, e);
              Some (store_plugin matrix_id (PairP p') e')
          | Some (HomeP h) =>
              Home.on_click _place_agent_in_matrix h session agent_id token_id e
          | None => Some e
          end
    | _ => Some e
    end.

(** The accepting branch of [_handle_login]. *)
Definition accept_login (server_name user remote_addr : string) (e : State)
  : string * State :=
  let '(agent, w) := create_agent user remote_addr 10 (world e) in
  let session := mkSession (objid agent) ∅ None true true in
  let e := with_sessions (<[objid agent := session]> (sessions e))
             (with_world w e) in
  (objid agent,
   send_logged_in (objid agent)
     ("Welcome to " +:+ server_name +:+ ", " +:+ user +:+ "!")
     (Some (objid agent)) e).

End Server.

(* ===================================================================== *)
(** * server/main.py *)
(* ===================================================================== *)

Module Main.
Import Objects Protocol WorldM SessionM Server.

(** [setup_world]: the home matrix and the PairPanicking matrix with
    their plugins.  Returns the home matrix id and the state. *)
Definition setup_world (files : string → option string) (symbols : list string)
  : option (string * State) :=
  let e : State := mkEnv init ∅ [] [] in
  let '(home, w) :=
    create_matrix "Home" 4 4
      (mkAttrs None (Some "Welcome to TileNet! Choose a game to play.") None
               (Some "ff1a1a2e") (Some "ffffffff") None None None)
      (world e) in
  let home_plugin := Home.new (objid home) in
  let w := register_plugin (objid home) (HomeP home_plugin) w in
  let '(pp_matrix, w) :=
    create_matrix "PairPanicking" 9 8
      (mkAttrs None (Some "PairPanicking - A multiplayer memory game!") None
               (Some "ff0a0a1a") (Some "ffffffff") None None None)
      w in
  let pp_plugin := PairPanicking.new (objid pp_matrix) in
  let w := register_plugin (objid pp_matrix) (PairP pp_plugin) w in
  let '(home_plugin, e) := Home.initialize home_plugin (with_world w e) in
  '(pp_plugin, e) ← PairPanicking.initialize files symbols (pp_plugin, e);
  let home_plugin :=
    Home.register_nav_token (Home.pp_token_id home_plugin) (objid pp_matrix)
      home_plugin in
  Some (objid home,
        store_plugin (objid pp_matrix) (PairP pp_plugin)
          (store_plugin (objid home) (HomeP home_plugin) e)).

End Main.

(* ===================================================================== *)
(** * Concrete runs used as test inputs *)
(* ===================================================================== *)

Module Scenario.
Import Objects Protocol WorldM SessionM Server.

(** No image files on disk; the deck left in its initial order, so that
    rows alternate between the first and the last eight symbols. *)
Definition no_files : string → option string := λ _, None.
Definition deck : list string :=
  concat (replicate PairPanicking.COPIES_PER_SYMBOL PairPanicking.SYMBOLS).

Definition server_name : string := "TileNet Python Server".

(** Log a user in and place the new agent in the home matrix "m1". *)
Definition join (user : string) (e : State) : option State :=
  let '(agent_id, e) := accept_login server_name user "unknown" e in
  _place_agent_in_matrix agent_id agent_id "m1" e.

(** Click a token as the agent's command loop would. *)
Definition click (agent_id token_id : string) (e : State) : option State :=
  match agent_container e agent_id with
  | Some matrix_id =>
      if bool_decide (matrix_id ≠ "")
      then _handle_click "m1" deck agent_id agent_id token_id matrix_id e
      else Some e
  | None => Some e
  end.

(** The server after start-up. *)
Definition started : option State := snd <$> Main.setup_world no_files deck.

(** bob ("a1") and eve ("a2") have logged in; both are in the lobby. *)
Definition lobby : option State :=
  e ← started; e ← join "bob" e; join "eve" e.

(** Both have clicked the lobby's PairPanicking token "t1". *)
Definition in_game : option State :=
  e ← lobby; e ← click "a1" "t1" e; click "a2" "t1" e.

(** The PairPanicking plugin object registered under "m2". *)
Definition the_game (e : State) : option PairPanicking.PairPanickingPlugin :=
  match get_plugin (world e) "m2" with
  | Some (PairP p) => Some p
  | _ => None
  end.

(** The plugin and its environment after [in_game]. *)
Definition playing : option (PairPanicking.PairPanickingPlugin * State) :=
  e ← in_game; p ← the_game e; Some (p, e).

Definition env_of (oe : option State) : State :=
  default (mkEnv init ∅ [] []) oe.
Definition game_of (oe : option State) : PairPanicking.PairPanickingPlugin :=
  default (PairPanicking.new "m2") (e ← oe; the_game e).

Definition game_env : State := env_of in_game.
Definition game : PairPanicking.PairPanickingPlugin := game_of in_game.

Definition clicks (agent_id : string) (token_ids : list string) (e : State)
  : option State :=
  for_each (click agent_id) token_ids e.

(** bob has turned over square (0,0) and eve square (2,0), both "beer":
    a pair is showing, eve is its trigger and its timer is pending. *)
Definition pair_showing : option State :=
  e ← in_game; e ← click "a1" "t2" e; click "a2" "t18" e.
Definition pair_env : State := env_of pair_showing.
Definition pair_game : PairPanicking.PairPanickingPlugin := game_of pair_showing.

(** bob alone has turned over eleven squares of the first two rows, no
    two alike: five mismatches of his own making have cost him ten
    points and eve five. *)
Definition bob_out : option State :=
  e ← in_game;
  clicks "a1" ["t2"; "t3"; "t4"; "t5"; "t6"; "t7"; "t8"; "t9"; "t10"; "t11"; "t12"] e.
Definition bob_out_env : State := env_of bob_out.
Definition bob_out_game : PairPanicking.PairPanickingPlugin := game_of bob_out.

(** After [bob_out], eve has turned over square (1,3): it shows next to
    bob's last square (1,2), and the pair's timer is pending. *)
Definition two_showing : option State :=
  e ← bob_out; click "a2" "t13" e.
Definition two_showing_env : State := env_of two_showing.
Definition two_showing_game : PairPanicking.PairPanickingPlugin :=
  game_of two_showing.

End Scenario.

(* ===================================================================== *)
(** * Properties of the protocol codec *)
(* ===================================================================== *)

Module ProtocolProps.
Import Objects Protocol.

(** The documented id format: a type character followed by a positive
    integer written in (ASCII) decimal digits. *)
Definition all_digits (s : pystr) : bool := forallb is_digit s.

Fixpoint decimal_from (acc : Z) (s : pystr) : Z :=
  match s with
  | [] => acc
  | c :: s' => decimal_from (10 * acc + digit_value c) s'
  end.

Definition decimal_value (s : pystr) : Z := decimal_from 0 s.

Definition positive_decimal (s : pystr) : bool :=
  negb (bool_decide (s = [])) && all_digits s && (0 <? decimal_value s).

(** The code point of a type code. *)
Definition type_code (t : ObjType) : N := N_of_ascii (type_char t).

(** The conditions under which the source raises. *)
Definition rejected (I : Interpreter) (s : pystr) : Prop :=
  (length s < 2)%nat ∨
  ∃ c rest, s = c :: rest ∧ (valid_type_code c = false ∨ py_int I rest = None).

(** An interpreter with the default digit limit whose Unicode database
    is cut down to ASCII; on ASCII strings every interpreter with that
    limit agrees with it. *)
Definition ascii_interpreter : Interpreter := mkInterpreter (λ _, None) 4300.

Lemma is_digit_ascii c : is_digit c = true → (c <? 128)%N = true.
Proof.
  unfold is_digit. intros [_ H]%andb_true_iff. apply N.leb_le in H.
  apply N.ltb_lt. lia.
Qed.

Lemma is_digit_not_space c : is_digit c = true → Py_ISSPACE c = false.
Proof.
  unfold is_digit, Py_ISSPACE. intros [H1 H2]%andb_true_iff.
  apply N.leb_le in H1. apply N.leb_le in H2.
  repeat match goal with
         | |- context [(?a <=? ?b)%N] => destruct (N.leb_spec a b)
         | |- context [(?a =? ?b)%N] => destruct (N.eqb_spec a b)
         end; simpl; try reflexivity; lia.
Qed.

Lemma all_digits_ascii s :
  all_digits s = true → forallb (λ ch, ch <? 128)%N s = true.
Proof.
  induction s as [|c s IH]; simpl; [done|].
  intros [Hc Hs]%andb_true_iff. by rewrite (is_digit_ascii c Hc), IH.
Qed.

Lemma transform_digits I s : all_digits s = true → transform I s = s.
Proof. intros H. unfold transform. by rewrite all_digits_ascii. Qed.

Lemma lstrip_digits s : all_digits s = true → lstrip s = s.
Proof.
  destruct s as [|c s]; simpl; [done|].
  intros [Hc _]%andb_true_iff. by rewrite (is_digit_not_space _ Hc).
Qed.

Lemma scan_all_digits s acc n :
  all_digits s = true →
  scan acc n false s = Some (decimal_from acc s, (n + length s)%nat, []).
Proof.
  revert acc n. induction s as [|c s IH]; intros acc n H; simpl in *.
  - by rewrite Nat.add_0_r.
  - apply andb_true_iff in H as [Hc Hs]. rewrite Hc, IH by done.
    do 3 f_equal. lia.
Qed.

Lemma is_digit_not_sign c : is_digit c = true → c ≠ 45%N ∧ c ≠ 43%N.
Proof. intros H; split; intros ->; discriminate H. Qed.

Lemma int_body_all_digits I s :
  s ≠ [] → all_digits s = true → exceeds_limit I (length s) = false →
  int_body I s = Some (decimal_value s).
Proof.
  intros Hne H Hlim. destruct s as [|c s]; [done|].
  pose proof H as H'. simpl in H'. apply andb_true_iff in H' as [Hc _].
  unfold int_body. rewrite Hc, scan_all_digits by done.
  cbn [mbind option_bind]. rewrite Nat.add_0_l, Hlim. done.
Qed.

Lemma py_int_all_digits I s :
  s ≠ [] → all_digits s = true → exceeds_limit I (length s) = false →
  py_int I s = Some (decimal_value s).
Proof.
  intros Hne H Hlim. unfold py_int.
  rewrite transform_digits, lstrip_digits by done.
  pose proof (int_body_all_digits I s Hne H Hlim) as Hb.
  destruct s as [|c s]; [done|].
  pose proof H as H'. simpl in H'. apply andb_true_iff in H' as [Hc _].
  destruct (is_digit_not_sign c Hc) as [Hm Hp].
  destruct (decide (c = 45%N)); [done|].
  destruct (decide (c = 43%N)); [done|].
  destruct c as [|p]; [exact Hb|].
  do 6 (destruct p as [p|p|]; try exact Hb); done.
Qed.

(** C7, as stated, fails: [parse_objid] succeeds on strings whose suffix
    is not a positive decimal integer.  The suffix "-5" is accepted and
    yields -5, and "0" yields 0, because the suffix is handed to the
    builtin integer conversion. *)
Lemma parse_objid_accepts_nonpositive :
  parse_objid ascii_interpreter (code_points "m-5") = inr (code_points "m", -5) ∧
  positive_decimal (code_points "-5") = false ∧
  parse_objid ascii_interpreter (code_points "m0") = inr (code_points "m", 0) ∧
  positive_decimal (code_points "0") = false.
Proof. split_and!; reflexivity. Qed.

(** C7, amended: [parse_objid] raises exactly when the string has fewer
    than two characters, or its first character is not one of m, a, t,
    k, i, or the builtin integer conversion rejects the suffix; and on
    every string of the documented format (a type character followed by
    the decimal digits of a positive integer, no more of them than the
    interpreter's limit allows) it returns the type character and that
    integer. *)
Theorem parse_objid_spec (I : Interpreter) (s : pystr) :
  ((∃ err, parse_objid I s = inl err) ↔ rejected I s) ∧
  (∀ t rest, s = type_code t :: rest → positive_decimal rest = true →
             exceeds_limit I (length rest) = false →
             parse_objid I s = inr ([type_code t], decimal_value rest)).
Proof.
  split.
  - unfold rejected. destruct s as [|c [|d rest]].
    + split; [intros _; left; simpl; lia | intros _; by eexists].
    + split; [intros _; left; simpl; lia | intros _; by eexists].
    + unfold parse_objid.
      rewrite bool_decide_eq_false_2 by done.
      replace (length (c :: d :: rest) <? 2)%nat with false
        by (symmetry; apply Nat.ltb_ge; simpl; lia).
      simpl orb. cbv iota.
      destruct (valid_type_code c) eqn:Hv; simpl negb; cbv iota.
      * destruct (py_int I (d :: rest)) as [num|] eqn:Hi.
        -- split; [intros [err Herr]; discriminate Herr|].
           intros [Hl | (c' & rest' & Heq & [Hc | Hp])].
           ++ simpl in Hl; lia.
           ++ injection Heq as <- <-. congruence.
           ++ injection Heq as <- <-. congruence.
        -- split; [|intros _; by eexists].
           intros _. right. exists c, (d :: rest). auto.
      * split; [|intros _; by eexists].
        intros _. right. exists c, (d :: rest). auto.
  - intros t rest -> Hpos Hlim. unfold positive_decimal in Hpos.
    apply andb_true_iff in Hpos as [Hpos _].
    apply andb_true_iff in Hpos as [Hne Hd].
    assert (rest ≠ []) as Hne'.
    { intros ->. discriminate Hne. }
    destruct rest as [|d rest]; [done|].
    unfold parse_objid.
    rewrite bool_decide_eq_false_2 by done.
    replace (length (type_code t :: d :: rest) <? 2)%nat
      with false by (symmetry; apply Nat.ltb_ge; simpl; lia).
    simpl orb. cbv iota.
    replace (valid_type_code (type_code t)) with true by by destruct t.
    simpl negb. cbv iota.
    by rewrite (py_int_all_digits _ _ Hne' Hd Hlim).
Qed.

Lemma parse_objid_spec_witness :
  parse_objid ascii_interpreter (code_points "t42") = inr (code_points "t", 42).
Proof.
  exact (proj2 (parse_objid_spec ascii_interpreter (code_points "t42"))
               OBJ_TOKEN (code_points "42") eq_refl eq_refl eq_refl).
Defined.

End ProtocolProps.

(* ===================================================================== *)
(** * Properties of the World *)
(* ===================================================================== *)

Module WorldProps.
Import Objects Protocol WorldM.

Section Containment.
Context {P : Type}.
Implicit Types (w : World P) (op : @WorldOp P).

  (** ** Object ids are fresh *)

Lemma type_char_inj t t' : type_char t = type_char t' → t = t'.
Proof. by destruct t, t'. Qed.

Lemma format_objid_inj t n t' n' :
    format_objid t n = format_objid t' n' → t = t' ∧ n = n'.
Proof.
    unfold format_objid. intros [= Hc Hn].
    split; [by apply type_char_inj | by apply (inj pretty)].
Qed.

Lemma next_get_set t t' v n :
    next_get t (next_set t' v n) = if decide (t = t') then v else next_get t n.
Proof. by destruct t, t'. Qed.

  (** Every key of the object table and of the reverse index was handed
      out by [new_objid]; reverse-index keys name matrices. *)
Definition ids_wf w : Prop :=
    (∀ k, is_Some (objects w !! k) →
          ∃ t n, k = format_objid t n ∧ n < next_get t (next_ids w)) ∧
    (∀ m, is_Some (matrix_contents w !! m) →
          ∃ n, m = format_objid OBJ_MATRIX n
               ∧ n < next_get OBJ_MATRIX (next_ids w)).

Lemma ids_wf_init : ids_wf (@init P).
Proof.
    split; intros k [x Hx]; simpl in Hx; by rewrite lookup_empty in Hx.
Qed.

Lemma new_objid_fresh t w :
    ids_wf w →
    objects w !! (new_objid t w).1 = None ∧
    matrix_contents w !! (new_objid t w).1 = None.
Proof.
    intros [Ho Hm]. simpl. split.
    - destruct (objects w !! _) eqn:E; [|done].
      destruct (Ho _ (mk_is_Some _ _ E)) as (t' & n & Heq & Hlt).
      apply format_objid_inj in Heq as [<- <-]. lia.
    - destruct (matrix_contents w !! _) eqn:E; [|done].
      destruct (Hm _ (mk_is_Some _ _ E)) as (n & Heq & Hlt).
      apply format_objid_inj in Heq as [-> <-]. lia.
Qed.

  (** What a creation does to the tables. *)
Definition creates (t : ObjType) (obj : WorldObject) w w' : Prop :=
    let k := (new_objid t w).1 in
    objects w' = <[k := obj]> (objects w) ∧
    next_ids w' = next_set t (next_get t (next_ids w) + 1) (next_ids w) ∧
    matrix_contents w' =
      (if is_matrix obj then <[k := ∅]> (matrix_contents w)
       else matrix_contents w) ∧
    game_plugins w' = game_plugins w.

Lemma creates_ids_wf t obj w w' :
    creates t obj w w' → (is_matrix obj → t = OBJ_MATRIX) → ids_wf w → ids_wf w'.
Proof.
    intros (Ho & Hn & Hm & _) Ht [Wo Wm]. split.
    - intros k. rewrite Ho, Hn. intros Hk.
      apply lookup_insert_is_Some in Hk as [<- | [Hne Hk]].
      + exists t, (next_get t (next_ids w)). split; [done|].
        rewrite next_get_set. rewrite decide_True by done. lia.
      + destruct (Wo _ Hk) as (t' & n & -> & Hlt). exists t', n. split; [done|].
        rewrite next_get_set. case_decide; [subst; lia | done].
    - intros m. rewrite Hm, Hn. intros Hk.
      assert (is_Some (matrix_contents w !! m) ∨
              (is_matrix obj ∧ m = (new_objid t w).1)) as [Hk' | [Hmat ->]].
      { destruct (is_matrix obj); [|by left].
        apply lookup_insert_is_Some in Hk as [<- | [_ Hk]]; [right|left]; done. }
      + destruct (Wm _ Hk') as (n & -> & Hlt). exists n. split; [done|].
        rewrite next_get_set. case_decide; [subst; lia | done].
      + rewrite (Ht Hmat). exists (next_get OBJ_MATRIX (next_ids w)).
        split; [done|]. rewrite next_get_set, decide_True by done. lia.
Qed.

Lemma create_matrix_creates n c r a w :
    ∃ o, creates OBJ_MATRIX (Matrix o) w (create_matrix n c r a w).2.
Proof. eexists. by repeat split. Qed.
Lemma create_agent_creates n t e w :
    ∃ o, creates OBJ_AGENT (Agent o "") w (create_agent n t e w).2.
Proof. eexists. by repeat split. Qed.
Lemma create_token_creates n x y e a w :
    ∃ o, creates OBJ_TOKEN (Token o "") w (create_token n x y e a w).2.
Proof. eexists. by repeat split. Qed.
Lemma create_key_creates n a w :
    ∃ o, creates OBJ_KEY (Key o "") w (create_key n a w).2.
Proof. eexists. by repeat split. Qed.
Lemma create_image_creates h x y w :
    ∃ o, creates OBJ_IMAGE (ImageObj o) w (create_image h x y w).2.
Proof. eexists. by repeat split. Qed.


  (** ** The reverse index under placement and removal *)

Lemma listed_in_discard old o' o w m :
    listed_in (discard_from old o' w) o m ↔
    listed_in w o m ∧ ¬ (m = old ∧ o = o').
Proof.
    unfold listed_in, discard_from. simpl. split.
    - intros (s & Hs & Ho). apply lookup_alter_Some in Hs
        as [(-> & s' & Hs' & ->) | [Hne Hs]].
      + apply elem_of_difference in Ho as [Ho Hn].
        split; [by eauto|]. intros [_ ->]. apply Hn. by apply elem_of_singleton.
      + split; [by eauto|]. intros [-> _]. done.
    - intros [(s & Hs & Ho) Hn]. destruct (decide (m = old)) as [->|Hne].
      + exists (s ∖ {[o']}). rewrite lookup_alter_eq, Hs. split; [done|].
        apply elem_of_difference. split; [done|].
        intros ->%elem_of_singleton. by apply Hn.
      + exists s. by rewrite lookup_alter_ne.
Qed.

Lemma discard_from_dom old o' w m :
    is_Some (matrix_contents (discard_from old o' w) !! m) ↔
    is_Some (matrix_contents w !! m).
Proof. unfold discard_from. simpl. apply lookup_alter_is_Some. Qed.

  (** The world after the first step of [place_in_matrix]. *)
Definition unlinked (objid : string) w : World P :=
    match objects w !! objid ≫= container_matrix with
    | Some old => if bool_decide (old ≠ "") then discard_from old objid w else w
    | None => w
    end.

Lemma place_in_matrix_contents o' m' w :
    matrix_contents (place_in_matrix o' m' w) =
    match matrix_contents (unlinked o' w) !! m' with
    | Some s => <[m' := s ∪ {[o']}]> (matrix_contents (unlinked o' w))
    | None => matrix_contents (unlinked o' w)
    end.
Proof.
    unfold place_in_matrix. fold (unlinked o' w).
    destruct (matrix_contents (unlinked o' w) !! m');
      (destruct (objects w !! o') as [obj|];
       [destruct (container_matrix obj)|]); simpl; congruence.
Qed.

Lemma place_in_matrix_objects o' m' w :
    objects (place_in_matrix o' m' w) =
    match objects w !! o' with
    | Some obj => match container_matrix obj with
                  | Some _ => <[o' := set_container_matrix m' obj]> (objects w)
                  | None => objects w
                  end
    | None => objects w
    end.
Proof.
    unfold place_in_matrix. fold (unlinked o' w).
    assert (objects (unlinked o' w) = objects w) as Hu.
    { unfold unlinked. destruct (_ ≫= _); [|done]. by case_bool_decide. }
    destruct (matrix_contents (unlinked o' w) !! m');
      (destruct (objects w !! o') as [obj|];
       [destruct (container_matrix obj)|]); simpl; congruence.
Qed.

Lemma place_in_matrix_next_ids o' m' w :
    next_ids (place_in_matrix o' m' w) = next_ids w.
Proof.
    unfold place_in_matrix. fold (unlinked o' w).
    assert (next_ids (unlinked o' w) = next_ids w) as Hu.
    { unfold unlinked. destruct (_ ≫= _); [|done]. by case_bool_decide. }
    destruct (matrix_contents (unlinked o' w) !! m');
      (destruct (objects w !! o') as [obj|];
       [destruct (container_matrix obj)|]); simpl; congruence.
Qed.

Lemma unlinked_listed o' o w m :
    listed_in (unlinked o' w) o m → listed_in w o m.
Proof.
    unfold unlinked. destruct (_ ≫= _); [|done].
    case_bool_decide; [|done]. by intros [? _]%listed_in_discard.
Qed.

Lemma unlinked_listed_ne o' o w m :
    o ≠ o' → listed_in (unlinked o' w) o m ↔ listed_in w o m.
Proof.
    intros Hne. unfold unlinked. destruct (_ ≫= _); [|done].
    case_bool_decide; [|done]. rewrite listed_in_discard.
    split; [by intros [? _] | intros Hl; split; [done | by intros [_ ?]]].
Qed.

Lemma unlinked_dom o' w m :
    is_Some (matrix_contents (unlinked o' w) !! m) ↔
    is_Some (matrix_contents w !! m).
Proof.
    unfold unlinked. destruct (_ ≫= _); [|done].
    case_bool_decide; [|done]. apply discard_from_dom.
Qed.

Lemma place_in_matrix_listed o' m' o w m :
    listed_in (place_in_matrix o' m' w) o m ↔
    listed_in (unlinked o' w) o m ∨
    (o = o' ∧ m = m' ∧ is_Some (matrix_contents w !! m')).
Proof.
    unfold listed_in at 1. rewrite place_in_matrix_contents.
    rewrite <-(unlinked_dom o' w m').
    destruct (matrix_contents (unlinked o' w) !! m') as [s'|] eqn:E.
    - split.
      + intros (s & Hs & Ho). apply lookup_insert_Some in Hs
          as [[<- <-] | [Hne Hs]].
        * apply elem_of_union in Ho as [Ho | ->%elem_of_singleton].
          -- left. by exists s'.
          -- right. eauto.
        * left. by exists s.
      + intros [(s & Hs & Ho) | (-> & -> & _)].
        * destruct (decide (m = m')) as [->|Hne].
          -- exists (s' ∪ {[o']}). rewrite lookup_insert_eq. split; [done|].
             rewrite E in Hs. injection Hs as ->. by apply elem_of_union_l.
          -- exists s. by rewrite lookup_insert_ne.
        * exists (s' ∪ {[o']}). rewrite lookup_insert_eq. split; [done|].
          apply elem_of_union_r. by apply elem_of_singleton.
    - split; [by left|]. intros [H | (_ & _ & [? ?])]; done.
Qed.

Lemma place_in_matrix_dom o' m' w m :
    is_Some (matrix_contents (place_in_matrix o' m' w) !! m) ↔
    is_Some (matrix_contents w !! m).
Proof.
    rewrite place_in_matrix_contents, <-(unlinked_dom o' w m).
    destruct (matrix_contents (unlinked o' w) !! m') eqn:E; [|done].
    rewrite lookup_insert_is_Some. split.
    - intros [<- | [_ ?]]; [by eexists | done].
    - intros H. destruct (decide (m' = m)); auto.
Qed.

Lemma remove_from_matrix_world o' w :
    (remove_from_matrix o' w).2 = w ∨
    ∃ obj old, objects w !! o' = Some obj ∧ container_matrix obj = Some old
               ∧ old ≠ "" ∧
      (remove_from_matrix o' w).2 =
        with_objects (<[o' := set_container_matrix "" obj]> (objects w))
                     (discard_from old o' w).
Proof.
    unfold remove_from_matrix. destruct (objects w !! o') as [obj|]; [|by left].
    destruct (container_matrix obj) as [old|] eqn:E; [|by left].
    case_bool_decide; [|by left]. right. by exists obj, old.
Qed.


  (** ** The containment invariant for one object id *)

  (** Wherever [o] is listed, its back-reference says so. *)
Definition backref_ok (o : string) w : Prop :=
    ∀ m, listed_in w o m →
      match objects w !! o with
      | None => False
      | Some obj => match container_matrix obj with
                    | Some c => c = m
                    | None => True
                    end
      end.

  (** The operation moves [o]. *)
Definition targets (o : string) op : bool :=
    match op with
    | OpPlace o' _ | OpRemove o' => bool_decide (o' = o)
    | _ => false
    end.

  (** A placement of [o] is issued only once [o] names an object. *)
Definition op_ok (o : string) w op : bool :=
    match op with
    | OpPlace o' _ =>
        if decide (o' = o) then bool_decide (is_Some (objects w !! o)) else true
    | _ => true
    end.

Fixpoint ops_ok (o : string) (ops : list WorldOp) w : bool :=
    match ops with
    | [] => true
    | op :: ops' => op_ok o w op && ops_ok o ops' (apply_op op w)
    end.

Definition untouched (o : string) (ops : list WorldOp) : bool :=
    forallb (λ op, negb (targets o op)) ops.

Lemma apply_op_cases op w :
    (∃ t obj, creates t obj w (apply_op op w) ∧ (is_matrix obj → t = OBJ_MATRIX)
              ∧ container_matrix obj ∈ [Some ""; None]) ∨
    (∃ o' m', op = OpPlace o' m') ∨
    (∃ o', op = OpRemove o') ∨
    (∃ m p, op = OpRegisterPlugin m p).
Proof.
    destruct op as [n c r a|n t e|n x y e a|n a|h x y|o' m'|o'|m p];
      [left..| | |]; [| | | | |by eauto|by eauto|by eauto 6].
    - destruct (create_matrix_creates n c r a w) as [o Ho].
      exists OBJ_MATRIX, (Matrix o). split_and!; [done..|]. set_solver.
    - destruct (create_agent_creates n t e w) as [o Ho].
      exists OBJ_AGENT, (Agent o ""). split_and!; [done..|]. set_solver.
    - destruct (create_token_creates n x y e a w) as [o Ho].
      exists OBJ_TOKEN, (Token o ""). split_and!; [done..|]. set_solver.
    - destruct (create_key_creates n a w) as [o Ho].
      exists OBJ_KEY, (Key o ""). split_and!; [done..|]. set_solver.
    - destruct (create_image_creates h x y w) as [o Ho].
      exists OBJ_IMAGE, (ImageObj o). split_and!; [done..|]. set_solver.
Qed.

Lemma place_in_matrix_objects_dom o' m' w k :
    is_Some (objects (place_in_matrix o' m' w) !! k) ↔ is_Some (objects w !! k).
Proof.
    rewrite place_in_matrix_objects.
    destruct (objects w !! o') as [obj|] eqn:E; [|done].
    destruct (container_matrix obj); [|done].
    rewrite lookup_insert_is_Some. split.
    - intros [<- | [_ ?]]; [by eexists | done].
    - intros H. destruct (decide (o' = k)); auto.
Qed.

Lemma apply_op_ids_wf op w : ids_wf w → ids_wf (apply_op op w).
Proof.
    intros Hwf.
    destruct (apply_op_cases op w)
      as [(t & obj & Hc & Ht & _) | [(o' & m' & ->) | [(o' & ->) | (m & p & ->)]]].
    - by eapply creates_ids_wf.
    - destruct Hwf as [Wo Wm]. simpl. split.
      + intros k Hk%place_in_matrix_objects_dom.
        rewrite place_in_matrix_next_ids. auto.
      + intros m Hm%place_in_matrix_dom.
        rewrite place_in_matrix_next_ids. auto.
    - simpl. destruct (remove_from_matrix_world o' w)
        as [-> | (obj & old & Ho & Hc & Hne & ->)]; [done|].
      destruct Hwf as [Wo Wm]. split; simpl.
      + intros k Hk. apply Wo. apply lookup_insert_is_Some in Hk
          as [<- | [_ ?]]; [by eexists | done].
      + intros m Hm. apply Wm. by apply lookup_alter_is_Some in Hm.
    - done.
Qed.

  (** Operations that do not move [o] leave its listings alone. *)
Lemma apply_op_listed_frame o op w m :
    ids_wf w → targets o op = false →
    listed_in (apply_op op w) o m ↔ listed_in w o m.
Proof.
    intros Hwf Ht.
    destruct (apply_op_cases op w)
      as [(t & obj & Hc & Hm & _) | [(o' & m' & ->) | [(o' & ->) | (m0 & p & ->)]]].
    - destruct Hc as (_ & _ & Hmc & _). unfold listed_in. rewrite Hmc.
      destruct (is_matrix obj) eqn:E; [|done].
      destruct (new_objid_fresh t w Hwf) as [_ Hfresh].
      split.
      + intros (s & Hs & Ho). apply lookup_insert_Some in Hs
          as [[<- <-] | [Hne Hs]]; [set_solver | by eauto].
      + intros (s & Hs & Ho). exists s. split; [|done].
        rewrite lookup_insert_ne; [done|]. intros <-. congruence.
    - simpl in *. apply bool_decide_eq_false in Ht.
      rewrite place_in_matrix_listed, unlinked_listed_ne by done.
      split; [intros [?|(-> & _)]; done | by left].
    - simpl in *. apply bool_decide_eq_false in Ht.
      destruct (remove_from_matrix_world o' w)
        as [-> | (obj & old & Ho & Hc & Hne & ->)]; [done|].
      change (listed_in (discard_from old o' w) o m ↔ listed_in w o m).
      rewrite listed_in_discard.
      split; [by intros [? _] | intros Hl; split; [done | by intros [_ ?]]].
    - done.
Qed.

Lemma apply_op_objects_frame o op w :
    ids_wf w → targets o op = false → is_Some (objects w !! o) →
    objects (apply_op op w) !! o = objects w !! o.
Proof.
    intros Hwf Ht Ho.
    destruct (apply_op_cases op w)
      as [(t & obj & Hc & Hm & _) | [(o' & m' & ->) | [(o' & ->) | (m0 & p & ->)]]].
    - destruct Hc as (Hobj & _). rewrite Hobj.
      destruct (new_objid_fresh t w Hwf) as [Hfresh _].
      rewrite lookup_insert_ne; [done|]. intros <-.
      rewrite Hfresh in Ho. by destruct Ho.
    - simpl in *. apply bool_decide_eq_false in Ht.
      rewrite place_in_matrix_objects.
      destruct (objects w !! o') as [obj|]; [|done].
      destruct (container_matrix obj); [|done]. by rewrite lookup_insert_ne.
    - simpl in *. apply bool_decide_eq_false in Ht.
      destruct (remove_from_matrix_world o' w)
        as [-> | (obj & old & Ho' & Hc & Hne & ->)]; [done|].
      simpl. by rewrite lookup_insert_ne.
    - done.
Qed.

  (** Detaching [o] from its old matrix leaves it listed nowhere. *)
Lemma unlinked_clears o w obj old m :
    ids_wf w → backref_ok o w →
    objects w !! o = Some obj → container_matrix obj = Some old →
    ¬ listed_in (unlinked o w) o m.
Proof.
    intros [_ Wm] Hb Ho Hc. unfold unlinked. rewrite Ho. simpl. rewrite Hc.
    case_bool_decide as Hold.
    - intros [Hl Hn]%listed_in_discard. specialize (Hb m Hl).
      rewrite Ho, Hc in Hb. by apply Hn.
    - intros Hl. specialize (Hb m Hl). rewrite Ho, Hc in Hb. subst m.
      destruct Hl as (s & Hs & _).
      destruct (Wm old (mk_is_Some _ _ Hs)) as (n & Heq & _).
      assert (old = "") as -> by (destruct (decide (old = "")); [done|by destruct Hold]).
      discriminate Heq.
Qed.

Lemma apply_op_backref_ok o op w :
    ids_wf w → op_ok o w op = true → backref_ok o w →
    backref_ok o (apply_op op w).
Proof.
    intros Hwf Hok Hb.
    destruct (targets o op) eqn:Ht.
    - destruct op as [| | | | |o' m'|o'|]; try discriminate Ht;
        simpl in Ht; apply bool_decide_eq_true in Ht; subst o'; simpl.
      + simpl in Hok. rewrite decide_True in Hok by done.
        apply bool_decide_eq_true in Hok as [obj Ho].
        intros m Hl. rewrite place_in_matrix_objects, Ho.
        destruct (container_matrix obj) as [old|] eqn:Hc.
        * rewrite lookup_insert_eq.
          apply place_in_matrix_listed in Hl as [Hl | (_ & -> & _)].
          -- by apply (unlinked_clears o w obj old m) in Hl.
          -- by destruct obj.
        * by rewrite Ho, Hc.
      + destruct (remove_from_matrix_world o w)
          as [-> | (obj & old & Ho & Hc & Hne & ->)]; [done|].
        intros m Hl.
        change (listed_in (discard_from old o w) o m) in Hl.
        apply listed_in_discard in Hl as [Hl Hn].
        specialize (Hb m Hl). rewrite Ho, Hc in Hb. by destruct Hn.
    - intros m Hl. apply (apply_op_listed_frame o op w m Hwf Ht) in Hl.
      specialize (Hb m Hl).
      destruct (objects w !! o) as [obj|] eqn:Ho; [|done].
      by rewrite (apply_op_objects_frame o op w Hwf Ht), Ho by by eexists.
Qed.

Lemma run_invariants o ops w :
    ids_wf w → backref_ok o w → ops_ok o ops w = true →
    ids_wf (run ops w) ∧ backref_ok o (run ops w).
Proof.
    revert w. induction ops as [|op ops IH]; intros w Hwf Hb Hok; [done|].
    simpl in Hok. apply andb_true_iff in Hok as [Hop Hok].
    apply IH; [by apply apply_op_ids_wf | by apply apply_op_backref_ok | done].
Qed.

Lemma run_frame o ops w :
    ids_wf w → is_Some (objects w !! o) → untouched o ops = true →
    (∀ m, listed_in (run ops w) o m ↔ listed_in w o m) ∧
    objects (run ops w) !! o = objects w !! o.
Proof.
    revert w. induction ops as [|op ops IH]; intros w Hwf Ho Hu; [done|].
    simpl in Hu. apply andb_true_iff in Hu as [Hop Hu].
    apply negb_true_iff in Hop.
    pose proof (apply_op_objects_frame o op w Hwf Hop Ho) as Hobj.
    destruct (IH (apply_op op w)) as [Hl Hobj'];
      [by apply apply_op_ids_wf | by rewrite Hobj | done |].
    split.
    - intros m. simpl. rewrite Hl. by apply apply_op_listed_frame.
    - simpl. by rewrite Hobj'.
Qed.

Lemma backref_ok_init o : backref_ok o (@init P).
Proof. intros m (s & Hs & _). simpl in Hs. by rewrite lookup_empty in Hs. Qed.

  (** C2, amended: take any run of World operations from the empty
      world in which [o] is placed only once it exists, after which [o]
      names an Agent, Token or Key; place [o] into a matrix [m] that
      exists at the time of the call; then run any operations that
      neither place nor remove [o].  Afterwards [o] is listed in the
      reverse index of [m], in no other, and its [container_matrix] is
      [m]. *)
Theorem placed_in_exactly_one (pre post : list WorldOp) (o m : string) :
    ops_ok o pre init = true →
    (∃ obj, objects (run pre init) !! o = Some obj
            ∧ is_Some (container_matrix obj)) →
    is_Some (matrix_contents (run pre init) !! m) →
    untouched o post = true →
    let w := run post (place_in_matrix o m (run pre init)) in
    listed_in w o m ∧ (∀ m', listed_in w o m' → m' = m) ∧
    ∃ obj, objects w !! o = Some obj ∧ container_matrix obj = Some m.
Proof.
    intros Hok (obj & Ho & [old Hc]) Hm Hu w.
    destruct (run_invariants o pre init ids_wf_init (backref_ok_init o) Hok)
      as [Hwf Hb].
    set (w1 := run pre init) in *.
    assert (objects (place_in_matrix o m w1) !! o
            = Some (set_container_matrix m obj)) as Ho2.
    { by rewrite place_in_matrix_objects, Ho, Hc, lookup_insert_eq. }
    destruct (run_frame o post (place_in_matrix o m w1)) as [Hl Hobj];
      [by apply (apply_op_ids_wf (OpPlace o m)) | by rewrite Ho2 | done |].
    fold w in Hl, Hobj. split_and!.
    - apply Hl, place_in_matrix_listed. by right.
    - intros m' Hl'. apply Hl, place_in_matrix_listed in Hl'
        as [Hl' | (_ & -> & _)]; [|done].
      by apply (unlinked_clears o w1 obj old m') in Hl'.
    - exists (set_container_matrix m obj). rewrite Hobj, Ho2.
      split; [done|]. by destruct obj.
Qed.

End Containment.

(** A world with one matrix "m1" and one agent "a1" placed in it. *)
Definition one_agent_world : World unit :=
  run [OpCreateMatrix "Home" 4 4 no_attrs; OpCreateAgent "bob" "" 10;
       OpPlace "a1" "m1"] init.

Lemma placed_in_exactly_one_witness :
  listed_in one_agent_world "a1" "m1" ∧
  (∀ m', listed_in one_agent_world "a1" m' → m' = "m1") ∧
  ∃ obj, objects one_agent_world !! "a1" = Some obj
         ∧ container_matrix obj = Some "m1".
Proof.
  apply (placed_in_exactly_one (P := unit)
           [OpCreateMatrix "Home" 4 4 no_attrs; OpCreateAgent "bob" "" 10] []
           "a1" "m1").
  - reflexivity.
  - eexists. split; [vm_compute; reflexivity | by eexists].
  - eexists. vm_compute. reflexivity.
  - reflexivity.
Defined.

(** C2, as stated, fails: an existing agent that has been placed, and not
    removed since, can be listed in no reverse index at all.  Placing it
    into a matrix id that names no matrix records the id as its
    back-reference and lists it nowhere. *)
Lemma placed_yet_listed_nowhere :
  let w : World unit :=
    run [OpCreateAgent "bob" "" 10; OpPlace "a1" "m1"] init in
  (∃ obj, objects w !! "a1" = Some obj ∧ container_matrix obj = Some "m1") ∧
  ∀ m, ¬ listed_in w "a1" m.
Proof.
  split.
  - eexists. split; vm_compute; reflexivity.
  - intros m (s & Hs & _). vm_compute in Hs. discriminate Hs.
Qed.

(** C3: placing an agent into a matrix id that names no matrix is not a
    no-op.  The call raises nothing, but the agent is dropped from the
    reverse index of the matrix that held it and its [container_matrix]
    becomes the unknown id. *)
Lemma place_in_missing_matrix_changes_world :
  let w := one_agent_world in
  let w' := place_in_matrix "a1" "m9" w in
  matrix_contents w !! "m9" = None ∧
  listed_in w "a1" "m1" ∧
  (∀ m, ¬ listed_in w' "a1" m) ∧
  (∃ obj, objects w' !! "a1" = Some obj ∧ container_matrix obj = Some "m9") ∧
  w' ≠ w.
Proof.
  split_and!.
  - vm_compute. reflexivity.
  - apply (place_in_matrix_listed (P := unit) "a1" "m1" "a1"
             (run [OpCreateMatrix "Home" 4 4 no_attrs; OpCreateAgent "bob" "" 10]
                  init)).
    right. split_and!; [done..|]. eexists. vm_compute. reflexivity.
  - intros m Hl. apply place_in_matrix_listed in Hl as [Hl | (_ & _ & [s Hs])].
    + destruct (run_invariants (P := unit) "a1"
                  [OpCreateMatrix "Home" 4 4 no_attrs; OpCreateAgent "bob" "" 10;
                   OpPlace "a1" "m1"]
                  init ids_wf_init (backref_ok_init _) eq_refl) as [Hwf Hb].
      eapply (unlinked_clears "a1" one_agent_world);
        [exact Hwf | exact Hb | vm_compute; reflexivity | reflexivity | exact Hl].
    + vm_compute in Hs. discriminate Hs.
  - eexists. split; vm_compute; reflexivity.
  - intros H. apply (f_equal (λ w, objects w !! "a1")) in H.
    vm_compute in H. discriminate H.
Qed.

End WorldProps.

(* ===================================================================== *)
(** * Properties of the Session *)
(* ===================================================================== *)

Module SessionProps.
Import Objects Protocol WorldM SessionM.

(** The position of a variant in the order of a full matrix sync. *)
Definition rank (obj : WorldObject) : nat :=
  match obj with
  | Matrix _ => 0
  | ImageObj _ => 1
  | Token _ _ => 2
  | Key _ _ => 3
  | Agent _ _ => 4
  end.

(** The full-object message for [obj], as written to session [sid]. *)
Definition full_msg (sid : string) (obj : WorldObject) : string * Msg :=
  (sid, MsgSet (objid (base obj)) (to_full_set_attrs (base obj))).

Section Sync.
Context {P : Type}.
Implicit Types (e : Env P) (w : World P).

Lemma send_all_out sid objs e :
  out (send_all sid objs e) = out e ++ map (full_msg sid) objs ∧
  world (send_all sid objs e) = world e.
Proof.
  revert e. induction objs as [|obj objs IH]; intros e; simpl.
  - by rewrite app_nil_r.
  - destruct (IH (send_full_object sid (base obj) e)) as [Ho Hw].
    unfold send_all in *. rewrite Ho, Hw. simpl. by rewrite <-app_assoc.
Qed.

(** ** The full synchronisation, stated on the registry itself *)

(** A full-object message as the specification describes it: a [set]
    for the object's id that carries all eight attributes. *)
Definition full_definition (sid : string) (obj : WorldObject) : string * Msg :=
  let o := base obj in
  (sid, MsgSet (objid o)
          (mkAttrs (Some (name o)) (Some (text o)) (Some (energy o))
                   (Some (bgcolor o)) (Some (fgcolor o))
                   (Some (x o)) (Some (y o)) (Some (image o)))).

(** The entries of [matrix_contents[m]] that name an object accepted by
    [keep], each with its key. *)
Definition keyed (keep : WorldObject → bool) w (m : string)
  : list (string * WorldObject) :=
  omap (λ oid, match objects w !! oid with
               | Some obj => if keep obj then Some (oid, obj) else None
               | None => None
               end)
       (elements (default ∅ (matrix_contents w !! m))).

Lemma keyed_snd keep w m : (keyed keep w m).*2 = objects_in_matrix keep w m.
Proof.
  unfold keyed, objects_in_matrix, get_contents.
  induction (elements _) as [|k l IH]; [done|]. cbn [omap list_omap].
  destruct (objects w !! k) as [obj|]; [|exact IH].
  destruct (keep obj); [|exact IH]. rewrite fmap_cons. simpl. f_equal. exact IH.
Qed.

Lemma keyed_elem keep w m k obj :
  (k, obj) ∈ keyed keep w m ↔
  k ∈ default ∅ (matrix_contents w !! m) ∧ objects w !! k = Some obj
  ∧ keep obj = true.
Proof.
  unfold keyed. rewrite list_elem_of_omap. split.
  - intros (oid & Hin%elem_of_elements & H).
    destruct (objects w !! oid) as [o|] eqn:Ho; [|done].
    destruct (keep o) eqn:Hk; [|done]. injection H as <- <-. done.
  - intros (Hin & Ho & Hk). exists k. split; [by apply elem_of_elements|].
    by rewrite Ho, Hk.
Qed.

Lemma keyed_NoDup keep w m : NoDup (keyed keep w m).*1.
Proof.
  unfold keyed.
  pose proof (NoDup_elements (default ∅ (matrix_contents w !! m))) as Hnd.
  induction Hnd as [|k l Hk Hnd IH]; simpl; [constructor|].
  destruct (objects w !! k) as [obj|]; [|done].
  destruct (keep obj); [|done]. simpl. constructor; [|done].
  intros ((k' & obj') & Heq & Hin)%list_elem_of_fmap. simpl in Heq. subst k'.
  apply list_elem_of_omap in Hin as (oid & Hoid & H).
  destruct (objects w !! oid) as [o|]; [|done].
  destruct (keep o); [|done]. injection H as -> _. done.
Qed.

Lemma keyed_disjoint keep1 keep2 w m k :
  (∀ obj, keep1 obj = true → keep2 obj = true → False) →
  k ∈ (keyed keep1 w m).*1 → k ∈ (keyed keep2 w m).*1 → False.
Proof.
  intros Hdis ((k1 & o1) & Heq1 & H1%keyed_elem)%list_elem_of_fmap
               ((k2 & o2) & Heq2 & H2%keyed_elem)%list_elem_of_fmap.
  simpl in *. subst k1 k2.
  destruct H1 as (_ & Ho1 & Hk1), H2 as (_ & Ho2 & Hk2).
  rewrite Ho1 in Ho2. injection Ho2 as <-. by eapply Hdis.
Qed.

Lemma full_msg_keyed sid (l : list (string * WorldObject)) :
  map (full_msg sid) l.*2 = map (λ ko, full_definition sid ko.2) l.
Proof.
  induction l as [|[k o] l IH]; [done|]. rewrite fmap_cons. simpl.
  by rewrite IH.
Qed.

(** C6: for an existing matrix, [send_matrix_state] writes to the
    session exactly these messages: the full definition (all eight
    attributes) of the Matrix, then that of every Image that
    [matrix_contents] lists for the matrix, then of every Token, then of
    every Key, then of every Agent.  Every listed object other than a
    Matrix is sent, once, and nothing else is; the receiving client's
    own agent, if listed, is among the Agents. *)
Theorem send_matrix_state_order (sid matrix_id : string) e
        (matrix : TileNetObject) :
  objects (world e) !! matrix_id = Some (Matrix matrix) →
  let w := world e in
  let listed := default ∅ (matrix_contents w !! matrix_id) in
  ∃ images tokens keys agents : list (string * WorldObject),
    let sent := images ++ tokens ++ keys ++ agents in
    out (send_matrix_state sid matrix_id e)
    = out e ++ full_definition sid (Matrix matrix)
            :: map (λ ko, full_definition sid ko.2) sent ∧
    Forall (λ ko, is_image ko.2 = true) images ∧
    Forall (λ ko, is_token ko.2 = true) tokens ∧
    Forall (λ ko, is_key ko.2 = true) keys ∧
    Forall (λ ko, is_agent ko.2 = true) agents ∧
    (∀ k obj, (k, obj) ∈ sent ↔
              k ∈ listed ∧ objects w !! k = Some obj ∧ is_matrix obj = false) ∧
    NoDup sent.*1 ∧
    (∀ obj, sid ∈ listed → objects w !! sid = Some obj → is_agent obj = true →
            (sid, obj) ∈ agents).
Proof.
  intros Hm w listed.
  exists (keyed is_image w matrix_id), (keyed is_token w matrix_id),
         (keyed is_key w matrix_id), (keyed is_agent w matrix_id).
  cbv zeta.
  assert (∀ keep, Forall (λ ko : string * WorldObject, keep ko.2 = true)
                         (keyed keep w matrix_id)) as Hkeep.
  { intros keep. apply Forall_forall. intros [k obj] Hin%keyed_elem.
    simpl. by destruct Hin as (_ & _ & ?). }
  split_and!; try apply Hkeep.
  - assert (get_matrix (world e) matrix_id = Some matrix) as Hgm
      by (unfold get_matrix; by rewrite Hm).
    unfold send_matrix_state. rewrite Hgm. cbv zeta.
    set (e1 := with_sessions _ e).
    set (e2 := send_full_object sid matrix e1).
    assert (world e2 = w) as Hw2 by done.
    assert (out e2 = out e ++ [full_definition sid (Matrix matrix)]) as Ho2
      by done.
    destruct (send_all_out sid (get_images_in_matrix (world e2) matrix_id) e2)
      as [Ho3 Hw3].
    set (e3 := send_all sid _ e2) in *.
    destruct (send_all_out sid (get_tokens_in_matrix (world e3) matrix_id) e3)
      as [Ho4 Hw4].
    set (e4 := send_all sid _ e3) in *.
    destruct (send_all_out sid (get_keys_in_matrix (world e4) matrix_id) e4)
      as [Ho5 Hw5].
    set (e5 := send_all sid _ e4) in *.
    destruct (send_all_out sid (get_agents_in_matrix (world e5) matrix_id) e5)
      as [Ho6 _].
    rewrite Ho6, Ho5, Ho4, Ho3, Ho2, Hw5, Hw4, Hw3, Hw2.
    unfold get_images_in_matrix, get_tokens_in_matrix, get_keys_in_matrix,
      get_agents_in_matrix.
    rewrite <-!keyed_snd, !map_app, <-!app_assoc. simpl.
    by rewrite !full_msg_keyed.
  - intros k obj. rewrite !elem_of_app, !keyed_elem. fold listed. split.
    + intros [H|[H|[H|H]]]; destruct H as (? & ? & ?);
        split_and!; try done; by destruct obj.
    + intros (Hin & Ho & Hnm).
      destruct obj; try discriminate Hnm; simpl; tauto.
  - rewrite !fmap_app.
    repeat (apply NoDup_app; split_and!); try apply keyed_NoDup.
    all: intros k Hk Hk'; rewrite ?elem_of_app in Hk'.
    all: destruct_or?.
    all: (eapply keyed_disjoint; [|exact Hk|exact Hk']); by intros [].
  - intros obj Hin Ho Ha. apply keyed_elem. by fold listed.
Qed.

End Sync.

Lemma send_matrix_state_order_witness :
  ∃ matrix (sent : list (string * WorldObject)),
    objects (world Scenario.game_env) !! "m2" = Some (Matrix matrix) ∧
    out (send_matrix_state "a1" "m2" Scenario.game_env)
    = out Scenario.game_env
      ++ full_definition "a1" (Matrix matrix)
         :: map (λ ko, full_definition "a1" ko.2) sent ∧
    NoDup sent.*1 ∧
    length sent = 69%nat.
Proof.
  edestruct (send_matrix_state_order "a1" "m2" Scenario.game_env)
    as (i & t & k & a & Hout & _ & _ & _ & _ & _ & Hnd & _);
    [vm_compute; reflexivity|].
  eexists _, (i ++ t ++ k ++ a).
  split_and!; [vm_compute; reflexivity | exact Hout | exact Hnd |].
  apply (f_equal length) in Hout. rewrite length_app in Hout. simpl in Hout.
  rewrite length_map in Hout.
  assert (length (out (send_matrix_state "a1" "m2" Scenario.game_env))
          = (length (out Scenario.game_env) + 70)%nat) as Hlen
    by (vm_compute; reflexivity).
  lia.
Defined.

End SessionProps.

(* ===================================================================== *)
(** * Properties of the score table and of loops *)
(* ===================================================================== *)

Module DictProps.

Lemma eqb_eq_dec (k k' : string) :
  String.eqb k k' = bool_decide (k = k').
Proof.
  destruct (String.eqb_spec k k') as [->|Hne].
  - by rewrite bool_decide_eq_true_2.
  - by rewrite bool_decide_eq_false_2.
Qed.

Lemma get_set_eq k v d : Dict.get k (Dict.set k v d) = Some v.
Proof.
  induction d as [|[k' v'] d IH]; simpl.
  - by rewrite String.eqb_refl.
  - destruct (String.eqb k k') eqn:E; simpl; by rewrite E.
Qed.

Lemma get_set_ne k k' v d :
  k ≠ k' → Dict.get k' (Dict.set k v d) = Dict.get k' d.
Proof.
  intros Hne. induction d as [|[k0 v0] d IH]; simpl.
  - destruct (String.eqb_spec k' k); [congruence | done].
  - destruct (String.eqb_spec k k0) as [->|Hk]; simpl.
    + destruct (String.eqb_spec k' k0); [congruence | done].
    + by rewrite IH.
Qed.

Lemma get_set k k' v d :
  Dict.get k' (Dict.set k v d) = if decide (k = k') then Some v else Dict.get k' d.
Proof.
  case_decide as H; [subst; apply get_set_eq | by apply get_set_ne].
Qed.

Lemma get_is_Some k d : is_Some (Dict.get k d) ↔ k ∈ Dict.keys d.
Proof.
  unfold Dict.keys. induction d as [|[k' v'] d IH]; simpl.
  - split; [by intros [? ?] | by intros ?%elem_of_nil].
  - rewrite elem_of_cons, <-IH.
    destruct (String.eqb_spec k k') as [->|Hne].
    + split; [by left | by eexists].
    + split; [by right | by intros [?|?]].
Qed.

Lemma keys_set_present k v d :
  k ∈ Dict.keys d → Dict.keys (Dict.set k v d) = Dict.keys d.
Proof.
  unfold Dict.keys. induction d as [|[k' v'] d IH]; simpl.
  - by intros ?%elem_of_nil.
  - intros Hk. destruct (String.eqb_spec k k') as [->|Hne]; simpl; [done|].
    f_equal. apply IH. by apply elem_of_cons in Hk as [?|?].
Qed.

Lemma keys_set_absent k v d :
  k ∉ Dict.keys d → Dict.keys (Dict.set k v d) = Dict.keys d ++ [k].
Proof.
  unfold Dict.keys. induction d as [|[k' v'] d IH]; simpl; [done|].
  intros Hk. apply not_elem_of_cons in Hk as [Hne Hk].
  destruct (String.eqb_spec k k'); [done|]. simpl. f_equal. by apply IH.
Qed.

Lemma NoDup_keys_set k v d :
  NoDup (Dict.keys d) → NoDup (Dict.keys (Dict.set k v d)).
Proof.
  intros Hnd. destruct (decide (k ∈ Dict.keys d)) as [Hin|Hnin].
  - by rewrite keys_set_present.
  - rewrite keys_set_absent by done. apply NoDup_app. split_and!; [done| |].
    + intros x Hx ->%list_elem_of_singleton. done.
    + apply NoDup_singleton.
Qed.

Lemma get_pop_ne k k' d :
  k ≠ k' → Dict.get k' (Dict.pop k d) = Dict.get k' d.
Proof.
  intros Hne. induction d as [|[k0 v0] d IH]; simpl; [done|].
  destruct (String.eqb_spec k k0) as [->|Hk]; simpl.
  - destruct (String.eqb_spec k' k0); [congruence | done].
  - by rewrite IH.
Qed.

Lemma get_pop_eq k d :
  NoDup (Dict.keys d) → Dict.get k (Dict.pop k d) = None.
Proof.
  unfold Dict.keys. induction d as [|[k0 v0] d IH]; simpl; [done|].
  intros [Hnin Hnd]%NoDup_cons.
  destruct (String.eqb_spec k k0) as [->|Hk]; simpl.
  - destruct (Dict.get k0 d) eqn:E; [|done].
    destruct Hnin. apply get_is_Some. by eexists.
  - destruct (String.eqb_spec k k0); [done|]. by apply IH.
Qed.

Lemma keys_pop_subseteq k d x :
  x ∈ Dict.keys (Dict.pop k d) → x ∈ Dict.keys d.
Proof.
  unfold Dict.keys. induction d as [|[k0 v0] d IH]; simpl; [done|].
  destruct (String.eqb_spec k k0) as [->|Hk]; simpl.
  - by right.
  - intros [->|?]%elem_of_cons; [by left | right; by apply IH].
Qed.

Lemma NoDup_keys_pop k d :
  NoDup (Dict.keys d) → NoDup (Dict.keys (Dict.pop k d)).
Proof.
  unfold Dict.keys. induction d as [|[k0 v0] d IH]; simpl; [done|].
  intros [Hnin Hnd]%NoDup_cons.
  destruct (String.eqb_spec k k0) as [->|Hk]; simpl; [done|].
  apply NoDup_cons. split; [|by apply IH].
  intros Hin. apply Hnin. by eapply keys_pop_subseteq.
Qed.

Lemma max_from_in best d :
  Dict.max_from best d = best.1 ∨ Dict.max_from best d ∈ Dict.keys d.
Proof.
  revert best. unfold Dict.keys.
  induction d as [|[k v] d IH]; intros best; simpl; [by left|].
  destruct (IH (if bool_decide (best.2 < v) then (k, v) else best)) as [H|H].
  - rewrite H. case_bool_decide; [right; by left | by left].
  - right. by right.
Qed.

Lemma max_key_in d k : Dict.max_key d = Some k → k ∈ Dict.keys d.
Proof.
  destruct d as [|[k0 v0] d]; simpl; [done|]. intros [= <-].
  destruct (max_from_in (k0, v0) d) as [-> | H]; [by left | by right].
Qed.

(** A loop succeeds and keeps an invariant when each iteration does. *)
Lemma for_each_inv {A S : Type} (I : S → Prop) (body : A → S → option S)
      (l : list A) (s : S) :
  I s →
  (∀ a s, a ∈ l → I s → ∃ s', body a s = Some s' ∧ I s') →
  ∃ s', for_each body l s = Some s' ∧ I s'.
Proof.
  revert s. induction l as [|a l IH]; intros s Hs Hbody; simpl; [by eauto|].
  destruct (Hbody a s) as (s' & -> & Hs'); [by left | done |].
  apply IH; [done|]. intros a' s0 Ha'. apply Hbody. by right.
Qed.

(** What a successful loop keeps. *)
Lemma for_each_keeps {A S : Type} (I : S → Prop) (body : A → S → option S)
      (l : list A) (s s' : S) :
  I s →
  (∀ a s s', a ∈ l → I s → body a s = Some s' → I s') →
  for_each body l s = Some s' → I s'.
Proof.
  revert s. induction l as [|a l IH]; intros s Hs Hbody; simpl.
  - by intros [= <-].
  - destruct (body a s) as [s1|] eqn:E; [|done].
    apply IH; [by eapply Hbody; [left| |] |]. intros ???? . apply Hbody. by right.
Qed.

Lemma foldl_keeps {A S : Type} (I : S → Prop) (f : S → A → S)
      (l : list A) (s : S) :
  I s → (∀ a s, I s → I (f s a)) → I (foldl f s l).
Proof. revert s. induction l; simpl; auto. Qed.

End DictProps.

(* ===================================================================== *)
(** * Properties of the matching game *)
(* ===================================================================== *)

Module PairProps.
Import Objects Protocol WorldM SessionM PairPanicking DictProps.

(** ** Grids *)

(** Every cell of the 8x8 board can be indexed. *)
Definition covers {A : Type} (g : list (list A)) : Prop :=
  ∀ r c, (r < GRID_ROWS)%nat → (c < GRID_COLS)%nat → is_Some (grid_get g r c).

Definition coversb {A : Type} (g : list (list A)) : bool :=
  forallb (λ r, forallb (λ c, bool_decide (is_Some (grid_get g r c)))
                        (seq 0 GRID_COLS))
          (seq 0 GRID_ROWS).

(** The three grids of the plugin have their full size. *)
Definition shape_ok (self : PairPanickingPlugin) : bool :=
  coversb (state self) && coversb (token_grid self) && coversb (board self).

Definition shape (self : PairPanickingPlugin) : Prop :=
  covers (state self) ∧ covers (token_grid self) ∧ covers (board self).

Lemma coversb_covers {A : Type} (g : list (list A)) :
  coversb g = true → covers g.
Proof.
  unfold coversb, covers. rewrite forallb_forall. intros H r c Hr Hc.
  specialize (H r). rewrite forallb_forall in H.
  assert (In r (seq 0 GRID_ROWS)) as Hr' by (apply in_seq; lia).
  assert (In c (seq 0 GRID_COLS)) as Hc' by (apply in_seq; lia).
  eapply bool_decide_eq_true_1, H; done.
Qed.

Lemma shape_ok_shape self : shape_ok self = true → shape self.
Proof.
  unfold shape_ok. intros H.
  apply andb_true_iff in H as [H Hb]. apply andb_true_iff in H as [Hs Ht].
  split_and!; by apply coversb_covers.
Qed.

Lemma grid_get_set {A : Type} (g g' : list (list A)) r c v r' c' :
  grid_set g r c v = Some g' →
  grid_get g' r' c' =
    if decide (r = r' ∧ c = c') then Some v else grid_get g r' c'.
Proof.
  unfold grid_set, grid_get. destruct (g !! r) as [row|] eqn:Hr; [|done].
  destruct (row !! c) as [x|] eqn:Hc; [|done]. intros [= <-].
  apply lookup_lt_Some in Hr as Hr'. apply lookup_lt_Some in Hc as Hc'.
  destruct (decide (r = r')) as [<-|Hne].
  - rewrite list_lookup_insert_eq by done.
    destruct (decide (c = c')) as [<-|Hnc].
    + rewrite list_lookup_insert_eq by done. by rewrite decide_True.
    + rewrite list_lookup_insert_ne by done. rewrite Hr.
      rewrite decide_False; [done | by intros [_ ?]].
  - rewrite list_lookup_insert_ne by done.
    rewrite decide_False; [done | by intros [? _]].
Qed.

Lemma grid_set_is_Some {A : Type} (g : list (list A)) r c v :
  is_Some (grid_get g r c) → is_Some (grid_set g r c v).
Proof.
  unfold grid_set, grid_get. destruct (g !! r) as [row|]; [|by intros [? ?]].
  destruct (row !! c); [by eexists | by intros [? ?]].
Qed.

Lemma grid_set_covers {A : Type} (g g' : list (list A)) r c v :
  grid_set g r c v = Some g' → covers g → covers g'.
Proof.
  intros Hs Hg r' c' Hr Hc. rewrite (grid_get_set _ _ _ _ _ _ _ Hs).
  case_decide; [by eexists | by apply Hg].
Qed.

#[local] Arguments _game_over : simpl never.
#[local] Arguments _reveal_all : simpl never.
#[local] Arguments _handle_match : simpl never.
#[local] Arguments _handle_mismatch : simpl never.
#[local] Arguments _resolve : simpl never.
#[local] Arguments reveal : simpl never.
#[local] Arguments _broadcast_set : simpl never.
#[local] Arguments _broadcast_hear : simpl never.

(** The variant of an object and the matrix it says it is in. *)
Definition placement (obj : WorldObject) : nat * option string :=
  (SessionProps.rank obj, container_matrix obj).

Section Game.
Context {P : Type}.
Implicit Types (self : PairPanickingPlugin) (e : Env P).

(** ** Frames *)

(** What a resolution leaves alone in the plugin: everything but the
    cell states, the scores, the solved count and the in-progress flag. *)
Definition pp_frame self self' : Prop :=
  matrix_id self' = matrix_id self ∧ board self' = board self ∧
  token_grid self' = token_grid self ∧
  token_positions self' = token_positions self ∧
  showing self' = showing self ∧ trigger_agent self' = trigger_agent self ∧
  timer_task self' = timer_task self ∧
  home_token_id self' = home_token_id self ∧
  help_token_id self' = help_token_id self ∧
  restart_token_id self' = restart_token_id self ∧
  symbol_images self' = symbol_images self ∧
  hidden_image_id self' = hidden_image_id self.

Lemma pp_frame_refl self : pp_frame self self.
Proof. by repeat split. Qed.

Lemma pp_frame_trans self1 self2 self3 :
  pp_frame self1 self2 → pp_frame self2 self3 → pp_frame self1 self3.
Proof. unfold pp_frame. intros H1 H2. destruct_and!. split_and!; congruence. Qed.

(** What a resolution leaves alone in the environment: the timer tasks,
    the reverse index, the plugin registry, and the variant and container
    of every object; it only writes object attributes, caches and the
    trace. *)
Definition env_frame e e' : Prop :=
  tasks e' = tasks e ∧
  matrix_contents (world e') = matrix_contents (world e) ∧
  game_plugins (world e') = game_plugins (world e) ∧
  ∀ k, placement <$> objects (world e') !! k
       = placement <$> objects (world e) !! k.

Lemma env_frame_refl e : env_frame e e.
Proof. by split_and!. Qed.

Lemma env_frame_trans e1 e2 e3 :
  env_frame e1 e2 → env_frame e2 e3 → env_frame e1 e3.
Proof.
  unfold env_frame. intros (Ha1 & Hb1 & Hc1 & Hd1) (Ha2 & Hb2 & Hc2 & Hd2).
  split_and!; [congruence..|]. intros k. by rewrite Hd2, Hd1.
Qed.

Lemma send_set_frame sid o a e : env_frame e (send_set sid o a e).
Proof. by split_and!. Qed.

Lemma send_hear_frame sid f t m e : env_frame e (send_hear sid f t m e).
Proof. by split_and!. Qed.

Lemma update_token_frame o f e : env_frame e (on_world (update_token o f) e).
Proof.
  unfold env_frame, on_world, update_token. simpl.
  destruct (objects (world e) !! o) as [[]|] eqn:E; try by split_and!.
  simpl. split_and!; [done..|]. intros k.
  destruct (decide (o = k)) as [<-|Hne].
  - by rewrite lookup_insert_eq, E.
  - by rewrite lookup_insert_ne.
Qed.

Lemma update_agent_frame o f e : env_frame e (on_world (update_agent o f) e).
Proof.
  unfold env_frame, on_world, update_agent. simpl.
  destruct (objects (world e) !! o) as [[]|] eqn:E; try by split_and!.
  simpl. split_and!; [done..|]. intros k.
  destruct (decide (o = k)) as [<-|Hne].
  - by rewrite lookup_insert_eq, E.
  - by rewrite lookup_insert_ne.
Qed.

Lemma broadcast_set_frame self o a e : env_frame e (_broadcast_set self o a e).
Proof.
  unfold _broadcast_set. generalize (get_agents_in_matrix (world e) (matrix_id self)).
  intros l. apply (foldl_keeps (env_frame e)); [done|].
  intros agent e' He'. destruct (sessions e' !! _); [|done].
  eapply env_frame_trans; [exact He' | apply send_set_frame].
Qed.

Lemma broadcast_hear_frame self f t m e :
  env_frame e (_broadcast_hear self f t m e).
Proof.
  unfold _broadcast_hear. generalize (get_agents_in_matrix (world e) (matrix_id self)).
  intros l. apply (foldl_keeps (env_frame e)); [done|].
  intros agent e' He'. destruct (sessions e' !! _); [|done].
  eapply env_frame_trans; [exact He' | apply send_hear_frame].
Qed.

Lemma broadcast_set_world self o a e :
  world (_broadcast_set self o a e) = world e.
Proof.
  unfold _broadcast_set. generalize (get_agents_in_matrix (world e) (matrix_id self)).
  intros l. apply (foldl_keeps (λ e', world e' = world e)); [done|].
  intros agent e' He'. by destruct (sessions e' !! _).
Qed.

Lemma broadcast_hear_world self f t m e :
  world (_broadcast_hear self f t m e) = world e.
Proof.
  unfold _broadcast_hear. generalize (get_agents_in_matrix (world e) (matrix_id self)).
  intros l. apply (foldl_keeps (λ e', world e' = world e)); [done|].
  intros agent e' He'. by destruct (sessions e' !! _).
Qed.

(** ** End of game *)

Lemma reveal_all_ok self e :
  shape self →
  ∃ e', _reveal_all (self, e) = Some (self, e') ∧ env_frame e e'.
Proof.
  intros (Hs & Ht & Hb).
  set (I := λ st : PairPanickingPlugin * Env P, st.1 = self ∧ env_frame e st.2).
  destruct (for_each_inv I
              (λ row, for_each
                        (λ col '(self, e),
                           cell ← grid_get (state self) row col;
                           if is_hidden cell then
                             token_id ← grid_get (token_grid self) row col;
                             symbol ← grid_get (board self) row col;
                             let image_id := default "" (symbol_images self !! symbol) in
                             let e := on_world
                                        (update_token token_id
                                           (λ t, set_image image_id (set_name symbol t))) e in
                             Some (self,
                                   _broadcast_set self token_id
                                     (mkAttrs (Some symbol) None None None None None None
                                              (Some image_id)) e)
                           else Some (self, e))
                        (seq 0 GRID_COLS))
              (seq 0 GRID_ROWS) (self, e)) as ([self' e'] & Hrun & Hself & He).
  - done.
  - intros row st Hrow%elem_of_seq HI.
    apply (for_each_inv I); [done|].
    intros col [self1 e1] Hcol%elem_of_seq [Hs1 He1]. simpl in Hs1. subst self1.
    destruct (Hs row col) as [cell ->]; [lia..|]. simpl.
    destruct (is_hidden cell); [|by eexists].
    destruct (Ht row col) as [tok ->]; [lia..|]. simpl.
    destruct (Hb row col) as [sym ->]; [lia..|]. simpl.
    eexists. split; [done|]. split; [done|]. simpl.
    eapply env_frame_trans; [exact He1|].
    eapply env_frame_trans; [apply update_token_frame | apply broadcast_set_frame].
  - simpl in Hself. subst self'. exists e'. by split.
Qed.

Ltac frame_step :=
  first [ apply broadcast_set_frame | apply broadcast_hear_frame
        | apply update_token_frame | apply update_agent_frame
        | apply send_set_frame | apply send_hear_frame ].

Ltac solve_frame :=
  repeat first [ apply env_frame_refl | eassumption | frame_step
               | (eapply env_frame_trans; [|frame_step]) ].

Lemma game_over_ok has_winner self e :
  (has_winner = false → shape self) →
  ∃ e', _game_over has_winner (self, e)
        = Some (with_game_in_progress false self, e') ∧ env_frame e e'.
Proof.
  intros Hshape. unfold _game_over. cbv zeta.
  destruct has_winner.
  - destruct (Dict.max_key _) as [k|] eqn:Hk.
    + case_bool_decide.
      * apply max_key_in, get_is_Some in Hk as [s Hs]. rewrite Hs. simpl.
        eexists. split; [reflexivity|]. solve_frame.
      * simpl. eexists. split; [reflexivity|]. solve_frame.
    + simpl. eexists. split; [reflexivity|]. solve_frame.
  - destruct (reveal_all_ok (with_game_in_progress false self)
                (_broadcast_hear (with_game_in_progress false self)
                   (matrix_id (with_game_in_progress false self))
                   (matrix_id (with_game_in_progress false self))
                   "Game Over! No active players remain." e))
      as (e1 & He1 & Hf1); [by apply Hshape|].
    rewrite He1. simpl.
    eexists. split; [reflexivity|].
    eapply env_frame_trans; [|eapply env_frame_trans; [exact Hf1|]]; solve_frame.
Qed.

(** ** Marking the two cells *)

Lemma for_each_cons {A S : Type} (body : A → S → option S) a l s :
  for_each body (a :: l) s =
  match body a s with Some s' => for_each body l s' | None => None end.
Proof. done. Qed.

Lemma mark_solved_ok r c self e :
  is_Some (grid_get (state self) r c) →
  is_Some (grid_get (token_grid self) r c) →
  ∃ state' e',
    mark_solved (r, c) (self, e)
    = Some (with_solved_count (solved_count self + 1) (with_state state' self), e')
    ∧ grid_set (state self) r c Solved = Some state' ∧ env_frame e e'.
Proof.
  intros Hs [tok Ht]. unfold mark_solved.
  destruct (grid_set_is_Some (state self) r c Solved Hs) as [state' Hset].
  rewrite Hset. simpl. rewrite Ht. simpl.
  eexists _, _. split_and!; [reflexivity | done |]. solve_frame.
Qed.

Lemma mark_hidden_ok r c self e :
  is_Some (grid_get (state self) r c) →
  is_Some (grid_get (token_grid self) r c) →
  ∃ state' e',
    mark_hidden (r, c) (self, e) = Some (with_state state' self, e')
    ∧ grid_set (state self) r c Hidden = Some state' ∧ env_frame e e'.
Proof.
  intros Hs [tok Ht]. unfold mark_hidden.
  destruct (grid_set_is_Some (state self) r c Hidden Hs) as [state' Hset].
  rewrite Hset. simpl. rewrite Ht. simpl.
  eexists _, _. split_and!; [reflexivity | done |]. solve_frame.
Qed.

(** Both cells of the pair are marked; only the cell states and the
    solved count change. *)
Lemma mark_pair_solved r1 c1 r2 c2 self e :
  shape self →
  (r1 < GRID_ROWS)%nat → (c1 < GRID_COLS)%nat →
  (r2 < GRID_ROWS)%nat → (c2 < GRID_COLS)%nat →
  ∃ state' e',
    for_each mark_solved [(r1, c1); (r2, c2)] (self, e)
    = Some (with_solved_count (solved_count self + 1 + 1) (with_state state' self), e')
    ∧ covers state' ∧ env_frame e e'.
Proof.
  intros (Hs & Ht & _) Hr1 Hc1 Hr2 Hc2.
  destruct (mark_solved_ok r1 c1 self e) as (s1 & e1 & H1 & Hs1 & He1); [auto..|].
  pose proof (grid_set_covers _ _ _ _ _ Hs1 Hs) as Hcov1.
  destruct (mark_solved_ok r2 c2
              (with_solved_count (solved_count self + 1) (with_state s1 self)) e1)
    as (s2 & e2 & H2 & Hs2 & He2); [by apply Hcov1 | by apply Ht |].
  exists s2, e2. rewrite for_each_cons, H1, for_each_cons, H2.
  split_and!; [done| |].
  - by eapply grid_set_covers.
  - by eapply env_frame_trans.
Qed.

Lemma mark_pair_hidden r1 c1 r2 c2 self e :
  shape self →
  (r1 < GRID_ROWS)%nat → (c1 < GRID_COLS)%nat →
  (r2 < GRID_ROWS)%nat → (c2 < GRID_COLS)%nat →
  ∃ state' e',
    for_each mark_hidden [(r1, c1); (r2, c2)] (self, e)
    = Some (with_state state' self, e')
    ∧ covers state' ∧ env_frame e e'.
Proof.
  intros (Hs & Ht & _) Hr1 Hc1 Hr2 Hc2.
  destruct (mark_hidden_ok r1 c1 self e) as (s1 & e1 & H1 & Hs1 & He1); [auto..|].
  pose proof (grid_set_covers _ _ _ _ _ Hs1 Hs) as Hcov1.
  destruct (mark_hidden_ok r2 c2 (with_state s1 self) e1)
    as (s2 & e2 & H2 & Hs2 & He2); [by apply Hcov1 | by apply Ht |].
  exists s2, e2. rewrite for_each_cons, H1, for_each_cons, H2.
  split_and!; [done| |].
  - by eapply grid_set_covers.
  - by eapply env_frame_trans.
Qed.

(** ** The score loops *)

(** The bonus of a match and the penalty of a mismatch. *)
Definition bonus self (agent_id : string) : Z :=
  if bool_decide (trigger_agent self = Some agent_id) then 4 else 0.
Definition penalty self (agent_id : string) : Z :=
  if bool_decide (trigger_agent self = Some agent_id) then 2 else 1.

Definition after_match self (agent_id : string) (s : Z) : Z :=
  s + 2 + bonus self agent_id.
Definition after_mismatch self (agent_id : string) (s : Z) : Z :=
  if bool_decide (s ≤ 0) then s else s - penalty self agent_id.

Lemma award_loop (ks : list string) self e :
  NoDup ks → (∀ k, k ∈ ks → k ∈ Dict.keys (scores self)) →
  ∃ scores' e',
    for_each award ks (self, e) = Some (with_scores scores' self, e')
    ∧ Dict.keys scores' = Dict.keys (scores self)
    ∧ (∀ a, Dict.get a scores' =
            if decide (a ∈ ks) then after_match self a <$> Dict.get a (scores self)
            else Dict.get a (scores self))
    ∧ env_frame e e'.
Proof.
  revert self e. induction ks as [|k ks IH]; intros self e Hnd Hin.
  - exists (scores self), e. split_and!; try done. by destruct self.
  - apply NoDup_cons in Hnd as [Hk Hnd].
    destruct (proj2 (get_is_Some k (scores self))) as [s Hs];
      [apply Hin; by left|].
    rewrite for_each_cons. unfold award at 1. rewrite Hs. simpl.
    set (s' := s + 2 + _).
    set (self1 := with_scores (Dict.set k s' (scores self)) self).
    set (e1 := _broadcast_set self1 k (energy_only s') _).
    assert (Dict.keys (scores self1) = Dict.keys (scores self)) as Hkeys.
    { apply keys_set_present, Hin. by left. }
    destruct (IH self1 e1 Hnd) as (scores' & e' & Hrun & Hkeys' & Hget & He').
    { intros k' Hk'. rewrite Hkeys. apply Hin. by right. }
    exists scores', e'. split_and!.
    + by rewrite Hrun.
    + by rewrite Hkeys'.
    + intros a. rewrite Hget. simpl. rewrite get_set.
      destruct (decide (k = a)) as [<-|Hne].
      * rewrite decide_False by done. rewrite decide_True by by left.
        by rewrite Hs.
      * destruct (decide (a ∈ ks)) as [Ha|Ha].
        -- rewrite decide_True by by right. done.
        -- rewrite decide_False; [done|]. by intros [?|?]%elem_of_cons.
    + eapply env_frame_trans; [|exact He']. subst e1. solve_frame.
Qed.

Lemma deduct_loop (ks : list string) self e (acc : list string) :
  NoDup ks → (∀ k, k ∈ ks → k ∈ Dict.keys (scores self)) →
  ∃ scores' e' acc',
    for_each deduct ks (acc, (self, e)) = Some (acc', (with_scores scores' self, e'))
    ∧ Dict.keys scores' = Dict.keys (scores self)
    ∧ (∀ a, Dict.get a scores' =
            if decide (a ∈ ks) then after_mismatch self a <$> Dict.get a (scores self)
            else Dict.get a (scores self))
    ∧ env_frame e e'.
Proof.
  revert self e acc. induction ks as [|k ks IH]; intros self e acc Hnd Hin.
  - exists (scores self), e, acc. split_and!; try done. by destruct self.
  - apply NoDup_cons in Hnd as [Hk Hnd].
    destruct (proj2 (get_is_Some k (scores self))) as [s Hs];
      [apply Hin; by left|].
    rewrite for_each_cons. unfold deduct at 1. rewrite Hs. simpl.
    destruct (bool_decide (s ≤ 0)) eqn:Hle.
    + destruct (IH self e acc Hnd) as (scores' & e' & acc' & Hrun & Hkeys' & Hget & He').
      { intros k' Hk'. apply Hin. by right. }
      exists scores', e', acc'. split_and!; [done..| |done].
      intros a. rewrite Hget.
      destruct (decide (a = k)) as [->|Hne].
      * rewrite decide_False by done. rewrite decide_True by by left.
        rewrite Hs. simpl. unfold after_mismatch. by rewrite Hle.
      * destruct (decide (a ∈ ks)) as [Ha|Ha].
        -- rewrite decide_True by by right. done.
        -- rewrite decide_False; [done|]. by intros [?|?]%elem_of_cons.
    + set (s' := s - _).
      set (self1 := with_scores (Dict.set k s' (scores self)) self).
      set (e1 := _broadcast_set self1 k (energy_only s') _).
      set (acc1 := if bool_decide (s' ≤ 0) then _ else _).
      assert (Dict.keys (scores self1) = Dict.keys (scores self)) as Hkeys.
      { apply keys_set_present, Hin. by left. }
      destruct (IH self1 e1 acc1 Hnd)
        as (scores' & e' & acc' & Hrun & Hkeys' & Hget & He').
      { intros k' Hk'. rewrite Hkeys. apply Hin. by right. }
      exists scores', e', acc'. split_and!.
      * by rewrite Hrun.
      * by rewrite Hkeys'.
      * intros a. rewrite Hget. simpl. rewrite get_set.
        destruct (decide (k = a)) as [<-|Hne].
        -- rewrite decide_False by done. rewrite decide_True by by left.
           rewrite Hs. simpl. unfold after_mismatch. by rewrite Hle.
        -- destruct (decide (a ∈ ks)) as [Ha|Ha].
           ++ rewrite decide_True by by right. done.
           ++ rewrite decide_False; [done|]. by intros [?|?]%elem_of_cons.
      * eapply env_frame_trans; [|exact He']. subst e1. solve_frame.
Qed.

(** ** Match and mismatch *)

Lemma handle_match_ok r1 c1 r2 c2 self e :
  shape self → NoDup (Dict.keys (scores self)) →
  (r1 < GRID_ROWS)%nat → (c1 < GRID_COLS)%nat →
  (r2 < GRID_ROWS)%nat → (c2 < GRID_COLS)%nat →
  ∃ self' e',
    _handle_match r1 c1 r2 c2 (self, e) = Some (self', e')
    ∧ pp_frame self self' ∧ env_frame e e' ∧ shape self'
    ∧ Dict.keys (scores self') = Dict.keys (scores self)
    ∧ (∀ a, Dict.get a (scores self')
            = after_match self a <$> Dict.get a (scores self)).
Proof.
  intros Hshape Hnd Hr1 Hc1 Hr2 Hc2. unfold _handle_match.
  destruct (mark_pair_solved r1 c1 r2 c2 self e) as (st' & e1 & -> & Hcov & He1);
    [done..|].
  set (self1 := with_solved_count _ _). simpl.
  destruct (award_loop (Dict.keys (scores self1)) self1 e1)
    as (sc' & e2 & Hrun & Hkeys & Hget & He2); [done..|].
  change (Dict.keys (scores self)) with (Dict.keys (scores self1)).
  rewrite Hrun. simpl.
  set (self2 := with_scores sc' self1).
  set (e3 := _broadcast_hear self2 _ _ _ e2).
  assert (env_frame e e3) as He3.
  { eapply env_frame_trans; [exact He1|].
    eapply env_frame_trans; [exact He2|]. subst e3. solve_frame. }
  assert (shape self2) as Hshape2 by (destruct Hshape as (_ & ? & ?); by split_and!).
  assert (∀ a, Dict.get a sc' = after_match self a <$> Dict.get a (scores self))
    as Hget'.
  { intros a. rewrite Hget. case_decide as Ha; [done|].
    change (Dict.get a (scores self) = after_match self a <$> Dict.get a (scores self)).
    destruct (Dict.get a (scores self)) eqn:E; [|done].
    destruct Ha. apply get_is_Some. by eexists. }
  case_bool_decide.
  - destruct (game_over_ok true self2 e3) as (e4 & -> & He4); [done|].
    eexists _, e4. split_and!; [done | by repeat split | | done | done | done].
    by eapply env_frame_trans.
  - eexists _, e3. split_and!; [done | by repeat split | done..].
Qed.

Lemma handle_mismatch_ok r1 c1 r2 c2 self e :
  shape self → NoDup (Dict.keys (scores self)) →
  (r1 < GRID_ROWS)%nat → (c1 < GRID_COLS)%nat →
  (r2 < GRID_ROWS)%nat → (c2 < GRID_COLS)%nat →
  ∃ self' e',
    _handle_mismatch r1 c1 r2 c2 (self, e) = Some (self', e')
    ∧ pp_frame self self' ∧ env_frame e e' ∧ shape self'
    ∧ Dict.keys (scores self') = Dict.keys (scores self)
    ∧ (∀ a, Dict.get a (scores self')
            = after_mismatch self a <$> Dict.get a (scores self)).
Proof.
  intros Hshape Hnd Hr1 Hc1 Hr2 Hc2. unfold _handle_mismatch.
  destruct (mark_pair_hidden r1 c1 r2 c2 self e) as (st' & e1 & -> & Hcov & He1);
    [done..|].
  set (self1 := with_state _ _). simpl.
  destruct (deduct_loop (Dict.keys (scores self1)) self1 e1 [])
    as (sc' & e2 & acc & Hrun & Hkeys & Hget & He2); [done..|].
  change (Dict.keys (scores self)) with (Dict.keys (scores self1)).
  rewrite Hrun. simpl.
  set (self2 := with_scores sc' self1).
  set (e3 := foldl _ e2 acc).
  assert (env_frame e e3) as He3.
  { eapply env_frame_trans; [exact He1|].
    eapply env_frame_trans; [exact He2|]. subst e3.
    apply (foldl_keeps (env_frame e2)); [done|].
    intros a e' He'. eapply env_frame_trans; [exact He'|]. solve_frame. }
  assert (shape self2) as Hshape2 by (destruct Hshape as (_ & ? & ?); by split_and!).
  assert (∀ a, Dict.get a sc' = after_mismatch self a <$> Dict.get a (scores self))
    as Hget'.
  { intros a. rewrite Hget. case_decide as Ha; [done|].
    change (Dict.get a (scores self) = after_mismatch self a <$> Dict.get a (scores self)).
    destruct (Dict.get a (scores self)) eqn:E; [|done].
    destruct Ha. apply get_is_Some. by eexists. }
  match goal with |- context [if ?b then _ else _] => destruct b end.
  - destruct (game_over_ok false self2 e3) as (e4 & -> & He4); [done|].
    eexists _, e4. split_and!; [done | by repeat split | | done | done | done].
    by eapply env_frame_trans.
  - eexists _, e3. split_and!; [done | by repeat split | done..].
Qed.

(** C1: on a well-formed board, resolving a pair as a match adds 2 to
    every tracked score and 4 more to the trigger's; resolving it as a
    mismatch takes 1 from every positive tracked score and 1 more from
    the trigger's (2 in all), and leaves scores at or below zero alone;
    in both cases the set of tracked agents is unchanged. *)
Theorem score_deltas (r1 c1 r2 c2 : nat) self e :
  shape_ok self = true → NoDup (Dict.keys (scores self)) →
  (r1 < GRID_ROWS)%nat → (c1 < GRID_COLS)%nat →
  (r2 < GRID_ROWS)%nat → (c2 < GRID_COLS)%nat →
  (∃ self' e',
     _handle_match r1 c1 r2 c2 (self, e) = Some (self', e')
     ∧ Dict.keys (scores self') = Dict.keys (scores self)
     ∧ ∀ a s, Dict.get a (scores self) = Some s →
         Dict.get a (scores self')
         = Some (s + 2 + if bool_decide (trigger_agent self = Some a)
                         then 4 else 0)) ∧
  (∃ self' e',
     _handle_mismatch r1 c1 r2 c2 (self, e) = Some (self', e')
     ∧ Dict.keys (scores self') = Dict.keys (scores self)
     ∧ ∀ a s, Dict.get a (scores self) = Some s →
         Dict.get a (scores self')
         = Some (if bool_decide (s ≤ 0) then s
                 else s - if bool_decide (trigger_agent self = Some a)
                          then 2 else 1)).
Proof.
  intros Hshape%shape_ok_shape Hnd Hr1 Hc1 Hr2 Hc2. split.
  - destruct (handle_match_ok r1 c1 r2 c2 self e)
      as (self' & e' & Hrun & _ & _ & _ & Hkeys & Hget); [done..|].
    exists self', e'. split_and!; [done..|].
    intros a s Hs. by rewrite Hget, Hs.
  - destruct (handle_mismatch_ok r1 c1 r2 c2 self e)
      as (self' & e' & Hrun & _ & _ & _ & Hkeys & Hget); [done..|].
    exists self', e'. split_and!; [done..|].
    intros a s Hs. by rewrite Hget, Hs.
Qed.

(** ** Restart, enter and leave *)

(** C9: while a game is in progress a click on the restart control
    writes one notice to the clicking agent's session and changes
    nothing else: the plugin (board, cell states, scores, flag), the
    world (token attributes, agent energy), the session table and the
    timers are returned as they were. *)
Theorem restart_during_game
        (move : string → string → string
                → PairPanickingPlugin * Env P → option (PairPanickingPlugin * Env P))
        (home : string) (symbols : list string) (session agent_id : string)
        self e :
  game_in_progress self = true →
  let notice := (session, MsgHear (matrix_id self) agent_id
                            "A game is already in progress!") in
  _handle_restart symbols session agent_id (self, e)
  = Some (self, with_out (out e ++ [notice]) e) ∧
  (restart_token_id self ≠ home_token_id self →
   restart_token_id self ≠ help_token_id self →
   on_click move home symbols session agent_id (restart_token_id self) (self, e)
   = Some (self, with_out (out e ++ [notice]) e)).
Proof.
  intros Hgip notice.
  assert (_handle_restart symbols session agent_id (self, e)
          = Some (self, with_out (out e ++ [notice]) e)) as Hr.
  { unfold _handle_restart. by rewrite Hgip. }
  split; [done|]. intros Hhome Hhelp. unfold on_click.
  rewrite bool_decide_eq_false_2 by done.
  rewrite bool_decide_eq_false_2 by done.
  by rewrite bool_decide_eq_true_2.
Qed.

Lemma get_elem k v (d : Dict.t) : Dict.get k d = Some v → (k, v) ∈ d.
Proof.
  induction d as [|[k' v'] d IH]; simpl; [done|].
  destruct (String.eqb_spec k k') as [->|Hne].
  - intros [= ->]. by left.
  - intros H. right. by apply IH.
Qed.

Lemma active_of_get k v self :
  Dict.get k (scores self) = Some v → 0 < v → k ∈ active self.
Proof.
  intros Hget Hpos. unfold active. apply list_elem_of_fmap.
  exists (k, v). split; [done|]. apply list_elem_of_filter.
  split; [done | by apply get_elem].
Qed.

Lemma update_token_get_agent o f (w : World P) a :
  get_agent (update_token o f w) a = get_agent w a.
Proof.
  unfold update_token, get_agent.
  destruct (objects w !! o) as [[]|] eqn:E; try done. simpl.
  destruct (decide (o = a)) as [->|Hne].
  - by rewrite lookup_insert_eq, E.
  - by rewrite lookup_insert_ne.
Qed.

Lemma update_agent_get_agent a f (w : World P) :
  get_agent (update_agent a f w) a = f <$> get_agent w a.
Proof.
  unfold update_agent, get_agent.
  destruct (objects w !! a) as [[]|] eqn:E; simpl; rewrite ?E; try done.
  by rewrite lookup_insert_eq.
Qed.

(** [on_agent_enter] sets the score and the energy, whatever they were. *)
Lemma on_agent_enter_score session agent_id self e :
  let st := on_agent_enter session agent_id (self, e) in
  Dict.get agent_id (scores st.1) = Some (START_ENERGY - 1) ∧
  energy <$> get_agent (world st.2) agent_id
  = (λ _, START_ENERGY - 1) <$> get_agent (world e) agent_id ∧
  game_in_progress st.1 = game_in_progress self ∧
  board st.1 = board self ∧ state st.1 = state self.
Proof.
  unfold on_agent_enter. cbv zeta. simpl.
  destruct (game_in_progress self) eqn:Hgip; simpl.
  - rewrite get_set_eq, broadcast_hear_world. simpl.
    rewrite update_agent_get_agent. split_and!; try done.
    by destruct (get_agent (world e) agent_id).
  - rewrite get_set_eq, broadcast_set_world. simpl.
    rewrite update_token_get_agent, broadcast_hear_world. simpl.
    rewrite update_agent_get_agent. split_and!; try done.
    by destruct (get_agent (world e) agent_id).
Qed.

(** [on_agent_leave] drops the score. *)
Lemma on_agent_leave_ok session agent_id self e :
  shape self → NoDup (Dict.keys (scores self)) →
  ∃ gip e',
    on_agent_leave session agent_id (self, e)
    = Some (with_game_in_progress gip
              (with_scores (Dict.pop agent_id (scores self)) self), e') ∧
    (active (with_scores (Dict.pop agent_id (scores self)) self) ≠ [] →
     gip = game_in_progress self) ∧
    env_frame e e'.
Proof.
  intros Hshape Hnd. unfold on_agent_leave. cbv zeta.
  set (self1 := with_scores _ self).
  destruct (game_in_progress self1 && bool_decide (active self1 = [])) eqn:Hc.
  - destruct (game_over_ok false self1
                (_broadcast_hear self1 (matrix_id self1) (matrix_id self1)
                   (name_or_id e agent_id +:+ " left PairPanicking.") e))
      as (e' & -> & He'); [done|].
    exists false, e'. split_and!; [done| |].
    + intros Hact.
      apply andb_true_iff in Hc as [_ Hc]. by apply bool_decide_eq_true in Hc.
    + eapply env_frame_trans; [|exact He']. solve_frame.
  - exists (game_in_progress self), (_broadcast_hear self1 (matrix_id self1)
              (matrix_id self1) (name_or_id e agent_id +:+ " left PairPanicking.") e).
    split_and!; [by destruct self | done | solve_frame].
Qed.

(** C10: [on_agent_enter] sets the entering agent's score, and the
    Agent object's energy, to the starting value minus one whatever they
    were; [on_agent_leave] drops the agent's score; so, during a game in
    which another agent is still active, an agent whose score is zero or
    less leaves and re-enters to find itself an active participant of
    the same game, with a positive score. *)
Theorem leave_and_reenter (session agent_id : string) self e :
  shape_ok self = true → NoDup (Dict.keys (scores self)) →
  (let st := on_agent_enter session agent_id (self, e) in
   Dict.get agent_id (scores st.1) = Some (START_ENERGY - 1) ∧
   energy <$> get_agent (world st.2) agent_id
   = (λ _, START_ENERGY - 1) <$> get_agent (world e) agent_id) ∧
  (∃ st, on_agent_leave session agent_id (self, e) = Some st ∧
         Dict.get agent_id (scores st.1) = None) ∧
  (game_in_progress self = true →
   (∃ s, Dict.get agent_id (scores self) = Some s ∧ s ≤ 0) →
   (∃ other s, Dict.get other (scores self) = Some s ∧ 0 < s) →
   ∃ st1, on_agent_leave session agent_id (self, e) = Some st1 ∧
          let st2 := on_agent_enter session agent_id st1 in
          Dict.get agent_id (scores st2.1) = Some (START_ENERGY - 1) ∧
          agent_id ∈ active st2.1 ∧
          game_in_progress st2.1 = true ∧
          board st2.1 = board self ∧ state st2.1 = state self ∧
          solved_count st2.1 = solved_count self).
Proof.
  intros Hshape%shape_ok_shape Hnd.
  destruct (on_agent_leave_ok session agent_id self e Hshape Hnd)
    as (gip & e1 & Hleave & Hgip & _).
  split_and!.
  - pose proof (on_agent_enter_score session agent_id self e) as H.
    cbv zeta in H. by destruct H as (? & ? & _).
  - eexists. split; [exact Hleave|]. simpl. by apply get_pop_eq.
  - intros Hin (s & Hs & Hle) (other & so & Hso & Hpos).
    assert (agent_id ≠ other) as Hne by (intros ->; rewrite Hs in Hso; injection Hso; lia).
    eexists. split; [exact Hleave|]. cbv zeta.
    set (self1 := with_game_in_progress gip _).
    pose proof (on_agent_enter_score session agent_id self1 e1) as H.
    cbv zeta in H. destruct H as (Hget & _ & Hg & Hb & Hst).
    assert (gip = true) as ->.
    { rewrite <-Hin. apply Hgip. intros Hnil.
      assert (other ∈ active (with_scores (Dict.pop agent_id (scores self)) self))
        as Ho.
      { eapply active_of_get; [|exact Hpos]. simpl. by rewrite get_pop_ne. }
      rewrite Hnil in Ho. by apply elem_of_nil in Ho. }
    split_and!; try done.
    all: first [ by (eapply active_of_get; [exact Hget | done])
               | (unfold on_agent_enter; cbv zeta;
                  by destruct (game_in_progress self1)) ].
Qed.

(** ** Resolution and the timer *)

Lemma timer_running_frame self self' e e' :
  timer_task self' = timer_task self → tasks e' = tasks e →
  timer_running self' e' = timer_running self e.
Proof. unfold timer_running. by intros -> ->. Qed.

Lemma cancel_timer_spec self e :
  let st := cancel_timer (self, e) in
  timer_running st.1 st.2 = None ∧
  st.1 = match timer_running self e with
         | Some _ => with_timer_task None self
         | None => self
         end ∧
  world st.2 = world e ∧ out st.2 = out e ∧ sessions st.2 = sessions e ∧
  (∀ h, timer_running self e = Some h → tasks st.2 !! h = Some Cancelled) ∧
  (timer_running self e = None → st = (self, e)).
Proof.
  unfold cancel_timer. destruct (timer_running self e) as [h|] eqn:Hrun; simpl.
  - split_and!; try done. intros h' [= <-].
    unfold timer_running in Hrun.
    destruct (timer_task self) as [h'|]; [|done].
    destruct (tasks e !! h') as [t|] eqn:Ht; [|done].
    destruct (task_done t); [done|]. injection Hrun as ->.
    apply list_lookup_insert_eq. by eapply lookup_lt_Some.
  - by split_and!.
Qed.

(** The body of [_resolve] once the timer has been dealt with. *)
Definition resolve_pair (r1 c1 r2 c2 : nat) (st : PairPanickingPlugin * Env P)
  : option (PairPanickingPlugin * Env P) :=
  let self := with_showing [] st.1 in
  sym1 ← grid_get (board self) r1 c1;
  sym2 ← grid_get (board self) r2 c2;
  if bool_decide (sym1 = sym2)
  then _handle_match r1 c1 r2 c2 (self, st.2)
  else _handle_mismatch r1 c1 r2 c2 (self, st.2).

(** Exactly one of the two handlers runs, on the pending pair. *)
Definition one_handler_ran (r1 c1 r2 c2 : nat) self e
           (st' : PairPanickingPlugin * Env P) : Prop :=
  ∃ sym1 sym2,
    grid_get (board self) r1 c1 = Some sym1 ∧
    grid_get (board self) r2 c2 = Some sym2 ∧
    let st0 := cancel_timer (self, e) in
    Some st' = if bool_decide (sym1 = sym2)
               then _handle_match r1 c1 r2 c2 (with_showing [] st0.1, st0.2)
               else _handle_mismatch r1 c1 r2 c2 (with_showing [] st0.1, st0.2).

Definition in_grid (rc : nat * nat) : Prop :=
  (rc.1 < GRID_ROWS)%nat ∧ (rc.2 < GRID_COLS)%nat.

Lemma resolve_ok r1 c1 r2 c2 rest self e :
  shape self → NoDup (Dict.keys (scores self)) →
  showing self = (r1, c1) :: (r2, c2) :: rest →
  in_grid (r1, c1) → in_grid (r2, c2) →
  ∃ self' e',
    _resolve (self, e) = Some (self', e') ∧
    one_handler_ran r1 c1 r2 c2 self e (self', e') ∧
    showing self' = [] ∧ timer_running self' e' = None ∧
    shape self' ∧ NoDup (Dict.keys (scores self')) ∧
    board self' = board self ∧ token_grid self' = token_grid self ∧
    symbol_images self' = symbol_images self ∧
    (∀ h, timer_running self e = Some h → tasks e' !! h = Some Cancelled) ∧
    (∀ h, tasks e !! h = Some Cancelled → tasks e' !! h = Some Cancelled) ∧
    (∀ h, tasks e' !! h = Some Pending → tasks e !! h = Some Pending).
Proof.
  intros Hshape Hnd Hshow [Hr1 Hc1] [Hr2 Hc2]. simpl in *.
  unfold _resolve, one_handler_ran.
  destruct (cancel_timer_spec self e) as (Hrun0 & Hself0 & _ & _ & _ & Hcanc & Hid).
  destruct (cancel_timer (self, e)) as [self0 e0] eqn:Hct.
  simpl in Hrun0, Hself0, Hcanc, Hid.
  assert (showing self0 = showing self ∧ board self0 = board self ∧
          shape self0 ∧ scores self0 = scores self ∧
          token_grid self0 = token_grid self ∧
          symbol_images self0 = symbol_images self) as (Hs0 & Hb0 & Hsh0 & Hsc0 & Htg0 & Hsi0).
  { rewrite Hself0. by destruct (timer_running self e). }
  rewrite Hs0, Hshow. simpl. rewrite Hb0.
  destruct Hshape as (Hcs & Hct' & Hcb).
  destruct (Hcb r1 c1) as [sym1 Hsym1]; [done..|].
  destruct (Hcb r2 c2) as [sym2 Hsym2]; [done..|].
  rewrite Hsym1, Hsym2. simpl.
  set (selfc := with_showing [] self0).
  assert (shape selfc) as Hshc by (destruct Hsh0 as (? & ? & ?); by split_and!).
  assert (NoDup (Dict.keys (scores selfc))) as Hndc by (simpl; by rewrite Hsc0).
  assert (∃ self' e',
            (if bool_decide (sym1 = sym2)
             then _handle_match r1 c1 r2 c2 (selfc, e0)
             else _handle_mismatch r1 c1 r2 c2 (selfc, e0)) = Some (self', e')
            ∧ pp_frame selfc self' ∧ env_frame e0 e' ∧ shape self'
            ∧ Dict.keys (scores self') = Dict.keys (scores selfc))
    as (self' & e' & Hrun & Hpf & [Htasks _] & Hsh' & Hkeys).
  { case_bool_decide.
    - destruct (handle_match_ok r1 c1 r2 c2 selfc e0)
        as (self' & e' & ? & ? & ? & ? & ? & _); [done..|]. by exists self', e'.
    - destruct (handle_mismatch_ok r1 c1 r2 c2 selfc e0)
        as (self' & e' & ? & ? & ? & ? & ? & _); [done..|]. by exists self', e'. }
  exists self', e'. rewrite Hrun.
  destruct Hpf as (_ & Hb & Htg & _ & Hsw & _ & Htt & _ & _ & _ & Hsi & _).
  split_and!; try done.
  - exists sym1, sym2. by split_and!.
  - rewrite <-Hrun0. by apply timer_running_frame.
  - by rewrite Hkeys.
  - by rewrite Hb.
  - by rewrite Htg.
  - by rewrite Hsi.
  - intros h Hh. rewrite Htasks. by apply Hcanc.
  - intros h Hh. rewrite Htasks.
    destruct (timer_running self e) as [h'|] eqn:Hrun'.
    + assert (e0 = cancel_task h' e) as ->.
      { unfold cancel_timer in Hct. rewrite Hrun' in Hct. by injection Hct. }
      simpl. destruct (decide (h' = h)) as [->|Hne].
      * apply list_lookup_insert_eq. by eapply lookup_lt_Some.
      * by rewrite list_lookup_insert_ne.
    + specialize (Hid eq_refl). by injection Hid as _ ->.
  - intros h. rewrite Htasks.
    destruct (timer_running self e) as [h'|] eqn:Hrun'.
    + assert (e0 = cancel_task h' e) as ->.
      { unfold cancel_timer in Hct. rewrite Hrun' in Hct. by injection Hct. }
      simpl. destruct (decide (h' = h)) as [->|Hne].
      * intros Hp. apply lookup_lt_Some in Hp as Hlt. rewrite length_insert in Hlt.
        rewrite list_lookup_insert_eq in Hp by done. discriminate Hp.
      * by rewrite list_lookup_insert_ne.
    + specialize (Hid eq_refl). by injection Hid as _ ->.
Qed.

(** With fewer than two squares showing and no timer running,
    [_resolve] does nothing at all. *)
Lemma resolve_idle self e :
  (length (showing self) < 2)%nat → timer_running self e = None →
  _resolve (self, e) = Some (self, e).
Proof.
  intros Hlen Hrun. unfold _resolve, cancel_timer. rewrite Hrun.
  destruct (showing self) as [|[r1 c1] [|[r2 c2] rest]]; try done.
  simpl in Hlen. lia.
Qed.

(** ** The third click *)

Lemma reveal_ok agent_id token_id row col self e :
  shape self → in_grid (row, col) → showing self = [] →
  ∃ state' e',
    reveal agent_id token_id row col (self, e)
    = Some (with_showing [(row, col)] (with_state state' self), e') ∧
    grid_get state' row col = Some Showing ∧
    tasks e' = tasks e.
Proof.
  intros (Hcs & _ & Hcb) [Hr Hc] Hshow. simpl in *. unfold reveal.
  destruct (grid_set_is_Some (state self) row col Showing) as [state' Hset];
    [by apply Hcs|].
  rewrite Hset. simpl. rewrite Hshow. simpl.
  destruct (Hcb row col) as [symbol Hsym]; [done..|]. rewrite Hsym. simpl.
  eexists state', _. split_and!; [done| |].
  - rewrite (grid_get_set _ _ _ _ _ row col Hset). by rewrite decide_True.
  - match goal with |- tasks ?x = _ =>
      assert (env_frame e x) as [? _] by solve_frame end. done.
Qed.

(** C4, amended: a click on a hidden square of a well-formed board
    while two squares are showing.  If a game is in progress and the
    clicking agent has a positive tracked score, [on_click] first
    resolves the pending pair, running one handler on it and leaving no
    square showing and no timer running, and only then reveals the
    clicked square, which becomes the single showing square; the pair is
    not resolved a second time.  Otherwise (no game in progress, or a
    clicker whose score is untracked or not positive) the click is
    ignored: nothing is resolved, nothing is revealed, nothing is
    sent. *)
Theorem third_click_resolves_first
        (move : string → string → string
                → PairPanickingPlugin * Env P → option (PairPanickingPlugin * Env P))
        (home : string) (symbols : list string)
        (session agent_id token_id : string) (row col r1 c1 r2 c2 : nat) self e :
  shape_ok self = true → NoDup (Dict.keys (scores self)) →
  token_id ≠ home_token_id self → token_id ≠ help_token_id self →
  token_id ≠ restart_token_id self →
  token_positions self !! token_id = Some (row, col) → in_grid (row, col) →
  grid_get (state self) row col = Some Hidden →
  showing self = [(r1, c1); (r2, c2)] → in_grid (r1, c1) → in_grid (r2, c2) →
  let accepted :=
    game_in_progress self = true ∧
    ∃ s, Dict.get agent_id (scores self) = Some s ∧ 0 < s in
  (accepted →
   ∃ st1 st2,
     _resolve (self, e) = Some st1 ∧
     one_handler_ran r1 c1 r2 c2 self e st1 ∧
     showing st1.1 = [] ∧ timer_running st1.1 st1.2 = None ∧
     reveal agent_id token_id row col st1 = Some st2 ∧
     on_click move home symbols session agent_id token_id (self, e) = Some st2 ∧
     showing st2.1 = [(row, col)] ∧
     grid_get (state st2.1) row col = Some Showing ∧
     timer_running st2.1 st2.2 = None ∧
     _resolve st2 = Some st2) ∧
  (¬ accepted →
   on_click move home symbols session agent_id token_id (self, e)
   = Some (self, e)).
Proof.
  intros Hshape%shape_ok_shape Hnd Hhome Hhelp Hrestart Hpos Hin
         Hcell Hshow Hin1 Hin2 accepted.
  split.
  - intros (Hgip & s & Hs & Hspos).
    destruct (resolve_ok r1 c1 r2 c2 [] self e)
      as (self1 & e1 & Hres & Hone & Hsh1 & Hrun1 & Hshape1 & _);
      [done..|].
    destruct (reveal_ok agent_id token_id row col self1 e1)
      as (state' & e2 & Hrev & Hget & Htasks); [done..|].
    exists (self1, e1), (with_showing [(row, col)] (with_state state' self1), e2).
    assert (timer_running (with_showing [(row, col)] (with_state state' self1)) e2
            = None) as Hrun2.
    { rewrite <-Hrun1. by apply timer_running_frame. }
    split_and!; try done.
    + unfold on_click.
      rewrite !bool_decide_eq_false_2 by done.
      rewrite Hpos, Hgip, Hs. simpl.
      rewrite bool_decide_eq_false_2 by lia.
      rewrite Hcell. simpl. rewrite Hshow. simpl. by rewrite Hres.
    + apply resolve_idle; [simpl; lia | done].
  - intros Hno. unfold on_click.
    rewrite !bool_decide_eq_false_2 by done. rewrite Hpos.
    destruct (game_in_progress self) eqn:Hgip; [|done]. simpl.
    case_bool_decide as Hscore; [done|].
    exfalso. apply Hno. split; [done|].
    destruct (Dict.get agent_id (scores self)) as [s|]; simpl in Hscore;
      [|lia].
    exists s. split; [done|lia].
Qed.

End Game.

(** ** The theorems at concrete runs *)

Lemma score_deltas_witness :
  ∃ self' e',
    _handle_match 0 0 2 0 (Scenario.pair_game, Scenario.pair_env) = Some (self', e')
    ∧ Dict.keys (scores self') = Dict.keys (scores Scenario.pair_game)
    ∧ ∀ a s, Dict.get a (scores Scenario.pair_game) = Some s →
        Dict.get a (scores self')
        = Some (s + 2 + if bool_decide (trigger_agent Scenario.pair_game = Some a)
                        then 4 else 0).
Proof.
  refine (proj1 (score_deltas 0 0 2 0 Scenario.pair_game Scenario.pair_env
                   _ _ _ _ _ _)).
  - vm_compute. reflexivity.
  - assert (Dict.keys (scores Scenario.pair_game) = ["a1"; "a2"]) as ->
      by (vm_compute; reflexivity).
    apply NoDup_cons. split; [intros H%list_elem_of_singleton; discriminate H|].
    apply NoDup_singleton.
  - unfold GRID_ROWS. lia.
  - unfold GRID_COLS. lia.
  - unfold GRID_ROWS. lia.
  - unfold GRID_COLS. lia.
Defined.


Lemma scenario_keys_NoDup (oe : option Server.State) :
  Dict.keys (scores (Scenario.game_of oe)) = ["a1"; "a2"] →
  NoDup (Dict.keys (scores (Scenario.game_of oe))).
Proof.
  intros ->. apply NoDup_cons. split; [intros H%list_elem_of_singleton; discriminate H|].
  apply NoDup_singleton.
Qed.

Lemma in_grid_lt (r c : nat) : (r <? 8)%nat && (c <? 8)%nat = true → in_grid (r, c).
Proof.
  intros [Hr Hc]%andb_true_iff. apply Nat.ltb_lt in Hr, Hc. by split.
Qed.

Lemma third_click_resolves_first_witness :
  ∃ st1 st2,
    _resolve (Scenario.pair_game, Scenario.pair_env) = Some st1 ∧
    one_handler_ran 0 0 2 0 Scenario.pair_game Scenario.pair_env st1 ∧
    showing st1.1 = [] ∧ timer_running st1.1 st1.2 = None ∧
    reveal "a1" "t3" 0 1 st1 = Some st2 ∧
    on_click Server.move_agent_to_matrix_from "m1" Scenario.deck "a1" "a1" "t3"
             (Scenario.pair_game, Scenario.pair_env) = Some st2 ∧
    showing st2.1 = [(0, 1)%nat] ∧
    grid_get (state st2.1) 0 1 = Some Showing ∧
    timer_running st2.1 st2.2 = None ∧
    _resolve st2 = Some st2.
Proof.
  refine (proj1 (third_click_resolves_first Server.move_agent_to_matrix_from
                   "m1" Scenario.deck "a1" "a1" "t3" 0 1 0 0 2 0
                   Scenario.pair_game Scenario.pair_env
                   _ _ _ _ _ _ _ _ _ _ _) _).
  - vm_compute. reflexivity.
  - apply (scenario_keys_NoDup Scenario.pair_showing). vm_compute. reflexivity.
  - intros H. vm_compute in H. discriminate H.
  - intros H. vm_compute in H. discriminate H.
  - intros H. vm_compute in H. discriminate H.
  - vm_compute. reflexivity.
  - by apply in_grid_lt.
  - vm_compute. reflexivity.
  - vm_compute. reflexivity.
  - by apply in_grid_lt.
  - by apply in_grid_lt.
  - split; [vm_compute; reflexivity|].
    exists 9. split; [vm_compute; reflexivity | lia].
Defined.

(** C4, as stated, fails: a click on a hidden cell while two cells are
    showing need not resolve anything.  bob ("a1") has been eliminated
    (score -1) and eve has turned over a second square, so that squares
    (1,2) and (1,3) are showing and their timer is pending; bob's click
    on the hidden square (1,5) returns at the score check, leaving the
    pair showing, the timer pending and the clicked square hidden. *)
Lemma eliminated_click_resolves_nothing :
  let self := Scenario.two_showing_game in
  let e := Scenario.two_showing_env in
  game_in_progress self = true ∧
  Dict.get "a1" (scores self) = Some (-1) ∧
  showing self = [(1, 2)%nat; (1, 3)%nat] ∧
  token_positions self !! "t15" = Some (1, 5)%nat ∧
  grid_get (state self) 1 5 = Some Hidden ∧
  timer_running self e = Some 5%nat ∧
  on_click Server.move_agent_to_matrix_from "m1" Scenario.deck
           "a1" "a1" "t15" (self, e)
  = Some (self, e).
Proof. split_and!; vm_compute; reflexivity. Qed.



Lemma restart_during_game_witness :
  _handle_restart Scenario.deck "a1" "a1" (Scenario.game, Scenario.game_env)
  = Some (Scenario.game,
          with_out (out Scenario.game_env
                      ++ [("a1", MsgHear (matrix_id Scenario.game) "a1"
                                   "A game is already in progress!")])
                   Scenario.game_env).
Proof.
  refine (proj1 (restart_during_game Server.move_agent_to_matrix_from "m1"
                   Scenario.deck "a1" "a1" Scenario.game Scenario.game_env _)).
  vm_compute. reflexivity.
Defined.

Lemma leave_and_reenter_witness :
  ∃ st1, on_agent_leave "a1" "a1" (Scenario.bob_out_game, Scenario.bob_out_env)
         = Some st1 ∧
         let st2 := on_agent_enter "a1" "a1" st1 in
         Dict.get "a1" (scores st2.1) = Some (START_ENERGY - 1) ∧
         "a1" ∈ active st2.1 ∧
         game_in_progress st2.1 = true ∧
         board st2.1 = board Scenario.bob_out_game ∧
         state st2.1 = state Scenario.bob_out_game ∧
         solved_count st2.1 = solved_count Scenario.bob_out_game.
Proof.
  refine (proj2 (proj2 (leave_and_reenter "a1" "a1" Scenario.bob_out_game
                          Scenario.bob_out_env _ _)) _ _ _).
  - vm_compute. reflexivity.
  - apply (scenario_keys_NoDup Scenario.bob_out). vm_compute. reflexivity.
  - vm_compute. reflexivity.
  - exists (-1). split; [vm_compute; reflexivity | lia].
  - exists "a2", 4. split; [vm_compute; reflexivity | lia].
Defined.

End PairProps.

(* ===================================================================== *)
(** * The timer task against the handlers run to completion *)
(* ===================================================================== *)

Module TimerProps.
Import Objects Protocol WorldM SessionM PairPanicking DictProps PairProps.
Import TimerTask(Budget, Outcome, Returned, CancelledError, Raised, bind,
                 lookup, of_plugin).

#[local] Arguments PairPanicking._game_over : simpl never.
#[local] Arguments PairPanicking._reveal_all : simpl never.
#[local] Arguments PairPanicking._handle_match : simpl never.
#[local] Arguments PairPanicking._handle_mismatch : simpl never.
#[local] Arguments PairPanicking._resolve : simpl never.
#[local] Arguments PairPanicking._broadcast_set : simpl never.
#[local] Arguments PairPanicking._broadcast_hear : simpl never.
#[local] Arguments TimerTask._broadcast_set : simpl never.
#[local] Arguments TimerTask._broadcast_hear : simpl never.
#[local] Arguments TimerTask._game_over : simpl never.
#[local] Arguments TimerTask._reveal_all : simpl never.
#[local] Arguments TimerTask._handle_match : simpl never.
#[local] Arguments TimerTask._handle_mismatch : simpl never.
#[local] Arguments cancel_timer : simpl never.
#[local] Arguments TimerTask.send_set : simpl never.
#[local] Arguments TimerTask.send_hear : simpl never.
#[local] Arguments SessionM.send_set : simpl never.
#[local] Arguments SessionM.send_hear : simpl never.

(** A function of the timer task against the same function run to
    completion.  If it returns, the other returns the same state; if it
    is cut short, some send suspended; if it raises, so does the other.
    In each case the view [vx] of the state (what the resolution must
    not touch) is what it was. *)
Definition sim {XB X C V : Type} (strip : XB → X) (budget : XB → Budget)
           (vx : X → V) (vc : C → V)
           (fc : XB → Outcome C XB) (f : X → option X) : Prop :=
  ∀ xb, match fc xb with
        | Returned xb' =>
            f (strip xb) = Some (strip xb') ∧ vx (strip xb') = vx (strip xb) ∧
            (budget xb = None → budget xb' = None)
        | CancelledError c => vc c = vx (strip xb) ∧ budget xb ≠ None
        | Raised => f (strip xb) = None
        end.

Lemma sim_for_each {A XB X C V : Type} (strip : XB → X) (budget : XB → Budget)
      (vx : X → V) (vc : C → V)
      (body : A → XB → Outcome C XB) (body_old : A → X → option X) l :
  (∀ a, sim strip budget vx vc (body a) (body_old a)) →
  sim strip budget vx vc (TimerTask.for_each body l) (for_each body_old l).
Proof.
  intros Hbody. induction l as [|a l IH]; intros xb; simpl; [done|].
  pose proof (Hbody a xb) as Ha.
  destruct (body a xb) as [xb1|c|]; simpl.
  - destruct Ha as (Hf & Hv & Hb). rewrite Hf.
    pose proof (IH xb1) as Hl.
    destruct (TimerTask.for_each body l xb1) as [xb2|c|].
    + destruct Hl as (Hf2 & Hv2 & Hb2). split_and!; [done|congruence|auto].
    + destruct Hl as [Hv2 Hb2]. split; [congruence|auto].
    + done.
  - done.
  - by rewrite Ha.
Qed.

Lemma sim_bind {XB X C V : Type} (strip : XB → X) (budget : XB → Budget)
      (vx : X → V) (vc : C → V)
      (fc gc : XB → Outcome C XB) (f g : X → option X) :
  sim strip budget vx vc fc f → sim strip budget vx vc gc g →
  sim strip budget vx vc (λ xb, bind (fc xb) gc) (λ x, f x ≫= g).
Proof.
  intros Hf Hg xb. pose proof (Hf xb) as Ha.
  destruct (fc xb) as [xb1|c|]; simpl.
  - destruct Ha as (Hf1 & Hv & Hb). rewrite Hf1. simpl.
    pose proof (Hg xb1) as Hl.
    destruct (gc xb1) as [xb2|c|].
    + destruct Hl as (Hf2 & Hv2 & Hb2). split_and!; [done|congruence|auto].
    + destruct Hl as [Hv2 Hb2]. split; [congruence|auto].
    + done.
  - done.
  - by rewrite Ha.
Qed.

Lemma for_each_total {A X : Type} (g : X → A → X) l x :
  for_each (λ a x, Some (g x a)) l x = Some (foldl g x l).
Proof. revert x. induction l as [|a l IH]; intros x; simpl; [done|]. apply IH. Qed.

Section Sim.
Context {P : Type}.
Variable written : bool.
Implicit Types (self : PairPanickingPlugin) (e : Env P) (b : Budget).

Abbreviation St := (PairPanickingPlugin * Env P)%type.

(** What no step of a resolution touches. *)
Definition view (st : St) : list (nat * nat) * option nat * list TaskStatus :=
  (showing st.1, timer_task st.1, tasks st.2).

Abbreviation sim_env := (sim (X := Env P) snd fst tasks tasks).
Abbreviation sim_st := (sim (X := St) snd fst view view).

Lemma send_sim sid msg :
  sim_env (TimerTask.send written sid msg) (λ e, Some (SessionM.send sid msg e)).
Proof. intros [[[|k]|] e]; simpl; [|done..]. by destruct written. Qed.

Lemma send_set_sim sid o a :
  sim_env (TimerTask.send_set written sid o a) (λ e, Some (SessionM.send_set sid o a e)).
Proof.
  intros [[[|k]|] e]; unfold TimerTask.send_set; simpl; [|done..].
  by destruct written.
Qed.

Lemma send_hear_sim sid f t m :
  sim_env (TimerTask.send_hear written sid f t m)
          (λ e, Some (SessionM.send_hear sid f t m e)).
Proof.
  intros [[[|k]|] e]; unfold TimerTask.send_hear; simpl; [|done..].
  by destruct written.
Qed.

Lemma broadcast_set_sim self o a :
  sim_env (TimerTask._broadcast_set written self o a)
          (λ e, Some (PairPanicking._broadcast_set self o a e)).
Proof.
  intros [b e]. unfold TimerTask._broadcast_set, PairPanicking._broadcast_set.
  rewrite <-for_each_total. simpl snd.
  apply (sim_for_each snd fst tasks tasks). clear.
  intros agent [b e]. simpl.
  destruct (sessions e !! objid (base agent)); [|done].
  apply (send_set_sim _ _ _ (b, e)).
Qed.

Lemma broadcast_hear_sim self f t m :
  sim_env (TimerTask._broadcast_hear written self f t m)
          (λ e, Some (PairPanicking._broadcast_hear self f t m e)).
Proof.
  intros [b e]. unfold TimerTask._broadcast_hear, PairPanicking._broadcast_hear.
  rewrite <-for_each_total. simpl snd.
  apply (sim_for_each snd fst tasks tasks). clear.
  intros agent [b e]. simpl.
  destruct (sessions e !! objid (base agent)); [|done].
  apply (send_hear_sim _ _ _ _ (b, e)).
Qed.

(** A broadcast as a step of the plugin. *)
Lemma of_plugin_sim self0 self (fc : Budget * Env P → Outcome (Env P) (Budget * Env P))
      (f : Env P → Env P) b e0 e :
  sim_env fc (λ e, Some (f e)) →
  showing self = showing self0 → timer_task self = timer_task self0 →
  tasks e = tasks e0 →
  match of_plugin self (fc (b, e)) with
  | Returned (b', st') =>
      st' = (self, f e) ∧ view st' = view (self0, e0) ∧ (b = None → b' = None)
  | CancelledError c => view c = view (self0, e0) ∧ b ≠ None
  | Raised => False
  end.
Proof.
  intros Hsim Hs Ht He. pose proof (Hsim (b, e)) as H.
  destruct (fc (b, e)) as [[b' e']|c|]; simpl in *.
  - destruct H as ([= ->] & Hv & Hb). unfold view. simpl.
    split_and!; [done|congruence|done].
  - destruct H as [Hv Hb]. unfold view. simpl. split; [congruence|done].
  - done.
Qed.

Lemma broadcast_set_step self0 e0 self o a b e :
  showing self = showing self0 → timer_task self = timer_task self0 →
  tasks e = tasks e0 →
  match of_plugin self (TimerTask._broadcast_set written self o a (b, e)) with
  | Returned xb' =>
      Some (self, PairPanicking._broadcast_set self o a e) = Some xb'.2 ∧
      view xb'.2 = view (self0, e0) ∧ (b = None → xb'.1 = None)
  | CancelledError c => view c = view (self0, e0) ∧ b ≠ None
  | Raised => Some (self, PairPanicking._broadcast_set self o a e) = None
  end.
Proof.
  intros Hs Ht He.
  pose proof (of_plugin_sim self0 self _ _ b e0 e
                (broadcast_set_sim self o a) Hs Ht He) as H.
  destruct (of_plugin _ _) as [[b' st']|c|]; [|done..].
  destruct H as (-> & Hv & Hb). done.
Qed.

Lemma broadcast_hear_step self0 e0 self f t m b e :
  showing self = showing self0 → timer_task self = timer_task self0 →
  tasks e = tasks e0 →
  match of_plugin self (TimerTask._broadcast_hear written self f t m (b, e)) with
  | Returned xb' =>
      Some (self, PairPanicking._broadcast_hear self f t m e) = Some xb'.2 ∧
      view xb'.2 = view (self0, e0) ∧ (b = None → xb'.1 = None)
  | CancelledError c => view c = view (self0, e0) ∧ b ≠ None
  | Raised => Some (self, PairPanicking._broadcast_hear self f t m e) = None
  end.
Proof.
  intros Hs Ht He.
  pose proof (of_plugin_sim self0 self _ _ b e0 e
                (broadcast_hear_sim self f t m) Hs Ht He) as H.
  destruct (of_plugin _ _) as [[b' st']|c|]; [|done..].
  destruct H as (-> & Hv & Hb). done.
Qed.

Lemma mark_solved_sim rc :
  sim_st (TimerTask.mark_solved written rc) (PairPanicking.mark_solved rc).
Proof.
  intros [b [self e]]. destruct rc as [r c].
  unfold TimerTask.mark_solved, PairPanicking.mark_solved. simpl.
  destruct (grid_set (state self) r c Solved) as [state'|]; simpl; [|done].
  destruct (grid_get (token_grid self) r c) as [token_id|]; simpl; [|done].
  by apply broadcast_set_step.
Qed.

Lemma mark_hidden_sim rc :
  sim_st (TimerTask.mark_hidden written rc) (PairPanicking.mark_hidden rc).
Proof.
  intros [b [self e]]. destruct rc as [r c].
  unfold TimerTask.mark_hidden, PairPanicking.mark_hidden. simpl.
  destruct (grid_set (state self) r c Hidden) as [state'|]; simpl; [|done].
  destruct (grid_get (token_grid self) r c) as [token_id|]; simpl; [|done].
  by apply broadcast_set_step.
Qed.

Lemma award_sim agent_id :
  sim_st (TimerTask.award written agent_id) (PairPanicking.award agent_id).
Proof.
  intros [b [self e]].
  unfold TimerTask.award, PairPanicking.award. simpl.
  destruct (Dict.get agent_id (scores self)) as [s|]; simpl; [|done].
  by apply broadcast_set_step.
Qed.

Lemma deduct_sim agent_id :
  sim (λ x : list string * (Budget * St), (x.1, x.2.2)) (λ x, x.2.1)
      (λ x, view x.2) view
      (TimerTask.deduct written agent_id) (PairPanicking.deduct agent_id).
Proof.
  intros [l [b [self e]]].
  unfold TimerTask.deduct, PairPanicking.deduct. simpl.
  destruct (Dict.get agent_id (scores self)) as [s|]; simpl; [|done].
  case_bool_decide as Hle; [done|].
  match goal with
  | |- context [of_plugin ?self' (TimerTask._broadcast_set _ _ ?o ?a (_, ?e'))] =>
      pose proof (broadcast_set_step self e self' o a b e'
                    eq_refl eq_refl eq_refl) as Hstep;
      destruct (of_plugin self' (TimerTask._broadcast_set written self' o a (b, e')))
        as [[b' st']|c|]
  end; simpl in *; [|done..].
  destruct Hstep as ([= <-] & Hv & Hb). done.
Qed.

Lemma reveal_all_sim :
  sim_st (TimerTask._reveal_all written) PairPanicking._reveal_all.
Proof.
  unfold TimerTask._reveal_all, PairPanicking._reveal_all.
  apply (sim_for_each snd fst view view). intros row.
  apply (sim_for_each snd fst view view). intros col [b [self e]]. simpl.
  destruct (grid_get (state self) row col) as [cell|]; simpl; [|done].
  destruct (is_hidden cell); [|done].
  destruct (grid_get (token_grid self) row col) as [token_id|]; simpl; [|done].
  destruct (grid_get (board self) row col) as [symbol|]; simpl; [|done].
  by apply broadcast_set_step.
Qed.

(** Stages of the handlers, each against its counterpart. *)
Definition restart_stage_c : Budget * St → Outcome St (Budget * St) :=
  λ '(b, (self, e)),
    let e := on_world (update_token (restart_token_id self) (set_energy 1)) e in
    of_plugin self
      (TimerTask._broadcast_set written self (restart_token_id self)
         (energy_only 1) (b, e)).

Definition restart_stage : St → option St :=
  λ '(self, e),
    let e := on_world (update_token (restart_token_id self) (set_energy 1)) e in
    Some (self, PairPanicking._broadcast_set self (restart_token_id self)
                  (energy_only 1) e).

Definition winner_stage_c (has_winner : bool)
  : Budget * St → Outcome St (Budget * St) :=
  λ '(b, (self, e)),
    let mid := matrix_id self in
    if has_winner then
      match Dict.max_key (scores self) with
      | Some winner_id =>
          if bool_decide (winner_id ≠ "") then
            let name := name_or_id e winner_id in
            bind (lookup (Dict.get winner_id (scores self))) (λ score,
            of_plugin self
              (TimerTask._broadcast_hear written self mid mid
                 ("Game Over! " +:+ name +:+ " wins with "
                    +:+ pretty score +:+ " points!") (b, e)))
          else of_plugin self
                 (TimerTask._broadcast_hear written self mid mid "Game Over!" (b, e))
      | None => of_plugin self
                  (TimerTask._broadcast_hear written self mid mid "Game Over!" (b, e))
      end
    else
      bind (of_plugin self
              (TimerTask._broadcast_hear written self mid mid
                 "Game Over! No active players remain." (b, e)))
           (TimerTask._reveal_all written).

Definition winner_stage (has_winner : bool) : St → option St :=
  λ '(self, e),
    let mid := matrix_id self in
    if has_winner then
      match Dict.max_key (scores self) with
      | Some winner_id =>
          if bool_decide (winner_id ≠ "") then
            let name := name_or_id e winner_id in
            score ← Dict.get winner_id (scores self);
            Some (self,
                  PairPanicking._broadcast_hear self mid mid
                    ("Game Over! " +:+ name +:+ " wins with "
                       +:+ pretty score +:+ " points!") e)
          else Some (self, PairPanicking._broadcast_hear self mid mid "Game Over!" e)
      | None => Some (self, PairPanicking._broadcast_hear self mid mid "Game Over!" e)
      end
    else
      PairPanicking._reveal_all
        (self, PairPanicking._broadcast_hear self mid mid
                 "Game Over! No active players remain." e).

Lemma restart_stage_sim : sim_st restart_stage_c restart_stage.
Proof. intros [b [self e]]. simpl. by apply broadcast_set_step. Qed.

Lemma winner_stage_sim has_winner :
  sim_st (winner_stage_c has_winner) (winner_stage has_winner).
Proof.
  intros [b [self e]]. unfold winner_stage_c, winner_stage. cbn [fst snd].
  cbv zeta. destruct has_winner.
  - destruct (Dict.max_key (scores self)) as [winner_id|].
    + case_bool_decide.
      * destruct (Dict.get winner_id (scores self)) as [score|]; simpl; [|done].
        by apply broadcast_hear_step.
      * by apply broadcast_hear_step.
    + by apply broadcast_hear_step.
  - pose proof (broadcast_hear_step self e self (matrix_id self)
                  (matrix_id self) "Game Over! No active players remain."
                  b e eq_refl eq_refl eq_refl) as Hh.
    destruct (of_plugin self _) as [[b1 st1]|c|]; simpl in *; [|done..].
    destruct Hh as ([= <-] & Hv & Hb).
    match goal with
    | |- match TimerTask._reveal_all _ ?x with _ => _ end =>
        pose proof (reveal_all_sim x) as Hr;
        destruct (TimerTask._reveal_all written x) as [[b2 st2]|c|]; simpl in *
    end.
    + destruct Hr as (Hr & Hv2 & Hb2). split_and!; [done|congruence|auto].
    + destruct Hr as [Hv2 Hb2]. split; [congruence|auto].
    + done.
Qed.

Lemma game_over_sim has_winner :
  sim_st (TimerTask._game_over written has_winner)
         (PairPanicking._game_over has_winner).
Proof.
  intros [b [self e]].
  exact (sim_bind snd fst view view _ _ _ _
           (winner_stage_sim has_winner) restart_stage_sim
           (b, (with_game_in_progress false self, e))).
Qed.

Definition award_stage_c : Budget * St → Outcome St (Budget * St) :=
  λ bst, TimerTask.for_each (TimerTask.award written)
           (Dict.keys (scores bst.2.1)) bst.
Definition award_stage : St → option St :=
  λ st, for_each PairPanicking.award (Dict.keys (scores st.1)) st.

Definition found_stage_c : Budget * St → Outcome St (Budget * St) :=
  λ '(b, (self, e)),
    of_plugin self
      (TimerTask._broadcast_hear written self (matrix_id self) (matrix_id self)
         (trigger_name self e +:+ " found a match!") (b, e)).
Definition found_stage : St → option St :=
  λ '(self, e),
    Some (self, PairPanicking._broadcast_hear self (matrix_id self)
                  (matrix_id self) (trigger_name self e +:+ " found a match!") e).

Definition win_stage_c : Budget * St → Outcome St (Budget * St) :=
  λ '(b, (self, e)),
    if bool_decide (TOTAL_SQUARES ≤ solved_count self)
    then TimerTask._game_over written true (b, (self, e))
    else Returned (b, (self, e)).
Definition win_stage : St → option St :=
  λ '(self, e),
    if bool_decide (TOTAL_SQUARES ≤ solved_count self)
    then PairPanicking._game_over true (self, e)
    else Some (self, e).

Lemma award_stage_sim : sim_st award_stage_c award_stage.
Proof.
  intros xb. unfold award_stage_c, award_stage.
  apply (sim_for_each snd fst view view), award_sim.
Qed.

Lemma found_stage_sim : sim_st found_stage_c found_stage.
Proof. intros [b [self e]]. simpl. by apply broadcast_hear_step. Qed.

Lemma win_stage_sim : sim_st win_stage_c win_stage.
Proof.
  intros [b [self e]]. unfold win_stage_c, win_stage. cbn [fst snd].
  case_bool_decide; [|done]. apply (game_over_sim true (b, (self, e))).
Qed.

Lemma handle_match_stages_c r1 c1 r2 c2 bst :
  TimerTask._handle_match written r1 c1 r2 c2 bst
  = bind (TimerTask.for_each (TimerTask.mark_solved written)
            [(r1, c1); (r2, c2)] bst)
         (λ bst, bind (award_stage_c bst)
                      (λ bst, bind (found_stage_c bst) win_stage_c)).
Proof.
  unfold TimerTask._handle_match.
  destruct (TimerTask.for_each _ [_; _] bst) as [bst1|c|]; [|done..].
  cbn [bind]. unfold award_stage_c.
  destruct (TimerTask.for_each _ (Dict.keys _) bst1) as [[b [self e]]|c|];
    [|done..].
  cbn [bind]. unfold found_stage_c.
  by destruct (of_plugin self _) as [[b1 [self1 e1]]|c|].
Qed.

Lemma handle_match_stages r1 c1 r2 c2 (st : St) :
  PairPanicking._handle_match r1 c1 r2 c2 st
  = for_each PairPanicking.mark_solved [(r1, c1); (r2, c2)] st
    ≫= λ st, award_stage st ≫= λ st, found_stage st ≫= win_stage.
Proof.
  unfold PairPanicking._handle_match.
  destruct (for_each _ [_; _] st) as [st1|]; [|done].
  cbn [mbind option_bind]. unfold award_stage.
  by destruct (for_each _ (Dict.keys _) st1) as [[self e]|].
Qed.

Lemma handle_match_sim r1 c1 r2 c2 :
  sim_st (TimerTask._handle_match written r1 c1 r2 c2)
         (PairPanicking._handle_match r1 c1 r2 c2).
Proof.
  intros xb. rewrite handle_match_stages_c, handle_match_stages.
  revert xb.
  apply (sim_bind snd fst view view);
    [apply (sim_for_each snd fst view view), mark_solved_sim|].
  apply (sim_bind snd fst view view); [apply award_stage_sim|].
  apply (sim_bind snd fst view view); [apply found_stage_sim|].
  apply win_stage_sim.
Qed.

Definition eliminate_stage_c : Budget * St → Outcome St (Budget * St) :=
  λ bst,
    bind (TimerTask.for_each (TimerTask.deduct written)
            (Dict.keys (scores bst.2.1)) ([], bst))
         (λ '(newly_inactive, (b, (self, e))),
            of_plugin self
              (TimerTask.for_each
                 (λ agent_id '(b, e),
                    TimerTask._broadcast_hear written self (matrix_id self)
                      (matrix_id self)
                      (name_or_id e agent_id +:+ " has been eliminated!") (b, e))
                 newly_inactive (b, e))).
Definition eliminate_stage : St → option St :=
  λ st,
    '(newly_inactive, (self, e)) ←
      for_each PairPanicking.deduct (Dict.keys (scores st.1)) ([], st);
    Some (self,
          foldl (λ e agent_id,
                   PairPanicking._broadcast_hear self (matrix_id self)
                     (matrix_id self)
                     (name_or_id e agent_id +:+ " has been eliminated!") e)
                e newly_inactive).

Definition lose_stage_c : Budget * St → Outcome St (Budget * St) :=
  λ '(b, (self, e)),
    if bool_decide (active self = []) && game_in_progress self
    then TimerTask._game_over written false (b, (self, e))
    else Returned (b, (self, e)).
Definition lose_stage : St → option St :=
  λ '(self, e),
    if bool_decide (active self = []) && game_in_progress self
    then PairPanicking._game_over false (self, e)
    else Some (self, e).

Lemma eliminate_stage_sim : sim_st eliminate_stage_c eliminate_stage.
Proof.
  intros [b [self e]]. unfold eliminate_stage_c, eliminate_stage. cbn [fst snd].
  pose proof (sim_for_each (λ x : list string * (Budget * St), (x.1, x.2.2))
                (λ x, x.2.1) (λ x, view x.2) view
                (TimerTask.deduct written) PairPanicking.deduct
                (Dict.keys (scores self)) deduct_sim ([], (b, (self, e)))) as Hd.
  destruct (TimerTask.for_each _ _ ([], _)) as [[ni [b1 [self1 e1]]]|c|];
    cbn [fst snd bind] in *; [|done|by rewrite Hd].
  destruct Hd as (-> & Hv & Hb). cbn [mbind option_bind].
  injection Hv as Hv1 Hv2 Hv3.
  pose proof (of_plugin_sim self self1
                (TimerTask.for_each
                   (λ agent_id '(b, e),
                      TimerTask._broadcast_hear written self1 (matrix_id self1)
                        (matrix_id self1)
                        (name_or_id e agent_id +:+ " has been eliminated!") (b, e))
                   ni)
                (λ e, foldl (λ e agent_id,
                               PairPanicking._broadcast_hear self1 (matrix_id self1)
                                 (matrix_id self1)
                                 (name_or_id e agent_id +:+ " has been eliminated!") e)
                            e ni)
                b1 e e1) as Hh.
  destruct (of_plugin self1 _) as [[b2 st2]|c|].
  - destruct Hh as (-> & Hv' & Hb'); [|done..|].
    + intros [b' e']. rewrite <-for_each_total.
      apply (sim_for_each snd fst tasks tasks). clear.
      intros agent_id [b e]. apply (broadcast_hear_sim _ _ _ _ (b, e)).
    + split_and!; [done|done|auto].
  - destruct Hh as (Hv' & Hb'); [|done..|].
    + intros [b' e']. rewrite <-for_each_total.
      apply (sim_for_each snd fst tasks tasks). clear.
      intros agent_id [b e]. apply (broadcast_hear_sim _ _ _ _ (b, e)).
    + split; [done|auto].
  - destruct Hh; [|done..].
    intros [b' e']. rewrite <-for_each_total.
    apply (sim_for_each snd fst tasks tasks). clear.
    intros agent_id [b e]. apply (broadcast_hear_sim _ _ _ _ (b, e)).
Qed.

Lemma lose_stage_sim : sim_st lose_stage_c lose_stage.
Proof.
  intros [b [self e]]. unfold lose_stage_c, lose_stage. cbn [fst snd].
  destruct (bool_decide (active self = []) && game_in_progress self); [|done].
  apply (game_over_sim false (b, (self, e))).
Qed.

Lemma handle_mismatch_stages_c r1 c1 r2 c2 bst :
  TimerTask._handle_mismatch written r1 c1 r2 c2 bst
  = bind (TimerTask.for_each (TimerTask.mark_hidden written)
            [(r1, c1); (r2, c2)] bst)
         (λ bst, bind (eliminate_stage_c bst) lose_stage_c).
Proof.
  unfold TimerTask._handle_mismatch.
  destruct (TimerTask.for_each _ [_; _] bst) as [bst1|c|]; [|done..].
  cbn [bind]. unfold eliminate_stage_c.
  destruct (TimerTask.for_each _ (Dict.keys _) _) as [[ni [b [self e]]]|c|];
    [|done..].
  cbn [bind].
  by destruct (of_plugin self _) as [[b1 [self1 e1]]|c|].
Qed.

Lemma handle_mismatch_stages r1 c1 r2 c2 (st : St) :
  PairPanicking._handle_mismatch r1 c1 r2 c2 st
  = for_each PairPanicking.mark_hidden [(r1, c1); (r2, c2)] st
    ≫= λ st, eliminate_stage st ≫= lose_stage.
Proof.
  unfold PairPanicking._handle_mismatch.
  destruct (for_each _ [_; _] st) as [st1|]; [|done].
  cbn [mbind option_bind]. unfold eliminate_stage.
  by destruct (for_each _ (Dict.keys _) _) as [[ni [self e]]|].
Qed.

Lemma handle_mismatch_sim r1 c1 r2 c2 :
  sim_st (TimerTask._handle_mismatch written r1 c1 r2 c2)
         (PairPanicking._handle_mismatch r1 c1 r2 c2).
Proof.
  intros xb. rewrite handle_mismatch_stages_c, handle_mismatch_stages.
  revert xb.
  apply (sim_bind snd fst view view);
    [apply (sim_for_each snd fst view view), mark_hidden_sim|].
  apply (sim_bind snd fst view view); [apply eliminate_stage_sim|].
  apply lose_stage_sim.
Qed.

(** ** [_resolve] and the timer *)

Lemma resolve_sim b (st : St) :
  match TimerTask._resolve written (b, st) with
  | Returned (b', st') => PairPanicking._resolve st = Some st'
  | CancelledError c =>
      b ≠ None ∧ showing c.1 = [] ∧
      timer_task c.1 = timer_task (cancel_timer st).1 ∧
      tasks c.2 = tasks (cancel_timer st).2
  | Raised => PairPanicking._resolve st = None
  end.
Proof.
  unfold TimerTask._resolve, PairPanicking._resolve.
  destruct (cancel_timer st) as [self e]. cbn [fst snd].
  destruct (showing self) as [|[r1 c1] [|[r2 c2] rest]]; try done.
  cbn [board with_showing].
  destruct (grid_get (board self) r1 c1) as [sym1|]; [|done].
  destruct (grid_get (board self) r2 c2) as [sym2|]; [|done].
  cbn [bind lookup mbind option_bind].
  case_bool_decide.
  - pose proof (handle_match_sim r1 c1 r2 c2 (b, (with_showing [] self, e))) as H1.
    destruct (TimerTask._handle_match _ _ _ _ _ _) as [[b' st']|c|];
      cbn [fst snd] in H1.
    + by destruct H1 as (-> & _).
    + destruct H1 as [[= Hs Ht He] Hb]. done.
    + done.
  - pose proof (handle_mismatch_sim r1 c1 r2 c2 (b, (with_showing [] self, e))) as H1.
    destruct (TimerTask._handle_mismatch _ _ _ _ _ _) as [[b' st']|c|];
      cbn [fst snd] in H1.
    + by destruct H1 as (-> & _).
    + destruct H1 as [[= Hs Ht He] Hb]. done.
    + done.
Qed.

(** A task that is not pending (it was cancelled, or has ended) does
    nothing when the event loop gets to it. *)
Lemma timer_coro_not_pending h b (st : St) :
  tasks st.2 !! h ≠ Some Pending → TimerTask._timer_coro written h b st = Some st.
Proof.
  intros Hh. unfold TimerTask._timer_coro.
  destruct (tasks st.2 !! h) as [[]|]; done.
Qed.

Lemma finish_task_spec h e :
  tasks (TimerTask.finish_task h e) !! h ≠ Some Pending ∧
  (∀ self, timer_running self e = None →
           timer_running self (TimerTask.finish_task h e) = None).
Proof.
  unfold TimerTask.finish_task. destruct (tasks e !! h) as [t|] eqn:Ht.
  - destruct t; try (split; [by rewrite Ht | done]).
    apply lookup_lt_Some in Ht as Hlt. simpl. split.
    + by rewrite list_lookup_insert_eq.
    + intros self. unfold timer_running. simpl.
      destruct (timer_task self) as [h'|]; [|done].
      destruct (decide (h = h')) as [->|Hne].
      * by rewrite list_lookup_insert_eq.
      * by rewrite list_lookup_insert_ne.
  - split; [by rewrite Ht | done].
Qed.

End Sim.

Section Once.
Context {P : Type}.
Implicit Types (self : PairPanickingPlugin) (e : Env P).

(** C5: with a pair showing on a well-formed board.

    A resolution forced by a third click ([_resolve] called from the
    click's task) runs one handler on the pair and ends with no square
    showing and no timer running; the pair's timer, if it was pending,
    is then cancelled and does nothing when it is woken.

    The expiry of the pair's timer ([_timer_coro] on a pending task),
    however far the sends of its resolution get before one suspends,
    ends with no square showing, no timer running and the task over; if
    no send suspends, one handler has run on the pair.

    A task cancelled during its sleep does nothing when it is woken.
    After either resolution, neither waking the timer again nor calling
    [_resolve] again changes anything. *)
Theorem resolution_once (r1 c1 r2 c2 : nat) self e :
  shape_ok self = true → NoDup (Dict.keys (scores self)) →
  showing self = [(r1, c1); (r2, c2)] →
  in_grid (r1, c1) → in_grid (r2, c2) →
  (∃ st', PairPanicking._resolve (self, e) = Some st' ∧
          one_handler_ran r1 c1 r2 c2 self e st' ∧
          showing st'.1 = [] ∧ timer_running st'.1 st'.2 = None ∧
          (∀ h, timer_running self e = Some h →
                tasks st'.2 !! h = Some Cancelled ∧
                ∀ written b, TimerTask._timer_coro written h b st' = Some st') ∧
          PairPanicking._resolve st' = Some st') ∧
  (∀ written h b, tasks e !! h = Some Pending →
        ∃ st', TimerTask._timer_coro written h b (self, e) = Some st' ∧
               showing st'.1 = [] ∧ timer_running st'.1 st'.2 = None ∧
               tasks st'.2 !! h ≠ Some Pending ∧
               (b = None → ∃ e1, one_handler_ran r1 c1 r2 c2 self e (st'.1, e1)) ∧
               (∀ written' b', TimerTask._timer_coro written' h b' st' = Some st') ∧
               PairPanicking._resolve st' = Some st') ∧
  (∀ written h b, tasks e !! h = Some Cancelled →
        TimerTask._timer_coro written h b (self, e) = Some (self, e)).
Proof.
  intros Hshape%shape_ok_shape Hnd Hshow Hin1 Hin2.
  destruct (resolve_ok r1 c1 r2 c2 [] self e)
    as (self' & e' & Hres & Hone & Hsh & Hrun & _ & _ & _ & _ & _ & Hcanc & _);
    [done..|].
  split_and!.
  - exists (self', e'). split_and!; try done.
    + intros h Hh. split; [by apply Hcanc|].
      intros written b. apply timer_coro_not_pending. simpl.
      by rewrite (Hcanc h Hh).
    + apply resolve_idle; [rewrite Hsh; simpl; lia | done].
  - intros written h b Hh. unfold TimerTask._timer_coro. cbn [fst snd].
    rewrite Hh. case_bool_decide as Hself.
    + pose proof (resolve_sim written b (self, e)) as Hsim.
      destruct (TimerTask._resolve written (b, (self, e))) as [[b' st']|[selfc ec]|].
      * rewrite Hres in Hsim. injection Hsim as <-.
        exists (self', e'). split_and!; try done.
        -- simpl. by rewrite (Hcanc h Hself).
        -- intros _. by exists e'.
        -- intros written' b''. apply timer_coro_not_pending. simpl.
           by rewrite (Hcanc h Hself).
        -- apply resolve_idle; [rewrite Hsh; simpl; lia | done].
      * destruct Hsim as (Hb & Hsc & Htc & Hec). cbn [fst snd] in *.
        destruct (cancel_timer_spec self e) as (_ & Hst & _ & _ & _ & Hc & _).
        rewrite Hself in Hst. rewrite Hst in Htc. simpl in Htc.
        assert (h < length (tasks ec))%nat as Hlt.
        { rewrite Hec. by eapply lookup_lt_Some, Hc. }
        assert (∀ t, timer_running selfc (with_tasks t ec) = None) as Hnone.
        { intros t. unfold timer_running. by rewrite Htc. }
        eexists. split_and!; [done|done|apply Hnone| | | |].
        -- simpl. by rewrite list_lookup_insert_eq.
        -- done.
        -- intros written' b'. apply timer_coro_not_pending. simpl.
           by rewrite list_lookup_insert_eq.
        -- apply resolve_idle; [simpl; rewrite Hsc; simpl; lia | apply Hnone].
      * congruence.
    + rewrite Hres. cbn [mbind option_bind].
      destruct (finish_task_spec h e') as (Hfin & Htr).
      exists (self', TimerTask.finish_task h e'). split_and!; try done.
      * by apply Htr.
      * intros _. by exists e'.
      * intros written' b'. by apply timer_coro_not_pending.
      * apply resolve_idle; [rewrite Hsh; simpl; lia | by apply Htr].
  - intros written h b Hh. apply timer_coro_not_pending. simpl. by rewrite Hh.
Qed.

End Once.

Lemma resolution_once_witness :
  ∃ st', TimerTask._timer_coro true 0 (Some 0%nat)
           (Scenario.pair_game, Scenario.pair_env) = Some st' ∧
         showing st'.1 = [] ∧ timer_running st'.1 st'.2 = None ∧
         tasks st'.2 !! 0%nat ≠ Some Pending.
Proof.
  destruct (proj1 (proj2 (resolution_once 0 0 2 0
                            Scenario.pair_game Scenario.pair_env
                            ltac:(vm_compute; reflexivity)
                            (scenario_keys_NoDup Scenario.pair_showing
                               ltac:(vm_compute; reflexivity))
                            ltac:(vm_compute; reflexivity)
                            (in_grid_lt 0 0 eq_refl) (in_grid_lt 2 0 eq_refl)))
                  true 0%nat (Some 0%nat) ltac:(vm_compute; reflexivity))
    as (st' & H1 & H2 & H3 & H4 & _).
  exists st'. exact (conj H1 (conj H2 (conj H3 H4))).
Defined.

End TimerProps.


(* ===================================================================== *)
(** * Properties of the Server *)
(* ===================================================================== *)

Module ServerProps.
Import Objects Protocol WorldM SessionM Server DictProps.

#[local] Arguments PairPanicking.on_agent_leave : simpl never.
#[local] Arguments Home.on_agent_leave : simpl never.
#[local] Arguments notify_exit : simpl never.
#[local] Arguments remove_from_matrix : simpl never.

(** The plugin of matrix [m], if it is the matching game, has a full
    board and a well-formed score table. *)
Definition plugin_ready (e : State) (m : string) : Prop :=
  match get_plugin (world e) m with
  | Some (PairP p) =>
      PairProps.shape_ok p = true ∧ NoDup (Dict.keys (PairPanicking.scores p))
  | _ => True
  end.

(** The agents listed in [m] that have a session: the recipients of a
    broadcast in [m]. *)
Definition peers (e : State) (m : string) : list string :=
  filter (λ oid, is_Some (sessions e !! oid))
         (map (λ obj, objid (base obj)) (get_agents_in_matrix (world e) m)).

(** The steps of the cleanup in the order in which the specification
    lists them: removal from containment first, then the hook. *)
Definition remove_agent_spec_order (session agent_id : string) (e : State)
  : option State :=
  match agent_container e agent_id with
  | None => Some e
  | Some matrix_id =>
      let e := if bool_decide (matrix_id ≠ "")
               then on_world (λ w, (remove_from_matrix agent_id w).2) e
               else e in
      e ← (if bool_decide (matrix_id ≠ "")
           then plugin_on_agent_leave matrix_id session agent_id e
           else Some e);
      let e := if bool_decide (matrix_id ≠ "")
               then notify_exit matrix_id agent_id e else e in
      let e := send_logged_out session "Goodbye!" e in
      Some (with_sessions (delete agent_id (sessions e)) e)
  end.

Lemma agent_container_placement (e : State) a m :
  agent_container e a = Some m ↔
  PairProps.placement <$> objects (world e) !! a = Some (4%nat, Some m).
Proof.
  unfold agent_container, PairProps.placement.
  destruct (objects (world e) !! a) as [[]|]; simpl; split;
    intros H; try discriminate H; try congruence.
Qed.

Lemma announce_world (h : Home.HomePlugin) a suffix (e : State) :
  world (Home.announce h a suffix e) = world e.
Proof.
  unfold Home.announce. destruct (get_agent (world e) a); [|done].
  generalize (get_agents_in_matrix (world e) (Home.matrix_id h)). intros l.
  apply (foldl_keeps (λ e', world e' = world e)); [done|].
  intros other e' He'. case_bool_decide; [|done].
  by destruct (sessions e' !! _).
Qed.

(** The leave hook succeeds and moves nothing. *)
Lemma leave_hook_ok m session a (e : State) :
  plugin_ready e m →
  ∃ e1, plugin_on_agent_leave m session a e = Some e1 ∧
        matrix_contents (world e1) = matrix_contents (world e) ∧
        ∀ k, PairProps.placement <$> objects (world e1) !! k
             = PairProps.placement <$> objects (world e) !! k.
Proof.
  unfold plugin_ready, plugin_on_agent_leave.
  destruct (get_plugin (world e) m) as [[h|p]|]; intros Hready.
  - eexists. split; [done|]. unfold Home.on_agent_leave.
    by rewrite announce_world.
  - destruct Hready as [Hshape%PairProps.shape_ok_shape Hnd].
    destruct (PairProps.on_agent_leave_ok session a p e Hshape Hnd)
      as (gip & e' & -> & _ & (_ & Hmc & _ & Hpl)).
    simpl. eexists. split; [done|]. by split.
  - by eexists.
Qed.

Lemma notify_exit_spec m a (e : State) :
  out (notify_exit m a e)
  = out e ++ map (λ o, (o, MsgSet a exit_attrs)) (peers e m) ∧
  world (notify_exit m a e) = world e ∧
  tasks (notify_exit m a e) = tasks e ∧
  ∀ k, is_Some (sessions (notify_exit m a e) !! k) ↔ is_Some (sessions e !! k).
Proof.
  unfold notify_exit, peers.
  generalize (get_agents_in_matrix (world e) m). intros l.
  assert (∀ e0 : State,
            (∀ k, is_Some (sessions e0 !! k) ↔ is_Some (sessions e !! k)) →
            let e' := foldl (λ e other,
                               match sessions e !! objid (base other) with
                               | Some _ => send_set (objid (base other)) a exit_attrs e
                               | None => e
                               end) e0 l in
            out e' = out e0 ++ map (λ o, (o, MsgSet a exit_attrs))
                                 (filter (λ oid, is_Some (sessions e !! oid))
                                         (map (λ obj, objid (base obj)) l)) ∧
            world e' = world e0 ∧ tasks e' = tasks e0 ∧
            ∀ k, is_Some (sessions e' !! k) ↔ is_Some (sessions e !! k)) as Hgen.
  { induction l as [|other l IH]; intros e0 Hdom; simpl.
    - by rewrite app_nil_r.
    - destruct (sessions e0 !! objid (base other)) as [s|] eqn:Hs.
      + destruct (IH (send_set (objid (base other)) a exit_attrs e0))
          as (Ho & Hw & Ht & Hd).
        { intros k. simpl. rewrite lookup_alter_is_Some. apply Hdom. }
        rewrite filter_cons_True by (apply Hdom; by eexists).
        simpl in *. rewrite Ho, <-app_assoc. done.
      + destruct (IH e0 Hdom) as (Ho & Hw & Ht & Hd).
        rewrite filter_cons_False; [done|].
        intros Hk%Hdom. rewrite Hs in Hk. by destruct Hk. }
  by apply Hgen.
Qed.

(** What the cleanup of an agent placed in matrix [m] does, step by
    step: it first runs the [on_agent_leave] hook of [m]'s plugin, on the
    state in which the agent is still placed in [m]; then removes the
    agent from containment; then writes the exit delta (x = -1) to every
    agent still listed in [m] that has a session; then the farewell;
    then discards the session.  The Agent stays in the object table,
    with an empty [container_matrix]. *)
Theorem remove_agent_order (session a m : string) (e : State) :
  agent_container e a = Some m → m ≠ "" → plugin_ready e m →
  ∃ e1 e',
    plugin_on_agent_leave m session a e = Some e1 ∧
    agent_container e1 a = Some m ∧
    _remove_agent session a e = Some e' ∧
    world e' = (remove_from_matrix a (world e1)).2 ∧
    out e' = out e1
             ++ map (λ o, (o, MsgSet a exit_attrs))
                    (peers (with_world (world e') e1) m)
             ++ [(session, MsgLoggedOut "Goodbye!")] ∧
    sessions e' !! a = None ∧
    ¬ listed_in (world e') a m ∧
    agent_container e' a = Some "".
Proof.
  intros Hc Hne Hready.
  destruct (leave_hook_ok m session a e Hready) as (e1 & Hhook & Hmc & Hpl).
  assert (agent_container e1 a = Some m) as Hc1.
  { apply agent_container_placement. rewrite Hpl.
    by apply agent_container_placement. }
  exists e1. unfold _remove_agent. rewrite Hc.
  rewrite !bool_decide_eq_true_2 by done. rewrite Hhook. simpl.
  set (e2 := on_world _ e1).
  destruct (notify_exit_spec m a e2) as (Hout & Hw & _ & Hdom).
  eexists. split_and!; [done | done | done | | | | |].
  - simpl. by rewrite Hw.
  - simpl. rewrite Hout, Hw. by rewrite <-app_assoc.
  - simpl. apply lookup_delete_eq.
  - simpl. rewrite Hw. subst e2. simpl.
    unfold agent_container in Hc1.
    destruct (WorldProps.remove_from_matrix_world a (world e1))
      as [Hsame | (obj & old & Ho & Hcm & Hold & ->)].
    + exfalso. unfold remove_from_matrix in Hsame.
      destruct (objects (world e1) !! a) as [[]|] eqn:Ho; try done.
      injection Hc1 as ->. simpl in Hsame.
      rewrite bool_decide_eq_true_2 in Hsame by done. simpl in Hsame.
      apply (f_equal (λ w, objects w !! a)) in Hsame. simpl in Hsame.
      rewrite lookup_insert_eq, Ho in Hsame. injection Hsame as Hsame.
      by apply Hne.
    + rewrite Ho in Hc1. destruct obj; try done. injection Hc1 as ->.
      simpl in Hcm. injection Hcm as <-.
      intros Hl. change (listed_in (discard_from m a (world e1)) a m) in Hl.
      apply WorldProps.listed_in_discard in Hl as [_ Hn]. by apply Hn.
  - unfold agent_container. simpl. rewrite Hw. subst e2. simpl.
    unfold agent_container in Hc1. unfold remove_from_matrix.
    destruct (objects (world e1) !! a) as [[]|] eqn:Ho; try done.
    injection Hc1 as ->. simpl.
    rewrite bool_decide_eq_true_2 by done. simpl.
    by rewrite lookup_insert_eq.
Qed.

Lemma remove_agent_order_witness :
  ∃ e1 e',
    plugin_on_agent_leave "m2" "a1" "a1" Scenario.game_env = Some e1 ∧
    agent_container e1 "a1" = Some "m2" ∧
    _remove_agent "a1" "a1" Scenario.game_env = Some e' ∧
    world e' = (remove_from_matrix "a1" (world e1)).2 ∧
    out e' = out e1
             ++ map (λ o, (o, MsgSet "a1" exit_attrs))
                    (peers (with_world (world e') e1) "m2")
             ++ [("a1", MsgLoggedOut "Goodbye!")] ∧
    sessions e' !! "a1" = None ∧
    ¬ listed_in (world e') "a1" "m2" ∧
    agent_container e' "a1" = Some "".
Proof.
  apply (remove_agent_order "a1" "a1" "m2" Scenario.game_env).
  - vm_compute. reflexivity.
  - discriminate.
  - unfold plugin_ready.
    assert (get_plugin (world Scenario.game_env) "m2" = Some (PairP Scenario.game))
      as -> by (vm_compute; reflexivity).
    split; [vm_compute; reflexivity|].
    apply (PairProps.scenario_keys_NoDup Scenario.in_game). vm_compute. reflexivity.
Defined.

(** C8: the cleanup does not run in the stated order, and the
    difference is visible.  When bob ("a1") logs out of the game matrix,
    [_remove_agent] runs the plugin's [on_agent_leave] hook while bob is
    still listed there, so the game's departure notice is written to
    bob's own session, the one being closed, before eve is told that he
    left.  With the removal first, as the specification orders the
    steps, the notice goes to eve alone; and on the other leave path,
    [_place_agent_in_matrix] taking bob back to the lobby, the server
    itself removes bob first, sends eve the exit delta and only then
    runs the hook, whose notice reaches eve alone. *)
Lemma leave_hook_runs_before_removal :
  let departure := MsgHear "m2" "m2" "bob left PairPanicking." in
  let exit_delta := MsgSet "a1" exit_attrs in
  let sent (r : option State) :=
    (λ e', drop (length (out Scenario.game_env)) (out e')) <$> r in
  sent (_remove_agent "a1" "a1" Scenario.game_env)
  = Some [("a1", departure); ("a2", departure); ("a2", exit_delta);
          ("a1", MsgLoggedOut "Goodbye!")] ∧
  sent (remove_agent_spec_order "a1" "a1" Scenario.game_env)
  = Some [("a2", departure); ("a2", exit_delta);
          ("a1", MsgLoggedOut "Goodbye!")] ∧
  take 2 <$> sent (_place_agent_in_matrix "a1" "a1" "m1" Scenario.game_env)
  = Some [("a2", exit_delta); ("a2", departure)].
Proof. split_and!; vm_compute; reflexivity. Qed.

End ServerProps.

(* ===================================================================== *)
(** * Further properties of the World *)
(* ===================================================================== *)

Module WorldMore.
Import Objects Protocol WorldM WorldProps.

Section Ops.
Context {P : Type}.
Implicit Types (w : World P) (op : @WorldOp P).

Lemma world_eq w1 w2 :
  objects w1 = objects w2 → next_ids w1 = next_ids w2 →
  matrix_contents w1 = matrix_contents w2 → game_plugins w1 = game_plugins w2 →
  w1 = w2.
Proof. destruct w1, w2. simpl. by intros -> -> -> ->. Qed.


Lemma run_snoc (ops : list WorldOp) op w :
  run (ops ++ [op]) w = apply_op op (run ops w).
Proof. unfold run. by rewrite foldl_app. Qed.

(** ** Creation *)


(** ** Matrix dimensions *)

Lemma matrix_post_init_dims (o : TileNetObject) :
  2 ≤ x (matrix_post_init o) ∧ 2 ≤ y (matrix_post_init o).
Proof.
  unfold matrix_post_init. repeat case_bool_decide; simpl in *; lia.
Qed.

Definition dims_ok w : Prop :=
  ∀ k m, objects w !! k = Some (Matrix m) → 2 ≤ x m ∧ 2 ≤ y m.

Lemma apply_op_dims_ok op w : dims_ok w → dims_ok (apply_op op w).
Proof.
  intros Hd k m. destruct op as [n c r a|n t e|n x y e a|n a|h x y|o' m'|o'|m0 p];
    simpl.
  - intros [[_ [= <-]] | [_ H]]%lookup_insert_Some;
      [apply matrix_post_init_dims | by eapply Hd].
  - intros [[_ [=]] | [_ H]]%lookup_insert_Some. by eapply Hd.
  - intros [[_ [=]] | [_ H]]%lookup_insert_Some. by eapply Hd.
  - intros [[_ [=]] | [_ H]]%lookup_insert_Some. by eapply Hd.
  - intros [[_ [=]] | [_ H]]%lookup_insert_Some. by eapply Hd.
  - rewrite place_in_matrix_objects.
    destruct (objects w !! o') as [obj|] eqn:Ho; [|by apply Hd].
    destruct (container_matrix obj) eqn:Hc; [|by apply Hd].
    intros [[_ Heq] | [_ H]]%lookup_insert_Some; [|by eapply Hd].
    by destruct obj.
  - destruct (remove_from_matrix_world o' w)
      as [-> | (obj & old & Ho & Hc & Hne & ->)]; [by apply Hd|]. simpl.
    intros [[_ Heq] | [_ H]]%lookup_insert_Some; [|by eapply Hd].
    by destruct obj.
  - by apply Hd.
Qed.

Lemma run_dims_ok (ops : list WorldOp) w : dims_ok w → dims_ok (run ops w).
Proof.
  revert w. induction ops as [|op ops IH]; intros w Hw; [done|].
  simpl. by apply IH, apply_op_dims_ok.
Qed.

(** Whatever sizes were asked for, every Matrix in a world built by
    World operations has at least two columns and two rows. *)
Theorem matrix_dimensions (ops : list WorldOp) (k : string) (m : TileNetObject) :
  objects (run ops (@init P)) !! k = Some (Matrix m) → 2 ≤ x m ∧ 2 ≤ y m.
Proof.
  apply (run_dims_ok ops init). intros k' m' H. simpl in H.
  by rewrite lookup_empty in H.
Qed.

(** ** Placing twice, removing twice *)

Lemma set_container_matrix_twice c (obj : WorldObject) :
  set_container_matrix c (set_container_matrix c obj) = set_container_matrix c obj.
Proof. by destruct obj. Qed.

Lemma container_set_container c (obj : WorldObject) :
  container_matrix (set_container_matrix c obj)
  = (λ _, c) <$> container_matrix obj.
Proof. by destruct obj. Qed.

(** Placing an object into the matrix it was just placed in changes
    nothing, whether or not the matrix or the object exists. *)
Theorem place_in_matrix_idempotent (o m : string) w :
  place_in_matrix o m (place_in_matrix o m w) = place_in_matrix o m w.
Proof.
  set (w1 := place_in_matrix o m w).
  apply world_eq.
  - rewrite (place_in_matrix_objects o m w1). subst w1.
    rewrite place_in_matrix_objects.
    destruct (objects w !! o) as [obj|] eqn:Ho; [|by rewrite Ho].
    destruct (container_matrix obj) as [c|] eqn:Hc; [|by rewrite Ho, Hc].
    rewrite lookup_insert_eq, container_set_container, Hc. simpl.
    by rewrite set_container_matrix_twice, insert_insert_eq.
  - by rewrite !place_in_matrix_next_ids.
  - rewrite (place_in_matrix_contents o m w1).
    assert (matrix_contents w1 !! m
            = (λ s, s ∪ {[o]}) <$> matrix_contents (unlinked o w) !! m) as Hm1.
    { subst w1. rewrite place_in_matrix_contents.
      destruct (matrix_contents (unlinked o w) !! m) as [s|] eqn:E; simpl.
      - by rewrite lookup_insert_eq.
      - done. }
    assert (matrix_contents (unlinked o w1) = matrix_contents w1 ∨
            (matrix_contents (unlinked o w1)
             = alter (λ s, s ∖ {[o]}) m (matrix_contents w1))) as Hu.
    { unfold unlinked. subst w1. rewrite place_in_matrix_objects.
      destruct (objects w !! o) as [obj|] eqn:Ho; [|rewrite Ho; by left].
      destruct (container_matrix obj) as [c|] eqn:Hc;
        [|rewrite Ho; simpl; rewrite Hc; by left].
      rewrite lookup_insert_eq. simpl. rewrite container_set_container, Hc. simpl.
      case_bool_decide; [by right | by left]. }
    destruct (matrix_contents (unlinked o w) !! m) as [s|] eqn:E; simpl in Hm1.
    + destruct Hu as [Hu | Hu].
      * rewrite Hu, Hm1. apply insert_id. rewrite Hm1. f_equal. set_solver.
      * rewrite Hu, lookup_alter_eq, Hm1. simpl.
        apply map_eq. intros k. destruct (decide (m = k)) as [<-|Hne].
        -- rewrite lookup_insert_eq, Hm1. f_equal.
           apply set_eq. intros z. destruct (decide (z = o)); set_solver.
        -- by rewrite lookup_insert_ne, lookup_alter_ne.
    + destruct Hu as [Hu | Hu].
      * by rewrite Hu, Hm1.
      * rewrite Hu, lookup_alter_eq, Hm1. simpl.
        apply map_eq. intros k. destruct (decide (m = k)) as [<-|Hne].
        -- by rewrite lookup_alter_eq, Hm1.
        -- by rewrite lookup_alter_ne.
  - unfold place_in_matrix.
    repeat match goal with
           | |- context [match ?x with _ => _ end] => destruct x
           end; done.
Qed.

(** [remove_from_matrix] returns the matrix the object said it was in,
    clears that back-reference and the matrix's listing of the object,
    and touches nothing when there is nothing to remove; a second call
    returns nothing and changes nothing. *)
Theorem remove_from_matrix_spec (o : string) w :
  let res := remove_from_matrix o w in
  (∀ old, res.1 = Some old →
     old ≠ "" ∧ ¬ listed_in res.2 o old ∧
     ∃ obj, objects w !! o = Some obj ∧ container_matrix obj = Some old ∧
            objects res.2 !! o = Some (set_container_matrix "" obj)) ∧
  (res.1 = None → res.2 = w) ∧
  remove_from_matrix o res.2 = (None, res.2).
Proof.
  unfold remove_from_matrix.
  destruct (objects w !! o) as [obj|] eqn:Ho; simpl; [|by rewrite Ho].
  destruct (container_matrix obj) as [old|] eqn:Hc; simpl;
    [|by rewrite Ho, Hc].
  case_bool_decide as Hold; simpl.
  - split_and!; [|done|].
    + intros ? [= <-]. split_and!; [done| |].
      * intros Hl.
        change (listed_in (discard_from old o w) o old) in Hl.
        apply listed_in_discard in Hl as [_ Hn]. by apply Hn.
      * exists obj. by rewrite lookup_insert_eq.
    + by rewrite lookup_insert_eq, container_set_container, Hc.
  - subst old. rewrite Ho, Hc. by split_and!.
Qed.

End Ops.

Lemma matrix_dimensions_witness :
  ∃ m, objects (run (P := unit) [OpCreateMatrix "tiny" 0 1 no_attrs] init) !! "m1"
       = Some (Matrix m) ∧ 2 ≤ x m ∧ 2 ≤ y m.
Proof.
  eexists. split; [vm_compute; reflexivity|].
  apply (matrix_dimensions (P := unit) [OpCreateMatrix "tiny" 0 1 no_attrs] "m1").
  vm_compute. reflexivity.
Defined.


End WorldMore.

(* ===================================================================== *)
(** * Object ids: what the World prints, the protocol reads back *)
(* ===================================================================== *)

Module ObjidProps.
Import Objects Protocol WorldM ProtocolProps.

Lemma code_points_cons c s :
  code_points (String c s) = N_of_ascii c :: code_points s.
Proof. done. Qed.

Lemma length_code_points s : length (code_points s) = String.length s.
Proof.
  induction s as [|c s IH]; [done|]. rewrite code_points_cons. simpl.
  by rewrite IH.
Qed.

Lemma pretty_N_char_digit (d : N) :
  (d < 10)%N →
  is_digit (N_of_ascii (pretty_N_char d)) = true ∧
  digit_value (N_of_ascii (pretty_N_char d)) = Z.of_N d.
Proof.
  intros Hd.
  assert (d = 0 ∨ d = 1 ∨ d = 2 ∨ d = 3 ∨ d = 4 ∨ d = 5 ∨ d = 6 ∨ d = 7
          ∨ d = 8 ∨ d = 9)%N as Hcases by lia.
  repeat (destruct Hcases as [->|Hcases]; [by split|]). by subst.
Qed.

Lemma decimal_from_shift s acc :
  decimal_from acc s = acc * 10 ^ Z.of_nat (length s) + decimal_from 0 s.
Proof.
  revert acc. induction s as [|c s IH]; intros acc.
  - simpl. lia.
  - cbn [decimal_from length]. rewrite IH, (IH (10 * 0 + _)).
    rewrite Nat2Z.inj_succ, Z.pow_succ_r by lia. lia.
Qed.

(** The characters [pretty_N_go] puts in front of [s] are decimal digits
    and read back as the number printed. *)
Lemma pretty_N_go_digits (x : N) :
  ∀ s, all_digits (code_points s) = true →
    all_digits (code_points (pretty_N_go x s)) = true ∧
    (String.length s ≤ String.length (pretty_N_go x s))%nat ∧
    decimal_value (code_points (pretty_N_go x s))
    = Z.of_N x * 10 ^ Z.of_nat (String.length s) + decimal_value (code_points s).
Proof.
  induction (N.lt_wf_0 x) as [x _ IH]. intros s Hs.
  destruct (decide (0 < x)%N) as [Hx|Hx].
  - rewrite pretty_N_go_step by done.
    destruct (pretty_N_char_digit (x `mod` 10)) as [Hd Hv];
      [by apply N.mod_lt|].
    destruct (IH (x `div` 10)%N
                (N.div_lt x 10 Hx eq_refl)
                (String (pretty_N_char (x `mod` 10)) s)) as (Ha & Hl & Hval).
    { rewrite code_points_cons. simpl. by rewrite Hd. }
    split_and!; [done|simpl in Hl; lia|]. rewrite Hval. unfold decimal_value.
    rewrite code_points_cons. cbn [decimal_from String.length].
    rewrite (decimal_from_shift (code_points s) (10 * 0 + _)), Hv.
    rewrite length_code_points.
    rewrite Nat2Z.inj_succ, Z.pow_succ_r by lia.
    pose proof (N.div_mod x 10 ltac:(done)) as Hdm.
    assert (Z.of_N x = 10 * Z.of_N (x `div` 10) + Z.of_N (x `mod` 10)) as ->
      by lia.
    lia.
  - assert (x = 0%N) as -> by lia. rewrite pretty_N_go_0. split_and!; [done..|].
    simpl. lia.
Qed.

Lemma pretty_N_digits (x : N) :
  pretty x ≠ "" ∧ all_digits (code_points (pretty x)) = true ∧
  decimal_value (code_points (pretty x)) = Z.of_N x.
Proof.
  unfold pretty, pretty_N. destruct (decide (x = 0%N)) as [->|Hx]; [done|].
  destruct (pretty_N_go_digits x "" eq_refl) as (Ha & _ & Hv).
  split_and!; [|done|].
  - rewrite pretty_N_go_step by lia. intros Heq.
    destruct (pretty_N_go_digits (x `div` 10)
                (String (pretty_N_char (x `mod` 10)) "")) as (_ & Hl & _).
    { rewrite code_points_cons. simpl.
      destruct (pretty_N_char_digit (x `mod` 10)) as [-> _]; [|done].
      by apply N.mod_lt. }
    rewrite Heq in Hl. simpl in Hl. lia.
  - rewrite Hv. unfold decimal_value. simpl. lia.
Qed.

Lemma within_threshold I (n : nat) :
  (n ≤ _PY_LONG_MAX_STR_DIGITS_THRESHOLD)%nat → exceeds_limit I n = false.
Proof.
  intros H. unfold exceeds_limit.
  by replace (_PY_LONG_MAX_STR_DIGITS_THRESHOLD <? n)%nat with false
    by (symmetry; by apply Nat.ltb_ge).
Qed.

(** [int()] reads back an integer as [str()], and so an f-string, prints
    it, as long as the digits stay within the limit. *)
Lemma py_int_pretty I (n : Z) :
  (String.length (pretty n) ≤ _PY_LONG_MAX_STR_DIGITS_THRESHOLD)%nat →
  py_int I (code_points (pretty n)) = Some n.
Proof.
  unfold pretty, pretty_Z. destruct n as [|p|p]; intros Hlen.
  - reflexivity.
  - destruct (pretty_N_digits (N.pos p)) as (Hne & Ha & Hv).
    change (pretty p) with (pretty (N.pos p)) in *.
    rewrite py_int_all_digits; [by rewrite Hv| |done|].
    + intros Heq. apply Hne. apply (f_equal length) in Heq.
      rewrite length_code_points in Heq.
      by destruct (pretty (N.pos p)).
    + apply within_threshold. by rewrite length_code_points.
  - destruct (pretty_N_digits (N.pos p)) as (Hne & Ha & Hv).
    change (pretty p) with (pretty (N.pos p)) in *.
    change ("-" +:+ pretty (N.pos p)) with (String "-" (pretty (N.pos p))) in *.
    rewrite code_points_cons. unfold py_int, transform.
    cbn [forallb]. rewrite all_digits_ascii by done.
    change (N_of_ascii "-" <? 128)%N with true. cbn [andb].
    change (lstrip (N_of_ascii "-" :: code_points (pretty (N.pos p))))
      with (N_of_ascii "-" :: code_points (pretty (N.pos p))).
    change (N_of_ascii "-") with 45%N. cbv iota.
    rewrite int_body_all_digits; [simpl; f_equal; rewrite Hv; lia| |done|].
    + intros Heq. apply Hne. apply (f_equal length) in Heq.
      rewrite length_code_points in Heq.
      by destruct (pretty (N.pos p)).
    + apply within_threshold. rewrite length_code_points.
      simpl in Hlen. lia.
Qed.

(** An id that [new_objid] prints for a valid type code and a counter
    value of at most 640 characters is read back by [parse_objid] as the
    type code and the number it was made from, whatever the interpreter's
    digit limit, and [obj_type] returns that type code. *)
Theorem objid_round_trip (I : Interpreter) (t : ObjType) (n : Z) :
  (String.length (pretty n) ≤ _PY_LONG_MAX_STR_DIGITS_THRESHOLD)%nat →
  parse_objid I (code_points (format_objid t n)) = inr ([type_code t], n) ∧
  obj_type (format_objid t n) = String (type_char t) "".
Proof.
  intros Hlen. split; [|done]. unfold parse_objid, format_objid.
  pose proof (py_int_pretty I n Hlen) as Hn.
  rewrite code_points_cons.
  destruct (code_points (pretty n)) as [|c s] eqn:Hp; [discriminate Hn|].
  rewrite bool_decide_eq_false_2 by done.
  change ((length (N_of_ascii (type_char t) :: c :: s) <? 2)%nat) with false.
  cbn [orb]. rewrite Hn.
  assert (valid_type_code (N_of_ascii (type_char t)) = true) as ->; [|done].
  by destruct t.
Qed.

Lemma objid_round_trip_witness :
  parse_objid ascii_interpreter (code_points "t42") = inr (code_points "t", 42) ∧
  obj_type "t42" = "t".
Proof.
  apply (objid_round_trip ascii_interpreter OBJ_TOKEN 42).
  vm_compute. lia.
Defined.

End ObjidProps.

(* ===================================================================== *)
(** * An expiry cut short *)
(* ===================================================================== *)

Module TimerMore.
Import Objects Protocol WorldM SessionM PairPanicking DictProps PairProps.
Import TimerTask(Budget, Outcome, Returned, CancelledError, Raised, bind,
                 lookup, of_plugin).

#[local] Arguments TimerTask._broadcast_set : simpl never.
#[local] Arguments TimerTask.send_set : simpl never.
#[local] Arguments TimerTask.mark_solved : simpl never.
#[local] Arguments TimerTask.mark_hidden : simpl never.
#[local] Arguments TimerTask.award : simpl never.
#[local] Arguments TimerTask.deduct : simpl never.
#[local] Arguments TimerTask._game_over : simpl never.
#[local] Arguments TimerTask._broadcast_hear : simpl never.
#[local] Arguments TimerTask.for_each : simpl never.
#[local] Arguments update_token : simpl never.

Lemma task_for_each_cons {A X C : Type} (body : A → X → Outcome C X) a l x :
  TimerTask.for_each body (a :: l) x
  = bind (body a x) (TimerTask.for_each body l).
Proof. done. Qed.

Section Cut.
Context {P : Type}.
Variable written : bool.
Implicit Types (self : PairPanickingPlugin) (e : Env P).

(** Some agent listed in the plugin's matrix has a session: a broadcast
    has someone to write to. *)
Definition has_recipient self e : Prop :=
  ∃ agent, agent ∈ get_agents_in_matrix (world e) (matrix_id self) ∧
           is_Some (sessions e !! objid (base agent)).

Lemma agents_update_token o f (w : World P) m :
  get_agents_in_matrix (update_token o f w) m = get_agents_in_matrix w m.
Proof.
  unfold get_agents_in_matrix, objects_in_matrix, get_contents, update_token.
  destruct (objects w !! o) as [[]|] eqn:Ho; try done. simpl.
  induction (elements _) as [|k l IH]; [done|]. cbn [omap list_omap].
  rewrite IH. destruct (decide (k = o)) as [->|Hne].
  - by rewrite lookup_insert_eq, Ho.
  - by rewrite lookup_insert_ne.
Qed.

(** With a recipient, a broadcast whose first send suspends is cut
    short. *)
Lemma broadcast_set_cut self o a e :
  has_recipient self e →
  ∃ e', TimerTask._broadcast_set written self o a (Some 0%nat, e)
        = CancelledError e'.
Proof.
  unfold has_recipient, TimerTask._broadcast_set. cbn [snd].
  generalize (get_agents_in_matrix (world e) (matrix_id self)). intros l.
  induction l as [|agent l IH]; intros (agent' & Hin & Hs).
  - by apply elem_of_nil in Hin.
  - rewrite task_for_each_cons.
    destruct (sessions e !! objid (base agent)) as [s|] eqn:Hse.
    + unfold TimerTask.send_set, TimerTask.send. cbn [bind]. by eexists.
    + cbn [bind]. apply IH. exists agent'. split; [|done].
      apply elem_of_cons in Hin as [->|Hin]; [|done].
      rewrite Hse in Hs. by destruct Hs.
Qed.

Lemma timer_running_pending self e h :
  timer_running self e = Some h → tasks e !! h = Some Pending.
Proof.
  unfold timer_running. destruct (timer_task self) as [h'|]; [|done].
  destruct (tasks e !! h') as [t|] eqn:Ht; [|done].
  destruct t; simpl; try done. by intros [= <-].
Qed.

(** When the pair's timer expires and the first send of its
    resolution suspends, with someone in the matrix to write to, the
    resolution stops after the first square: that square is marked
    solved (on a match) or hidden (on a mismatch), every other square
    keeps its state, so the second square stays showing although the
    showing list is now empty; no score changes, and on a match the
    solved count has grown by one only. *)
Theorem expiry_cut_short (h r1 c1 r2 c2 : nat) self e :
  shape_ok self = true →
  showing self = [(r1, c1); (r2, c2)] →
  in_grid (r1, c1) → in_grid (r2, c2) →
  timer_running self e = Some h →
  has_recipient self e →
  ∃ sym1 sym2 st',
    grid_get (board self) r1 c1 = Some sym1 ∧
    grid_get (board self) r2 c2 = Some sym2 ∧
    TimerTask._timer_coro written h (Some 0%nat) (self, e) = Some st' ∧
    scores st'.1 = scores self ∧
    showing st'.1 = [] ∧ timer_task st'.1 = None ∧
    grid_get (state st'.1) r1 c1
    = Some (if bool_decide (sym1 = sym2) then Solved else Hidden) ∧
    (∀ r c, (r, c) ≠ (r1, c1) →
            grid_get (state st'.1) r c = grid_get (state self) r c) ∧
    solved_count st'.1
    = solved_count self + (if bool_decide (sym1 = sym2) then 1 else 0) ∧
    game_in_progress st'.1 = game_in_progress self.
Proof.
  intros (Hcs & Hct & Hcb)%shape_ok_shape Hshow [Hr1 Hc1] [Hr2 Hc2] Hrun Hrec.
  simpl in Hr1, Hc1, Hr2, Hc2.
  destruct (Hcb r1 c1) as [sym1 Hsym1]; [done..|].
  destruct (Hcb r2 c2) as [sym2 Hsym2]; [done..|].
  destruct (Hct r1 c1) as [token_id Htok]; [done..|].
  pose proof (timer_running_pending self e h Hrun) as Hpend.
  assert (∀ s, ∃ state',
            grid_set (state self) r1 c1 s = Some state') as Hset.
  { intros s. by apply grid_set_is_Some, Hcs. }
  set (self0 := with_showing [] (with_timer_task None self)).
  assert (∀ self' o a f,
            matrix_id self' = matrix_id self →
            ∃ e3, TimerTask._broadcast_set written self' o a
                    (Some 0%nat, on_world (update_token token_id f) (cancel_task h e))
                  = CancelledError e3) as Hcut.
  { intros self' o a f Hmid. apply broadcast_set_cut.
    destruct Hrec as (agent & Hin & Hs). exists agent. split; [|done].
    simpl. by rewrite Hmid, agents_update_token. }
  exists sym1, sym2.
  destruct (decide (sym1 = sym2)) as [Hsym|Hsym].
  - destruct (Hset Solved) as [state' Hstate'].
    rewrite !bool_decide_eq_true_2 by done.
    assert (∃ e3, TimerTask._timer_coro written h (Some 0%nat) (self, e)
                  = Some (with_solved_count (solved_count self + 1)
                            (with_state state' self0), e3)) as [e3 Hcoro].
    { unfold TimerTask._timer_coro. cbn [fst snd]. rewrite Hpend.
      rewrite bool_decide_eq_true_2 by done.
      unfold TimerTask._resolve, cancel_timer. rewrite Hrun.
      simpl. rewrite Hshow. simpl. rewrite Hsym1, Hsym2. simpl.
      rewrite bool_decide_eq_true_2 by done.
      unfold TimerTask._handle_match. rewrite task_for_each_cons.
      unfold TimerTask.mark_solved at 1.
      simpl. rewrite Hstate'. simpl. rewrite Htok. simpl.
      match goal with
      | |- context [of_plugin _ ?t] =>
          match t with
          | TimerTask._broadcast_set _ ?s ?o ?a (_, on_world (update_token _ ?f) _) =>
              destruct (Hcut s o a f eq_refl) as [e3 He3];
              replace t with (CancelledError (A := Budget * Env P) e3)
                by (symmetry; exact He3)
          end
      end.
      simpl. by eexists. }
    eexists. split_and!; [done|done|exact Hcoro|done..| | |done|done].
    + simpl. by rewrite (grid_get_set _ _ _ _ _ r1 c1 Hstate'), decide_True.
    + intros r c Hne. simpl.
      rewrite (grid_get_set _ _ _ _ _ r c Hstate'), decide_False; [done|].
      intros [-> ->]. done.
  - destruct (Hset Hidden) as [state' Hstate'].
    rewrite !bool_decide_eq_false_2 by done.
    assert (∃ e3, TimerTask._timer_coro written h (Some 0%nat) (self, e)
                  = Some (with_state state' self0, e3)) as [e3 Hcoro].
    { unfold TimerTask._timer_coro. cbn [fst snd]. rewrite Hpend.
      rewrite bool_decide_eq_true_2 by done.
      unfold TimerTask._resolve, cancel_timer. rewrite Hrun.
      simpl. rewrite Hshow. simpl. rewrite Hsym1, Hsym2. simpl.
      rewrite bool_decide_eq_false_2 by done.
      unfold TimerTask._handle_mismatch. rewrite task_for_each_cons.
      unfold TimerTask.mark_hidden at 1.
      simpl. rewrite Hstate'. simpl. rewrite Htok. simpl.
      match goal with
      | |- context [of_plugin _ ?t] =>
          match t with
          | TimerTask._broadcast_set _ ?s ?o ?a (_, on_world (update_token _ ?f) _) =>
              destruct (Hcut s o a f eq_refl) as [e3 He3];
              replace t with (CancelledError (A := Budget * Env P) e3)
                by (symmetry; exact He3)
          end
      end.
      simpl. by eexists. }
    eexists. split_and!; [done|done|exact Hcoro|done..| | |simpl; lia|done].
    + simpl. by rewrite (grid_get_set _ _ _ _ _ r1 c1 Hstate'), decide_True.
    + intros r c Hne. simpl.
      rewrite (grid_get_set _ _ _ _ _ r c Hstate'), decide_False; [done|].
      intros [-> ->]. done.
Qed.

End Cut.

Lemma expiry_cut_short_witness :
  ∃ st', TimerTask._timer_coro true 0 (Some 0%nat)
           (Scenario.pair_game, Scenario.pair_env) = Some st' ∧
         scores st'.1 = scores Scenario.pair_game ∧
         grid_get (state st'.1) 0 0 = Some Solved ∧
         grid_get (state st'.1) 2 0 = Some Showing ∧
         showing st'.1 = [].
Proof.
  destruct (expiry_cut_short true 0 0 0 2 0 Scenario.pair_game Scenario.pair_env
              ltac:(vm_compute; reflexivity) ltac:(vm_compute; reflexivity)
              (in_grid_lt 0 0 eq_refl) (in_grid_lt 2 0 eq_refl)
              ltac:(vm_compute; reflexivity))
    as (sym1 & sym2 & st' & H1 & H2 & Hrun & Hsc & Hsh & _ & Hst & Hother & _).
  { eexists. split.
    - apply list_elem_of_lookup. exists 0%nat. vm_compute. reflexivity.
    - vm_compute. by eexists. }
  exists st'.
  assert (sym1 = "beer") as -> by (vm_compute in H1; congruence).
  assert (sym2 = "beer") as -> by (vm_compute in H2; congruence).
  split_and!; [exact Hrun | exact Hsc | exact Hst | | exact Hsh].
  rewrite Hother; [vm_compute; reflexivity | discriminate].
Defined.

End TimerMore.

(* ===================================================================== *)
(** * The session's record of what its client knows *)
(* ===================================================================== *)

Module SessionMore.
Import Objects Protocol WorldM SessionM SessionProps.

(** [object_cache] grown by a set of ids. *)
Definition cache_union (X : gset string) (s : Session) : Session :=
  mkSession (agent_id s) (object_cache s ∪ X) (current_matrix_id s)
            (logged_in s) (_server s).

Definition ids_of (objs : list WorldObject) : gset string :=
  list_to_set ((λ obj, objid (base obj)) <$> objs).

Lemma cache_union_union X Y s :
  cache_union Y (cache_union X s) = cache_union (X ∪ Y) s.
Proof. unfold cache_union. simpl. f_equal. by rewrite (assoc_L (∪)). Qed.

Lemma cache_union_empty s : cache_union ∅ s = s.
Proof.
  destruct s. unfold cache_union. simpl. f_equal. by rewrite (right_id_L ∅ (∪)).
Qed.

Lemma ids_of_cons obj objs :
  ids_of (obj :: objs) = {[objid (base obj)]} ∪ ids_of objs.
Proof. done. Qed.

Lemma ids_of_app l1 l2 : ids_of (l1 ++ l2) = ids_of l1 ∪ ids_of l2.
Proof. unfold ids_of. by rewrite fmap_app, list_to_set_app_L. Qed.

Lemma elem_of_ids_of k objs :
  k ∈ ids_of objs ↔ ∃ obj, obj ∈ objs ∧ objid (base obj) = k.
Proof.
  unfold ids_of. rewrite elem_of_list_to_set, list_elem_of_fmap.
  split; intros (obj & H1 & H2); exists obj; done.
Qed.

Section Cache.
Context {P : Type}.
Implicit Types (e : Env P).

Lemma send_all_sessions sid objs e :
  sessions (send_all sid objs e)
  = alter (cache_union (ids_of objs)) sid (sessions e) ∧
  tasks (send_all sid objs e) = tasks e.
Proof.
  revert e. induction objs as [|obj objs IH]; intros e.
  - split; [|done]. simpl. apply map_eq. intros k.
    destruct (decide (k = sid)) as [->|Hk].
    + rewrite lookup_alter_eq. destruct (sessions e !! sid) as [s|]; [|done].
      simpl. by rewrite cache_union_empty.
    + by rewrite lookup_alter_ne.
  - destruct (IH (send_full_object sid (base obj) e)) as [Hs Ht].
    unfold send_all in *. simpl. rewrite Hs, Ht. split; [|done].
    simpl. apply map_eq. intros k.
    destruct (decide (k = sid)) as [->|Hk].
    + rewrite !lookup_alter_eq. destruct (sessions e !! sid) as [s|]; [|done].
      simpl. f_equal.
      change (cache_add (objid (base obj)) s)
        with (cache_union {[objid (base obj)]} s).
      by rewrite cache_union_union, ids_of_cons.
    + by rewrite !lookup_alter_ne.
Qed.

(** A full matrix sync, seen from the session table.  When [matrix_id]
    does not name a Matrix nothing at all happens.  Otherwise the
    session's current matrix becomes [matrix_id] and its cache grows by
    exactly the ids of the [set] messages written to it; other sessions,
    the world and the timers are untouched. *)
Theorem send_matrix_state_session (sid matrix_id : string) e (s : Session) :
  sessions e !! sid = Some s →
  let e' := send_matrix_state sid matrix_id e in
  match objects (world e) !! matrix_id with
  | Some (Matrix matrix) =>
      ∃ s', sessions e' !! sid = Some s' ∧
            current_matrix_id s' = Some matrix_id ∧
            agent_id s' = agent_id s ∧ logged_in s' = logged_in s ∧
            (∀ k, k ∈ object_cache s' ↔
                  k ∈ object_cache s ∨
                  ∃ attrs, (sid, MsgSet k attrs)
                           ∈ drop (length (out e)) (out e')) ∧
            (∀ sid', sid' ≠ sid → sessions e' !! sid' = sessions e !! sid') ∧
            world e' = world e ∧ tasks e' = tasks e
  | _ => e' = e
  end.
Proof.
  intros Hs e'. subst e'. unfold send_matrix_state, get_matrix.
  destruct (objects (world e) !! matrix_id) as [[matrix| | | |]|] eqn:Hm;
    try done.
  cbv zeta.
  set (e1 := with_sessions _ e).
  set (e2 := send_full_object sid matrix e1).
  assert (world e2 = world e) as Hw2 by done.
  destruct (send_all_out sid (get_images_in_matrix (world e2) matrix_id) e2)
    as [Ho3 Hw3].
  destruct (send_all_sessions sid (get_images_in_matrix (world e2) matrix_id) e2)
    as [Hs3 Ht3].
  set (e3 := send_all sid _ e2) in *.
  destruct (send_all_out sid (get_tokens_in_matrix (world e3) matrix_id) e3)
    as [Ho4 Hw4].
  destruct (send_all_sessions sid (get_tokens_in_matrix (world e3) matrix_id) e3)
    as [Hs4 Ht4].
  set (e4 := send_all sid _ e3) in *.
  destruct (send_all_out sid (get_keys_in_matrix (world e4) matrix_id) e4)
    as [Ho5 Hw5].
  destruct (send_all_sessions sid (get_keys_in_matrix (world e4) matrix_id) e4)
    as [Hs5 Ht5].
  set (e5 := send_all sid _ e4) in *.
  destruct (send_all_out sid (get_agents_in_matrix (world e5) matrix_id) e5)
    as [Ho6 Hw6].
  destruct (send_all_sessions sid (get_agents_in_matrix (world e5) matrix_id) e5)
    as [Hs6 Ht6].
  rewrite Hw5, Hw4, Hw3, Hw2 in *.
  set (images := get_images_in_matrix (world e) matrix_id) in *.
  set (tokens := get_tokens_in_matrix (world e) matrix_id) in *.
  set (keys := get_keys_in_matrix (world e) matrix_id) in *.
  set (agents := get_agents_in_matrix (world e) matrix_id) in *.
  set (sent := Matrix matrix :: images ++ tokens ++ keys ++ agents).
  assert (out (send_all sid agents e5) = out e ++ map (full_msg sid) sent) as Hout.
  { rewrite Ho6, Ho5, Ho4, Ho3. subst sent e2 e1. simpl.
    rewrite !map_app, <-!app_assoc. done. }
  assert (sessions (send_all sid agents e5) !! sid
          = Some (mkSession (agent_id s) (object_cache s ∪ ids_of sent)
                            (Some matrix_id) (logged_in s) (_server s))) as Hsess.
  { rewrite Hs6, Hs5, Hs4, Hs3. rewrite !lookup_alter_eq. subst e2 e1. simpl.
    rewrite !lookup_alter_eq, Hs. simpl. f_equal.
    unfold cache_union, cache_add, set_current_matrix_id. simpl. f_equal.
    subst sent. rewrite ids_of_cons, !ids_of_app.
    by rewrite !(assoc_L (∪)). }
  eexists. split_and!; [exact Hsess|done..| | | |].
  - intros k. simpl. rewrite Hout, drop_app_length, elem_of_union, elem_of_ids_of.
    split; (intros [?|H]; [by left|right]).
    + destruct H as (obj & Hin & <-). eexists.
      apply list_elem_of_fmap. by exists obj.
    + destruct H as (attrs & (obj & [= -> ->] & Hin)%list_elem_of_fmap).
      by exists obj.
  - intros sid' Hne. rewrite Hs6, Hs5, Hs4, Hs3.
    rewrite !lookup_alter_ne by done. subst e2 e1. simpl.
    by rewrite !lookup_alter_ne.
  - done.
  - by rewrite Ht6, Ht5, Ht4, Ht3.
Qed.

End Cache.

(** A lobby with one token, and one session. *)
Definition lobby_env : Env unit :=
  mkEnv (run [OpCreateMatrix "Home" 4 4 no_attrs;
              OpCreateToken "Play" 0 0 1 no_attrs;
              OpPlace "t1" "m1"] init)
        {["a1" := mkSession "a1" ∅ None true true]} [] [].

Lemma send_matrix_state_session_witness :
  ∃ s', sessions (send_matrix_state "a1" "m1" lobby_env) !! "a1" = Some s' ∧
        current_matrix_id s' = Some "m1" ∧
        (∀ k, k ∈ object_cache s' ↔
              k ∈ (∅ : gset string) ∨
              ∃ attrs, ("a1", MsgSet k attrs)
                       ∈ drop 0 (out (send_matrix_state "a1" "m1" lobby_env))).
Proof.
  pose proof (send_matrix_state_session "a1" "m1" lobby_env
                (mkSession "a1" ∅ None true true) eq_refl) as H.
  cbv zeta in H.
  assert (is_Some (get_matrix (world lobby_env) "m1")) as [m Hm]
    by (vm_compute; by eexists).
  unfold get_matrix in Hm.
  destruct (objects (world lobby_env) !! "m1") as [[m'| | | |]|];
    try discriminate Hm.
  destruct H as (s' & H1 & H2 & _ & _ & H3 & _).
  exists s'. exact (conj H1 (conj H2 H3)).
Defined.

End SessionMore.
